(** * linuxptp-daemon-log-splitter: a shallow embedding of [main.go]

    The program reads a combined PTP daemon log line by line, looks on each
    line for tokens such as [ptp4l.3.config], and writes the line to the
    output file of every run named on it.  Lines without a token go to a
    scratch file and to every run file that is already open; a run file that
    is opened later is seeded with the scratch file.

    Go strings are byte sequences: they are modelled by [string], whose
    characters are the 256 values of [ascii]. *)

From Stdlib Require Import Ascii String List Arith Lia.
From stdpp Require Import base option list gmap sets strings sorting.

Local Open Scope nat_scope.
Set Warnings "-clear-no-such-hyp".

(** ** Bytes and strings *)

Module Str.

Definition newline : ascii := "010"%char.

Fixpoint last_byte (s : string) : option ascii :=
  match s with
  | EmptyString => None
  | String c EmptyString => Some c
  | String _ s' => last_byte s'
  end.

Fixpoint take (n : nat) (s : string) : string :=
  match n, s with
  | S n', String c s' => String c (take n' s')
  | _, _ => EmptyString
  end.

Fixpoint drop (n : nat) (s : string) : string :=
  match n, s with
  | S n', String _ s' => drop n' s'
  | _, _ => s
  end.

(** [strings.HasSuffix] *)
Definition HasSuffix (s suffix : string) : bool :=
  (String.length suffix <=? String.length s) &&
  bool_decide (drop (String.length s - String.length suffix) s = suffix).

(** [strings.ToLower], on ASCII letters; the other bytes are kept. *)
Definition lower_byte (c : ascii) : ascii :=
  let n := nat_of_ascii c in
  if (65 <=? n) && (n <=? 90) then ascii_of_nat (n + 32) else c.

Fixpoint ToLower (s : string) : string :=
  match s with
  | EmptyString => EmptyString
  | String c s' => String (lower_byte c) (ToLower s')
  end.

(** The concatenation of a list of lines. *)
Fixpoint cat (ls : list string) : string :=
  match ls with
  | [] => EmptyString
  | l :: ls' => l +:+ cat ls'
  end.

End Str.

(** ** Regular expressions ([regexp])

    The fragment of Go's RE2 syntax that [runTokenPattern] uses: literals,
    character classes given by ranges, the greedy [+] of a class, the ASCII
    word boundary, concatenation and capturing groups.  All of its classes are
    ASCII, so matching bytes and matching UTF-8 runes agree. *)

Module Regexp.

Definition range : Type := ascii * ascii.

Inductive regex : Type :=
| WordBoundary                      (* \b *)
| Lit (s : string)                  (* literal text *)
| Plus (cls : list range)           (* [...]+ , greedy *)
| Concat (r1 r2 : regex)
| Capture (r : regex).              (* ( ... ) *)

Definition in_range (c : ascii) (r : range) : bool :=
  (nat_of_ascii r.1 <=? nat_of_ascii c) && (nat_of_ascii c <=? nat_of_ascii r.2).

Definition in_class (cls : list range) (c : ascii) : bool :=
  existsb (in_range c) cls.

(** \w of RE2: [0-9A-Za-z_] *)
Definition word_class : list range :=
  [("0", "9"); ("A", "Z"); ("a", "z"); ("_", "_")]%char.

Definition is_word (c : option ascii) : bool :=
  match c with
  | Some c => in_class word_class c
  | None => false
  end.

Definition head (s : string) : option ascii :=
  match s with
  | EmptyString => None
  | String c _ => Some c
  end.

(** A position in the subject: the byte before it and the text after it. *)
Definition cont (R : Type) : Type :=
  option ascii → string → list string → option R.

Fixpoint exec_lit {R} (lit : string) (k : cont R) : cont R :=
  fun prev s caps =>
    match lit with
    | EmptyString => k prev s caps
    | String c lit' =>
        match s with
        | String c' s' =>
            if bool_decide (c = c') then exec_lit lit' k (Some c') s' caps
            else None
        | EmptyString => None
        end
    end.

(** Greedy [+]: the longest run is tried first, then shorter ones. *)
Fixpoint exec_plus {R} (cls : list range) (k : cont R)
    (prev : option ascii) (s : string) (caps : list string) : option R :=
  match s with
  | String c s' =>
      if in_class cls c then
        match exec_plus cls k (Some c) s' caps with
        | Some res => Some res
        | None => k (Some c) s' caps
        end
      else None
  | EmptyString => None
  end.

Fixpoint exec {R} (r : regex) (k : cont R) : cont R :=
  match r with
  | WordBoundary => fun prev s caps =>
      if xorb (is_word prev) (is_word (head s)) then k prev s caps else None
  | Lit lit => exec_lit lit k
  | Plus cls => exec_plus cls k
  | Concat r1 r2 => exec r1 (exec r2 k)
  | Capture r1 => fun prev s caps =>
      exec r1
        (fun prev' s' caps' =>
           k prev' s'
             (caps' ++ [Str.take (String.length s - String.length s') s]))
        prev s caps
  end.

(** A match that starts exactly at the position: the captured groups and
    the length of the matched text. *)
Definition match_at (r : regex) (prev : option ascii) (s : string)
    : option (list string * nat) :=
  exec r (fun _ s' caps => Some (caps, String.length s - String.length s'))
    prev s [].

(** [FindAllStringSubmatch(s, -1)]: the successive leftmost matches, each
    search starting where the previous match ended.  [skip] counts the
    bytes of the last match that are still to be stepped over, [fresh] is
    false exactly at the end of the previous match, where an empty match is
    not reported. *)
Fixpoint find_from (r : regex) (skip : nat) (fresh : bool)
    (prev : option ascii) (s : string) : list (list string) :=
  match skip with
  | S n =>
      match s with
      | String c s' => find_from r n (bool_decide (n ≠ 0)) (Some c) s'
      | EmptyString => []
      end
  | 0 =>
      let next (sk : nat) :=
        match s with
        | String c s' => find_from r sk (bool_decide (sk ≠ 0)) (Some c) s'
        | EmptyString => []
        end in
      match match_at r prev s with
      | Some (caps, 0) =>
          (if fresh then [EmptyString :: caps] else []) ++ next 0
      | Some (caps, S n) =>
          (Str.take (S n) s :: caps) :: next n
      | None => next 0
      end
  end.

Definition FindAllStringSubmatch (r : regex) (s : string)
    : list (list string) :=
  find_from r 0 true None s.

End Regexp.

(** ** The token pattern *)

Definition defaultOutPrefix : string := "split".

(** [\b[A-Za-z0-9_-]+\.(\d+)\.config\b] *)
Definition runTokenPattern : Regexp.regex :=
  Regexp.Concat Regexp.WordBoundary
    (Regexp.Concat
       (Regexp.Plus [("A", "Z"); ("a", "z"); ("0", "9"); ("_", "_"); ("-", "-")]%char)
       (Regexp.Concat (Regexp.Lit ".")
          (Regexp.Concat (Regexp.Capture (Regexp.Plus [("0", "9")]%char))
             (Regexp.Concat (Regexp.Lit ".config") Regexp.WordBoundary)))).

Definition nl : string := String Str.newline EmptyString.


(** ** The operating system

    The file system is a flat map from path names to nodes.  A path name is
    identified with the file it names (no links, no second spelling of a
    path), and an open file is identified with the path it was opened at:
    the program never renames or removes a path while it still uses a handle
    on it.  Nothing else modifies the file system during the run. *)

Inductive node : Type :=
| File (data : string)
| Dir.

Inductive errno : Type :=
| ENOENT | EISDIR | EEXIST | EBADF | ENOSPC | EIO | EACCES.

Inductive call : Type :=
| Open (path : string)
| Create (path : string)
| Read (path : string)
| Write (path : string) (data : string)
| Close (path : string)
| Rename (oldpath newpath : string)
| Remove (path : string).

(** One system call and the error it returned, if any. *)
Definition event : Type := call * option errno.

(** Go's [error] values as the program sees them: the failed call and its
    cause. *)
Record error : Type := { err_call : call; err_no : errno }.

Definition strerror (e : errno) : string :=
  match e with
  | ENOENT => "no such file or directory"
  | EISDIR => "is a directory"
  | EEXIST => "file exists"
  | EBADF => "bad file descriptor"
  | ENOSPC => "no space left on device"
  | EIO => "input/output error"
  | EACCES => "permission denied"
  end.

Definition call_text (c : call) : string :=
  match c with
  | Open p => "open " +:+ p
  | Create p => "open " +:+ p
  | Read p => "read " +:+ p
  | Write p _ => "write " +:+ p
  | Close p => "close " +:+ p
  | Rename a b => "rename " +:+ a +:+ " " +:+ b
  | Remove p => "remove " +:+ p
  end.

(** [err.Error()], which [%v] prints. *)
Definition Error (e : error) : string :=
  call_text (err_call e) +:+ ": " +:+ strerror (err_no e).

(** The world the process runs in.  [faults] lets any system call fail: the
    call number [n] of the run fails with [e] when [faults n = Some e].
    [sched] stands for Go's unspecified map iteration order: the keys of a
    [range] loop are visited by increasing rank. *)
Record world : Type := {
  fs : gmap string node;
  stderr : string;
  trace : list event;
  faults : nat → option errno;
  sched : nat → string → nat;
  argv0 : string
}.

Definition set_fs (w : world) (m : gmap string node) : world :=
  {| fs := m; stderr := stderr w; trace := trace w; faults := faults w;
     sched := sched w; argv0 := argv0 w |}.

Definition log_event (w : world) (ev : event) : world :=
  {| fs := fs w; stderr := stderr w; trace := trace w ++ [ev];
     faults := faults w; sched := sched w; argv0 := argv0 w |}.

Definition put_stderr (w : world) (s : string) : world :=
  {| fs := fs w; stderr := stderr w +:+ s; trace := trace w;
     faults := faults w; sched := sched w; argv0 := argv0 w |}.

(** ** The process monad: state passing with [os.Exit] *)

Inductive outcome (A : Type) : Type :=
| Val (a : A)
| Exited (code : nat)
| OutOfFuel.
Arguments Val {A} a.
Arguments Exited {A} code.
Arguments OutOfFuel {A}.

Definition M (A : Type) : Type := world → outcome A * world.

Definition ret {A} (a : A) : M A := fun w => (Val a, w).

Definition bind {A B} (m : M A) (k : A → M B) : M B :=
  fun w =>
    match m w with
    | (Val a, w') => k a w'
    | (Exited c, w') => (Exited c, w')
    | (OutOfFuel, w') => (OutOfFuel, w')
    end.

Global Instance proc_ret : MRet M := @ret.
Global Instance proc_bind : MBind M := fun A B k m => bind m k.

(** [os.Exit]: the process stops at once; deferred calls do not run. *)
Definition os_Exit {A} (code : nat) : M A := fun w => (Exited code, w).

(** [fmt.Fprintf(os.Stderr, ...)] with the text already formatted. *)
Definition eprint (s : string) : M unit := fun w => (Val tt, put_stderr w s).

(** A system call: it fails when the world injects a fault at this call or
    when [sem] says so, and has no effect then; the call is logged. *)
Definition syscall (c : call) (sem : gmap string node → errno + gmap string node)
    : M (option error) :=
  fun w =>
    let r := match faults w (length (trace w)) with
             | Some e => inl e
             | None => sem (fs w)
             end in
    match r with
    | inl e => (Val (Some {| err_call := c; err_no := e |}), log_event w (c, Some e))
    | inr m => (Val None, log_event (set_fs w m) (c, None))
    end.

Definition os_Open (p : string) : M (option error) :=
  syscall (Open p)
    (fun m => match m !! p with None => inl ENOENT | Some _ => inr m end).

Definition os_Create (p : string) : M (option error) :=
  syscall (Create p)
    (fun m => match m !! p with
              | Some Dir => inl EISDIR
              | _ => inr (<[p := File EmptyString]> m)
              end).

Definition file_Write (p : string) (data : string) : M (option error) :=
  syscall (Write p data)
    (fun m => match m !! p with
              | Some (File old) => inr (<[p := File (old +:+ data)]> m)
              | _ => inl EBADF
              end).

Definition file_Close (p : string) : M (option error) :=
  syscall (Close p) (fun m => inr m).

Definition os_Rename (a b : string) : M (option error) :=
  syscall (Rename a b)
    (fun m => match m !! a, m !! b with
              | None, _ => inl ENOENT
              | Some _, Some Dir => inl EEXIST
              | Some n, _ => inr (<[b := n]> (delete a m))
              end).

Definition os_Remove (p : string) : M (option error) :=
  syscall (Remove p)
    (fun m => match m !! p with
              | None => inl ENOENT
              | Some _ => inr (delete p m)
              end).

(** Reading the whole current content of a file. *)
Definition file_Read (p : string) : M (error + string) :=
  fun w =>
    let r := match faults w (length (trace w)) with
             | Some e => inl e
             | None => match fs w !! p with
                       | Some (File d) => inr d
                       | Some Dir => inl EISDIR
                       | None => inl EBADF
                       end
             end in
    match r with
    | inl e => (Val (inl {| err_call := Read p; err_no := e |}),
                log_event w (Read p, Some e))
    | inr d => (Val (inr d), log_event w (Read p, None))
    end.

(** The keys of a [range] loop over a map, in the order the world picks. *)
Definition rank_le (rk : string → nat) (a b : string) : Prop := rk a ≤ rk b.

Global Instance rank_le_dec rk a b : Decision (rank_le rk a b).
Proof. unfold rank_le. apply _. Defined.

Definition range_keys (keys : gset string) : M (list string) :=
  fun w =>
    (Val (merge_sort (rank_le (sched w (length (trace w)))) (elements keys)), w).

(** ** [bufio] *)

Module bufio.

Definition defaultBufSize : nat := 4096.

(** A [*bufio.Writer]: the file underneath and the bytes not yet written. *)
Record Writer : Type := { wr : string; buf : string }.

Definition NewWriter (f : string) : Writer := {| wr := f; buf := EmptyString |}.

Definition Buffered (b : Writer) : nat := String.length (buf b).
Definition Available (b : Writer) : nat := defaultBufSize - Buffered b.

Definition Flush (b : Writer) : M (Writer * option error) :=
  match buf b with
  | EmptyString => ret (b, None)
  | _ =>
      e ← file_Write (wr b) (buf b);
      match e with
      | Some err => ret (b, Some err)
      | None => ret ({| wr := wr b; buf := EmptyString |}, None)
      end
  end.

(** [WriteString]: while the text does not fit, a full buffer is flushed,
    and with an empty buffer the text goes straight to the file; what
    remains is kept in the buffer.  After a flush the buffer is empty, so
    the loop of the library runs at most twice. *)
Definition WriteString (b : Writer) (s : string) : M (Writer * option error) :=
  if String.length s <=? Available b then
    ret ({| wr := wr b; buf := buf b +:+ s |}, None)
  else if Buffered b =? 0 then
    e ← file_Write (wr b) s;
    ret (b, e)
  else
    let n := Available b in
    '(b1, e) ← Flush {| wr := wr b; buf := buf b +:+ Str.take n s |};
    match e with
    | Some err => ret (b1, Some err)
    | None =>
        let s2 := Str.drop n s in
        if String.length s2 <=? Available b1 then
          ret ({| wr := wr b1; buf := buf b1 +:+ s2 |}, None)
        else
          e ← file_Write (wr b1) s2;
          ret (b1, e)
    end.

(** A [*bufio.Reader] over a file: the file and the offset of the next
    byte the program has not consumed yet. *)
Record Reader : Type := { rd : string; off : nat }.

Definition NewReader (f : string) : Reader := {| rd := f; off := 0 |}.

Inductive read_error : Type :=
| NoError
| EOF
| ReadError (e : error).

(** The text up to and including the first [delim], and the rest. *)
Fixpoint cut (delim : ascii) (s : string) : option (string * string) :=
  match s with
  | EmptyString => None
  | String c s' =>
      if bool_decide (c = delim) then Some (String c EmptyString, s')
      else match cut delim s' with
           | Some (l, r) => Some (String c l, r)
           | None => None
           end
  end.

(** [ReadString(delim)]: the next line with its delimiter; at the end of
    the input, what is left together with [io.EOF]. *)
Definition ReadString (b : Reader) (delim : ascii)
    : M (Reader * string * read_error) :=
  r ← file_Read (rd b);
  match r with
  | inl err => ret (b, EmptyString, ReadError err)
  | inr data =>
      let rest := Str.drop (off b) data in
      match cut delim rest with
      | Some (line, _) =>
          ret ({| rd := rd b; off := off b + String.length line |}, line, NoError)
      | None =>
          ret ({| rd := rd b; off := off b + String.length rest |}, rest, EOF)
      end
  end.

End bufio.

(** [io.Copy(w, r)] into a buffered writer whose buffer is empty hands the
    copy to the file underneath ([ReadFrom]); otherwise the text goes through
    the buffer. *)
Definition io_Copy (w : bufio.Writer) (src : string)
    : M (bufio.Writer * option error) :=
  r ← file_Read src;
  match r with
  | inl err => ret (w, Some err)
  | inr data =>
      if bufio.Buffered w =? 0 then
        e ← file_Write (bufio.wr w) data;
        ret (w, e)
      else bufio.WriteString w data
  end.

(** [io.Copy(wf, r)] between two files. *)
Definition io_Copy_file (dst src : string) : M (option error) :=
  r ← file_Read src;
  match r with
  | inl err => ret (Some err)
  | inr data => file_Write dst data
  end.

(** ** [path/filepath] *)

Module filepath.

Definition slash : ascii := "/"%char.

Fixpoint strip_trailing (s : string) : string :=
  match s with
  | EmptyString => EmptyString
  | String c s' =>
      match strip_trailing s' with
      | EmptyString => if bool_decide (c = slash) then EmptyString
                       else String c EmptyString
      | t => String c t
      end
  end.

Fixpoint has_slash (s : string) : bool :=
  match s with
  | EmptyString => false
  | String c s' => bool_decide (c = slash) || has_slash s'
  end.

Fixpoint last_element (s : string) : string :=
  match s with
  | EmptyString => EmptyString
  | String c s' =>
      if has_slash s' then last_element s'
      else if bool_decide (c = slash) then s' else s
  end.

(** [filepath.Base] *)
Definition Base (path : string) : string :=
  match path with
  | EmptyString => "."
  | _ =>
      match last_element (strip_trailing path) with
      | EmptyString => "/"
      | p => p
      end
  end.

End filepath.

(** ** The program ([main.go]) *)

Record cliFlags : Type := {
  inputFile : string;
  outPrefix : string;
  help : bool
}.

(** [printUsage] *)
Definition printUsage : M unit :=
  a0 ← (fun w => (Val (argv0 w), w));
  eprint ("PTP Log Splitter" +:+ nl);;
  eprint ("Usage: " +:+ filepath.Base a0 +:+ " [-input file] [-outprefix prefix]" +:+ nl);;
  eprint nl;;
  eprint ("Reads PTP logs and splits them into per-run files based on tokens like 'ptp4l.N.config' or 'phc2sys.N.config'." +:+ nl);;
  eprint ("Lines without a run token are included in all run files." +:+ nl).

(** [os.Stdin] *)
Definition os_Stdin : string := "/dev/stdin".

(** The loop over [".log"] and [".txt"] that removes the first extension
    that [base] ends with, whatever its case. *)
Fixpoint trim_ext (exts : list string) (base : string) : string :=
  match exts with
  | [] => base
  | ext :: exts' =>
      if Str.HasSuffix (Str.ToLower base) ext
      then Str.take (String.length base - String.length ext) base
      else trim_ext exts' base
  end.

Definition derive_outPrefix (flags : cliFlags) : string :=
  if bool_decide (outPrefix flags = EmptyString) then
    if bool_decide (inputFile flags ≠ EmptyString)
    then trim_ext [".log"; ".txt"] (filepath.Base (inputFile flags))
    else defaultOutPrefix
  else outPrefix flags.

(** [runOut]: the handles of one run file.  The writer is shared by pointer
    in Go; here its state lives in the map entry, which every write
    updates. *)
Record runOut : Type := { file : string; writer : bufio.Writer }.

(** The variables of [main] that the loop changes. *)
Record locals : Type := {
  commonWriter : bufio.Writer;
  runOutputs : gmap string runOut;
  anyRunFound : bool;
  bufReader : bufio.Reader
}.

Definition set_commonWriter (st : locals) (cw : bufio.Writer) : locals :=
  {| commonWriter := cw; runOutputs := runOutputs st;
     anyRunFound := anyRunFound st; bufReader := bufReader st |}.

Definition set_runOutputs (st : locals) (m : gmap string runOut) : locals :=
  {| commonWriter := commonWriter st; runOutputs := m;
     anyRunFound := anyRunFound st; bufReader := bufReader st |}.

Definition set_anyRunFound (st : locals) (b : bool) : locals :=
  {| commonWriter := commonWriter st; runOutputs := runOutputs st;
     anyRunFound := b; bufReader := bufReader st |}.

Definition set_bufReader (st : locals) (r : bufio.Reader) : locals :=
  {| commonWriter := commonWriter st; runOutputs := runOutputs st;
     anyRunFound := anyRunFound st; bufReader := r |}.

(** A [for ... range] loop over keys that threads the variables. *)
Fixpoint for_each {S : Type} (keys : list string) (body : string → S → M S)
    (s : S) : M S :=
  match keys with
  | [] => ret s
  | k :: keys' => s' ← body k s; for_each keys' body s'
  end.

(** The body of [for _, m := range matches]: the first group of a match is
    added to the set. *)
Definition add_match (acc : gset string) (m : list string) : gset string :=
  if 2 <=? length m then
    match m !! 1 with
    | Some run => {[run]} ∪ acc
    | None => acc
    end
  else acc.

(** The set [runsOnLine] built from the matches. *)
Definition runsOnLine (matches : list (list string)) : gset string :=
  foldl add_match ∅ matches.

Section Splitter.

Variable outPrefix_ : string.

Definition commonTempPath : string := outPrefix_ +:+ ".common.tmp".
Definition runPath (run : string) : string :=
  outPrefix_ +:+ ".run_" +:+ run +:+ ".log".
Definition unknownPath : string := outPrefix_ +:+ ".run_unknown.log".

(** [openRun] *)
Definition openRun (run : string) (st : locals) : M (locals * (error + runOut)) :=
  match runOutputs st !! run with
  | Some ro => ret (st, inr ro)
  | None =>
      let path := runPath run in
      e ← os_Create path;
      match e with
      | Some err => ret (st, inl err)
      | None =>
          let f := path in
          let w := bufio.NewWriter f in
          '(cw, e) ← bufio.Flush (commonWriter st);
          let st := set_commonWriter st cw in
          match e with
          | Some err => file_Close f;; ret (st, inl err)
          | None =>
              e ← os_Open commonTempPath;
              match e with
              | Some err => file_Close f;; ret (st, inl err)
              | None =>
                  let r := commonTempPath in
                  '(w, cErr) ← io_Copy w r;
                  file_Close r;;
                  match cErr with
                  | Some err =>
                      bufio.Flush w;; file_Close f;; ret (st, inl err)
                  | None =>
                      let ro := {| file := f; writer := w |} in
                      ret (set_runOutputs st (<[run := ro]> (runOutputs st)), inr ro)
                  end
              end
          end
      end
  end.

(** The body of [for _, ro := range runOutputs] for a line without token. *)
Definition write_open_run (line : string) (run : string) (st : locals) : M locals :=
  match runOutputs st !! run with
  | None => ret st
  | Some ro =>
      '(w, werr) ← bufio.WriteString (writer ro) line;
      match werr with
      | Some err =>
          eprint ("error: writing run file: " +:+ Error err +:+ nl);;
          os_Exit 2
      | None =>
          ret (set_runOutputs st
                 (<[run := {| file := file ro; writer := w |}]> (runOutputs st)))
      end
  end.

(** The body of [for run := range runsOnLine]. *)
Definition write_tagged_run (line : string) (run : string) (st : locals) : M locals :=
  '(st, r) ← openRun run st;
  match r with
  | inl oerr =>
      eprint ("error: opening run file for " +:+ run +:+ ": " +:+ Error oerr +:+ nl);;
      os_Exit 2
  | inr ro =>
      '(w, werr) ← bufio.WriteString (writer ro) line;
      match werr with
      | Some err =>
          eprint ("error: writing run file for " +:+ run +:+ ": " +:+ Error err +:+ nl);;
          os_Exit 2
      | None =>
          ret (set_runOutputs st
                 (<[run := {| file := file ro; writer := w |}]> (runOutputs st)))
      end
  end.

(** What the loop does with one line, once it ends with a newline. *)
Definition route_line (line : string) (st : locals) : M locals :=
  let matches := Regexp.FindAllStringSubmatch runTokenPattern line in
  if length matches =? 0 then
    '(cw, werr) ← bufio.WriteString (commonWriter st) line;
    match werr with
    | Some err =>
        eprint ("error: writing common temp file: " +:+ Error err +:+ nl);;
        os_Exit 2
    | None =>
        let st := set_commonWriter st cw in
        keys ← range_keys (dom (runOutputs st));
        for_each keys (write_open_run line) st
    end
  else
    let st := set_anyRunFound st true in
    keys ← range_keys (runsOnLine matches);
    for_each keys (write_tagged_run line) st.

(** The line with a newline added when it has none. *)
Definition terminate_line (line : string) : string :=
  if (String.length line =? 0)
     || negb (bool_decide (Str.last_byte line = Some Str.newline))
  then line +:+ nl else line.

(** The [for] loop of [main]; [fuel] bounds the number of iterations. *)
Fixpoint read_loop (fuel : nat) (st : locals) : M locals :=
  match fuel with
  | 0 => fun w => (OutOfFuel, w)
  | S fuel' =>
      '(rd, line, err) ← bufio.ReadString (bufReader st) Str.newline;
      let st := set_bufReader st rd in
      match err with
      | bufio.ReadError e =>
          eprint ("error: reading input: " +:+ Error e +:+ nl);;
          os_Exit 2
      | bufio.EOF =>
          if String.length line =? 0 then ret st
          else route_line (terminate_line line) st
      | bufio.NoError =>
          st ← route_line (terminate_line line) st;
          read_loop fuel' st
      end
  end.

(** The body of [for run, ro := range runOutputs] after the loop. *)
Definition close_run (run : string) (st : locals) : M locals :=
  match runOutputs st !! run with
  | None => ret st
  | Some ro =>
      '(w, e) ← bufio.Flush (writer ro);
      match e with
      | Some err =>
          eprint ("error: flushing run file for " +:+ run +:+ ": " +:+ Error err +:+ nl);;
          os_Exit 2
      | None =>
          let st := set_runOutputs st
                      (<[run := {| file := file ro; writer := w |}]> (runOutputs st)) in
          e ← file_Close (file ro);
          match e with
          | Some err =>
              eprint ("error: closing run file for " +:+ run +:+ ": " +:+ Error err +:+ nl);;
              os_Exit 2
          | None => ret st
          end
      end
  end.

(** The end of [main]: flush everything; without any run, the scratch file
    becomes [unknownPath], by renaming or else by copying. *)
Definition finish (inName : string) (st : locals) : M unit :=
  '(cw, e) ← bufio.Flush (commonWriter st);
  match e with
  | Some err =>
      eprint ("error: flushing common temp file: " +:+ Error err +:+ nl);;
      os_Exit 2
  | None =>
      let st := set_commonWriter st cw in
      keys ← range_keys (dom (runOutputs st));
      st ← for_each keys close_run st;
      if negb (anyRunFound st) then
        file_Close commonTempPath;;
        e ← os_Rename commonTempPath unknownPath;
        match e with
        | None =>
            eprint ("No run tokens found in " +:+ inName +:+ ". Wrote all lines to "
                    +:+ unknownPath +:+ nl)
        | Some _ =>
            e ← os_Open commonTempPath;
            match e with
            | Some err =>
                eprint ("error: opening common temp for copy: " +:+ Error err +:+ nl);;
                os_Exit 2
            | None =>
                let r := commonTempPath in
                e ← os_Create unknownPath;
                match e with
                | Some err =>
                    file_Close r;;
                    eprint ("error: creating " +:+ unknownPath +:+ ": " +:+ Error err +:+ nl);;
                    os_Exit 2
                | None =>
                    let wf := unknownPath in
                    e ← io_Copy_file wf r;
                    match e with
                    | Some err =>
                        file_Close wf;; file_Close r;;
                        eprint ("error: copying to " +:+ unknownPath +:+ ": " +:+ Error err +:+ nl);;
                        os_Exit 2
                    | None =>
                        file_Close wf;; file_Close r;;
                        eprint ("No run tokens found in " +:+ inName
                                +:+ ". Wrote all lines to " +:+ unknownPath +:+ nl)
                    end
                end
            end
        end
      else ret tt
  end.

End Splitter.

(** The number of iterations the loop may need: one per byte of the input
    and one more. *)
Definition input_fuel (f : string) : M nat :=
  fun w =>
    (Val (match fs w !! f with
          | Some (File d) => S (String.length d)
          | _ => 1
          end), w).

(** [main].  A deferred call runs when [main] returns, not when the process
    leaves through [os.Exit]. *)
Definition main (flags : cliFlags) : M unit :=
  if help flags then printUsage;; os_Exit 0
  else
    '(inputReader, inName, opened) ←
      (if bool_decide (inputFile flags ≠ EmptyString) then
         e ← os_Open (inputFile flags);
         match e with
         | Some err =>
             eprint ("error: cannot open input file: " +:+ Error err +:+ nl);;
             os_Exit 2
         | None => ret (inputFile flags, filepath.Base (inputFile flags), true)
         end
       else ret (os_Stdin, "stdin", false));
    let outPrefix := derive_outPrefix flags in
    e ← os_Create (commonTempPath outPrefix);
    match e with
    | Some err =>
        eprint ("error: cannot create common temp file: " +:+ Error err +:+ nl);;
        os_Exit 2
    | None =>
        let commonFile := commonTempPath outPrefix in
        let st := {| commonWriter := bufio.NewWriter commonFile;
                     runOutputs := ∅;
                     anyRunFound := false;
                     bufReader := bufio.NewReader inputReader |} in
        fuel ← input_fuel inputReader;
        st ← read_loop outPrefix fuel st;
        finish outPrefix inName st;;
        (* deferred, last registered first *)
        file_Close commonFile;;
        os_Remove (commonTempPath outPrefix);;
        if opened : bool then file_Close inputReader;; ret tt else ret tt
    end.

(** The exit status of the process and the world it leaves. *)
Definition run (flags : cliFlags) (w : world) : option nat * world :=
  match main flags w with
  | (Val _, w') => (Some 0, w')
  | (Exited c, w') => (Some c, w')
  | (OutOfFuel, w') => (None, w')
  end.

(** ** The vocabulary of the specification *)

(** The Token Scanner: the set of run identifiers on a line. *)
Definition matches_of (line : string) : list (list string) :=
  Regexp.FindAllStringSubmatch runTokenPattern line.

Definition scan (line : string) : gset string := runsOnLine (matches_of line).

(** A global line is one on which the pattern has no match. *)
Definition is_global (line : string) : bool := length (matches_of line) =? 0.

Definition tagged (run : string) (line : string) : bool :=
  bool_decide (run ∈ scan line).

Definition ids (ls : list string) : gset string := ⋃ (scan <$> ls).

(** The lines of a text, each with its terminator; the last line may have
    none. *)
Fixpoint split_lines (s : string) : list string :=
  match s with
  | EmptyString => []
  | String c s' =>
      if bool_decide (c = Str.newline) then String c EmptyString :: split_lines s'
      else match split_lines s' with
           | [] => [String c EmptyString]
           | l :: ls => String c l :: ls
           end
  end.

(** The lines as the loop routes them. *)
Definition lines_of (s : string) : list string := terminate_line <$> split_lines s.

Fixpoint all_bytes (f : ascii → bool) (s : string) : bool :=
  match s with
  | EmptyString => true
  | String c s' => f c && all_bytes f s'
  end.

Definition is_digit (c : ascii) : bool := Regexp.in_class [("0", "9")]%char c.
Definition is_ident_char (c : ascii) : bool :=
  Regexp.in_class [("A", "Z"); ("a", "z"); ("0", "9"); ("_", "_"); ("-", "-")]%char c.

(** The content of the sink of [run] in the words of the specification: the
    global lines before the first line tagged with [run], then every line
    from there on that is global or tagged with [run]. *)
Definition sink_spec (run : string) (ls : list string) : list string :=
  match list_find (fun l => run ∈ scan l) ls with
  | Some (i, _) =>
      filter (fun l => is_global l) (take i ls)
      ++ filter (fun l => is_global l ∨ run ∈ scan l) (drop i ls)
  | None => []
  end.

(** Declarative matching: [re_matches r prev s prev' s' caps] says that [r]
    matches a prefix of [s] that follows the byte [prev], leaving [s'] after
    the byte [prev'], with the groups [caps]. *)
Inductive re_matches : Regexp.regex → option ascii → string → option ascii →
                       string → list string → Prop :=
| rm_boundary prev s :
    xorb (Regexp.is_word prev) (Regexp.is_word (Regexp.head s)) = true →
    re_matches Regexp.WordBoundary prev s prev s []
| rm_lit_nil prev s :
    re_matches (Regexp.Lit EmptyString) prev s prev s []
| rm_lit_cons c lit prev s prev' s' :
    re_matches (Regexp.Lit lit) (Some c) s prev' s' [] →
    re_matches (Regexp.Lit (String c lit)) prev (String c s) prev' s' []
| rm_plus_one cls c prev s :
    Regexp.in_class cls c = true →
    re_matches (Regexp.Plus cls) prev (String c s) (Some c) s []
| rm_plus_more cls c prev s prev' s' :
    Regexp.in_class cls c = true →
    re_matches (Regexp.Plus cls) (Some c) s prev' s' [] →
    re_matches (Regexp.Plus cls) prev (String c s) prev' s' []
| rm_concat r1 r2 prev s p1 s1 c1 p2 s2 c2 :
    re_matches r1 prev s p1 s1 c1 →
    re_matches r2 p1 s1 p2 s2 c2 →
    re_matches (Regexp.Concat r1 r2) prev s p2 s2 (c1 ++ c2)
| rm_capture r prev s p' s' c :
    re_matches r prev s p' s' c →
    re_matches (Regexp.Capture r) prev s p' s'
      (c ++ [Str.take (String.length s - String.length s') s]).

(** A token at the start of [s], after the byte [prev]: the text
    [ident.digits.config] between two word boundaries. *)
Definition token_at (prev : option ascii) (s : string)
    (ident digits rest : string) : Prop :=
  s = ident +:+ "." +:+ digits +:+ ".config" +:+ rest ∧
  ident ≠ EmptyString ∧ all_bytes is_ident_char ident = true ∧
  digits ≠ EmptyString ∧ all_bytes is_digit digits = true ∧
  xorb (Regexp.is_word prev) (Regexp.is_word (Regexp.head s)) = true ∧
  xorb (Regexp.is_word (Some "g"%char)) (Regexp.is_word (Regexp.head rest)) = true.

Definition token_text (ident digits : string) : string :=
  ident +:+ "." +:+ digits +:+ ".config".

(** A match as [FindAllStringSubmatch] returns it: the text and the group. *)
Definition as_match (m : string * string) : list string := [m.1; m.2].

(** The successive leftmost tokens of a line that do not overlap: each one
    is the first token that starts at or after the end of the one before. *)
Inductive tokens_from : option ascii → string → list (string * string) → Prop :=
| tf_end prev :
    tokens_from prev EmptyString []
| tf_skip prev c s ms :
    (∀ ident digits rest, ¬ token_at prev (String c s) ident digits rest) →
    tokens_from (Some c) s ms →
    tokens_from prev (String c s) ms
| tf_hit prev s ident digits rest ms :
    token_at prev s ident digits rest →
    tokens_from (Some "g"%char) rest ms →
    tokens_from prev s ((token_text ident digits, digits) :: ms).

(** ** Reasoning about processes *)

(** [wp m w Q E]: from [w], [m] returns a value and a world in [Q] or leaves
    through [os.Exit] with a status and a world in [E]; it does not run out
    of fuel. *)
Definition wp {A} (m : M A) (w : world) (Q : A → world → Prop)
    (E : nat → world → Prop) : Prop :=
  match m w with
  | (Val a, w') => Q a w'
  | (Exited c, w') => E c w'
  | (OutOfFuel, _) => False
  end.

(** The world after some system calls that left the files as [m]. *)
Definition upd (w : world) (m : gmap string node) (evs : list event) : world :=
  {| fs := m; stderr := stderr w; trace := trace w ++ evs;
     faults := faults w; sched := sched w; argv0 := argv0 w |}.

Definition same_env (w w' : world) : Prop :=
  faults w' = faults w ∧ sched w' = sched w ∧ argv0 w' = argv0 w.

Definition succeeded (ev : event) : Prop := ev.2 = None.

(** The event of an error value. *)
Definition fail_ev (r : option error) : list event :=
  match r with
  | Some err => [(err_call err, Some (err_no err))]
  | None => []
  end.

Definition is_close (ev : event) : Prop := ∃ p, ev.1 = Close p.

(** The content a buffered writer stands for: the file and the buffer. *)
Definition written (m : gmap string node) (b : bufio.Writer) : option string :=
  match m !! bufio.wr b with
  | Some (File d) => Some (d +:+ bufio.buf b)
  | _ => None
  end.

(** A function changed at one key. *)
Definition fn_upd (f : string → string) (k : string) (v : string) : string → string :=
  fun r => if decide (r = k) then v else f r.

Definition ends_with_newline (l : string) : Prop :=
  Str.last_byte l = Some Str.newline.

Section Spec.

Variable P : string.      (* the output prefix *)
Variable inp : string.    (* the input file *)

(** The input is none of the files the loop writes. *)
Definition input_apart : Prop :=
  inp ≠ commonTempPath P ∧ ∀ run, inp ≠ runPath P run.

(** Calls whose error the program ignores, or survives: closing the
    input, the scratch file or the fallback file, renaming and removing. *)
Definition tolerated (c : call) : Prop :=
  match c with
  | Close p => p = commonTempPath P ∨ p = inp ∨ p = unknownPath P
  | Rename _ _ => True
  | Remove _ => True
  | _ => False
  end.

Definition clean (evs : list event) : Prop :=
  Forall (fun ev => succeeded ev ∨ tolerated ev.1) evs.

(** The operation each diagnostic names and the calls made for it. *)
Inductive describes : string → call → Prop :=
| d_open_input :
    describes "cannot open input file" (Open inp)
| d_create_common :
    describes "cannot create common temp file" (Create (commonTempPath P))
| d_read_input :
    describes "reading input" (Read inp)
| d_write_common data :
    describes "writing common temp file" (Write (commonTempPath P) data)
| d_write_run run data :
    describes "writing run file" (Write (runPath P run) data)
| d_open_run_create run :
    describes ("opening run file for " +:+ run) (Create (runPath P run))
| d_open_run_flush run data :
    describes ("opening run file for " +:+ run) (Write (commonTempPath P) data)
| d_open_run_open run :
    describes ("opening run file for " +:+ run) (Open (commonTempPath P))
| d_open_run_read run :
    describes ("opening run file for " +:+ run) (Read (commonTempPath P))
| d_open_run_copy run data :
    describes ("opening run file for " +:+ run) (Write (runPath P run) data)
| d_write_run_for run data :
    describes ("writing run file for " +:+ run) (Write (runPath P run) data)
| d_flush_common data :
    describes "flushing common temp file" (Write (commonTempPath P) data)
| d_flush_run run data :
    describes ("flushing run file for " +:+ run) (Write (runPath P run) data)
| d_close_run run :
    describes ("closing run file for " +:+ run) (Close (runPath P run))
| d_open_copy :
    describes "opening common temp for copy" (Open (commonTempPath P))
| d_create_unknown :
    describes ("creating " +:+ unknownPath P) (Create (unknownPath P))
| d_copy_read :
    describes ("copying to " +:+ unknownPath P) (Read (commonTempPath P))
| d_copy_write data :
    describes ("copying to " +:+ unknownPath P) (Write (unknownPath P) data).

(** A failure that the files found at the start explain: the input is
    missing or cannot be read, or an output path is a directory. *)
Definition natural (m0 : gmap string node) (c : call) : Prop :=
  match c with
  | Open p => p = inp ∧ m0 !! p = None
  | Read p => p = inp ∧ ∀ d, m0 !! p ≠ Some (File d)
  | Create p => m0 !! p = Some Dir
  | _ => False
  end.

(** A fatal failure after the world [w0]: calls that went well or whose
    failure is tolerated, the failed call, then only closes; one
    diagnostic on stderr, naming the operation and the cause. *)
Definition Fatal (w0 w' : world) : Prop :=
  ∃ pre c e post what,
    trace w' = trace w0 ++ pre ++ (c, Some e) :: post ∧
    clean pre ∧ Forall is_close post ∧
    describes what c ∧
    stderr w' = stderr w0 +:+ "error: " +:+ what +:+ ": "
                +:+ Error {| err_call := c; err_no := e |} +:+ nl ∧
    (faults w0 (length (trace w0 ++ pre)) = Some e ∨ natural (fs w0) c).

(** The shape of the state between two steps of the loop: the scratch
    file and its writer stand for [cc], the runs [D] are open and the
    writer of run [r] stands for [rc r], nothing else has been touched,
    and no call has failed so far but tolerated ones. *)
Record Shape (w0 : world) (cc : string) (D : gset string)
    (rc : string → string) (a : bool) (r : bufio.Reader)
    (st : locals) (w : world) : Prop := {
  sh_env : same_env w0 w;
  sh_stderr : stderr w = stderr w0;
  sh_trace : ∃ evs, trace w = trace w0 ++ evs ∧ clean evs;
  sh_cw : bufio.wr (commonWriter st) = commonTempPath P;
  sh_common : written (fs w) (commonWriter st) = Some cc;
  sh_dom : dom (runOutputs st) = D;
  sh_runs : ∀ run ro, runOutputs st !! run = Some ro →
    file ro = runPath P run ∧ bufio.wr (writer ro) = runPath P run ∧
    written (fs w) (writer ro) = Some (rc run);
  sh_frame : ∀ p, p ≠ commonTempPath P → (∀ run, run ∈ D → p ≠ runPath P run) →
    fs w !! p = fs w0 !! p;
  sh_any : anyRunFound st = a;
  sh_reader : bufReader st = r
}.

(** The loop invariant, after the lines [ls] of the input [data]: the
    scratch file holds the global lines, the runs seen are open and each
    sink holds what the specification says. *)
Definition Inv (w0 : world) (data : string) (ls : list string)
    (st : locals) (w : world) : Prop :=
  Shape w0 (Str.cat (filter (fun l => is_global l) ls)) (ids ls)
    (fun run => Str.cat (sink_spec run ls))
    (negb (forallb is_global ls)) (bufReader st) st w ∧
  bufio.rd (bufReader st) = inp ∧
  fs w0 !! inp = Some (File data) ∧
  ls ++ lines_of (Str.drop (bufio.off (bufReader st)) data) = lines_of data.

(** What [openRun] leaves when it fails for the run [k] in the world
    [w]: calls that went well, the failed call, then closes. *)
Definition open_failed (w0 : world) (k : string) (w : world) (err : error)
    (w' : world) : Prop :=
  ∃ m evs1 post,
    w' = upd w m (evs1 ++ (err_call err, Some (err_no err)) :: post) ∧
    clean evs1 ∧ Forall is_close post ∧
    describes ("opening run file for " +:+ k) (err_call err) ∧
    (faults w (length (trace w ++ evs1)) = Some (err_no err)
     ∨ natural (fs w0) (err_call err)).

(** How the leaving of the process is judged: status 2 and a fatal
    failure. *)
Definition fatalE (w0 : world) (c : nat) (w' : world) : Prop :=
  c = 2 ∧ Fatal w0 w'.

(** The output files of a run that went through, for the input [data]:
    every run seen has its sink; without any run the fallback file holds
    all the lines and the message is on stderr; no other file but the
    scratch file has changed. *)
Definition Outputs (w0 : world) (data inName : string) (w' : world) : Prop :=
  let ls := lines_of data in
  same_env w0 w' ∧
  (∃ evs, trace w' = trace w0 ++ evs ∧ clean evs) ∧
  (∀ run, run ∈ ids ls →
     fs w' !! runPath P run = Some (File (Str.cat (sink_spec run ls)))) ∧
  if forallb is_global ls then
    stderr w' = stderr w0 +:+ ("No run tokens found in " +:+ inName
                +:+ ". Wrote all lines to " +:+ unknownPath P +:+ nl) ∧
    fs w' !! unknownPath P = Some (File (Str.cat ls)) ∧
    (∀ p, p ≠ commonTempPath P → p ≠ unknownPath P → fs w' !! p = fs w0 !! p)
  else
    stderr w' = stderr w0 ∧
    (∀ p, p ≠ commonTempPath P → (∀ run, run ∈ ids ls → p ≠ runPath P run) →
       fs w' !! p = fs w0 !! p).

(** A successful run: the outputs, and the scratch file is gone unless
    removing it failed by a fault. *)
Definition Success (w0 : world) (data inName : string) (w' : world) : Prop :=
  Outputs w0 data inName w' ∧
  (fs w' !! commonTempPath P = None ∨
   ∃ n e, trace w' !! n = Some (Remove (commonTempPath P), Some e) ∧
          faults w0 n = Some e).

End Spec.

(** The file [main] reads and the name it gives it in its message. *)
Definition input_path (flags : cliFlags) : string :=
  if bool_decide (inputFile flags ≠ EmptyString) then inputFile flags else os_Stdin.

Definition input_name (flags : cliFlags) : string :=
  if bool_decide (inputFile flags ≠ EmptyString)
  then filepath.Base (inputFile flags) else "stdin".


(** The variables of [main] when the loop starts. *)
Definition init_locals (P inp : string) : locals :=
  {| commonWriter := bufio.NewWriter (commonTempPath P);
     runOutputs := ∅;
     anyRunFound := false;
     bufReader := bufio.NewReader inp |}.

(** The states of the single-pass scan: the state in which the loop starts,
    right after the scratch file is created in [w0], and the state after
    each iteration that reads a line and routes it.  [ls] are the lines
    routed so far. *)
Inductive scanning (P inp : string) (w0 : world) :
    list string → locals → world → Prop :=
| scan_start w1 :
    os_Create (commonTempPath P) w0 = (Val None, w1) →
    scanning P inp w0 [] (init_locals P inp) w1
| scan_step ls st w rd' line err w1 st' w' :
    scanning P inp w0 ls st w →
    bufio.ReadString (bufReader st) Str.newline w = (Val (rd', line, err), w1) →
    err = bufio.NoError ∨ (err = bufio.EOF ∧ line ≠ EmptyString) →
    route_line P (terminate_line line) (set_bufReader st rd') w1 = (Val st', w') →
    scanning P inp w0 (ls ++ [terminate_line line]) st' w'.

(** An environment in which no call fails by a fault. *)
Definition fault_free (w : world) : Prop := ∀ n, faults w n = None.

(** No output path is a directory. *)
Definition outputs_clear (P : string) (w : world) : Prop :=
  fs w !! commonTempPath P ≠ Some Dir ∧
  fs w !! unknownPath P ≠ Some Dir ∧
  ∀ run, fs w !! runPath P run ≠ Some Dir.

(** A world with the given files and nothing injected. *)
Definition plain_world (files : list (string * node)) : world :=
  {| fs := list_to_map files; stderr := EmptyString; trace := [];
     faults := fun _ => None; sched := fun _ _ => 0; argv0 := "splitter" |}.

Definition stdin_flags (prefix : string) : cliFlags :=
  {| inputFile := EmptyString; outPrefix := prefix; help := false |}.

Definition file_flags (input prefix : string) : cliFlags :=
  {| inputFile := input; outPrefix := prefix; help := false |}.

(** The fallback file as the verbatim input: what the run of [flags] in [w]
    would have to do for the fallback output to be the input byte for byte. *)
Definition fallback_verbatim (flags : cliFlags) (w : world) : Prop :=
  ∀ data w',
    fs w !! input_path flags = Some (File data) →
    ids (lines_of data) = ∅ →
    run flags w = (Some 0, w') →
    fs w' !! unknownPath (derive_outPrefix flags) = Some (File data).

(** Exit statuses that tell the kinds of error apart: a run that fails to
    open its input and a run that fails to read it leave with different
    statuses. *)
Definition status_per_kind : Prop :=
  ∀ flags1 w1 flags2 w2 c1 c2 w1' w2' p1 p2 e1 e2,
    run flags1 w1 = (Some c1, w1') → last (trace w1') = Some (Open p1, Some e1) →
    run flags2 w2 = (Some c2, w2') → last (trace w2') = Some (Read p2, Some e2) →
    c1 ≠ c2.

(** ** Concrete runs *)

(** Example 3 of the specification, read from standard input. *)
Definition ex3_input : string :=
  "a" +:+ nl +:+ "ptp4l.5.config: b" +:+ nl +:+ "c" +:+ nl.
Definition ex3_world : world := plain_world [(os_Stdin, File ex3_input)].

(** Example 1 of the specification. *)
Definition ex1_input : string :=
  "ptp4l.1.config: hello" +:+ nl +:+ "phc2sys.2.config: world" +:+ nl
  +:+ "global line" +:+ nl.
Definition ex1_world : world := plain_world [(os_Stdin, File ex1_input)].

(** An input of one line without token and without final newline. *)
Definition open_line_world : world := plain_world [(os_Stdin, File "a")].

(** The empty input. *)
Definition empty_world : world := plain_world [(os_Stdin, File EmptyString)].

(** An input path that is a directory, and one that does not exist. *)
Definition dir_input_world : world := plain_world [("logs", Dir)].
Definition no_input_world : world := plain_world [].

(** A line that names two runs. *)
Definition two_run_line : string := "ptp4l.1.config phc2sys.2.config sync" +:+ nl.
Definition two_run_world : world := plain_world [(os_Stdin, File two_run_line)].

(** The value of an outcome, or a default. *)
Definition val_or {A} (d : A) (o : outcome A) : A :=
  match o with
  | Val a => a
  | _ => d
  end.

(** ** The loop, one iteration at a time *)

(** One iteration of the loop of [main] that reads a line and routes it:
    the line routed and the state after it; [None] when the iteration
    ends the loop or the run instead. *)
Definition loop_step (P : string) (st : locals) (w : world)
    : option (string * locals * world) :=
  match bufio.ReadString (bufReader st) Str.newline w with
  | (Val (rd, line, err), w1) =>
      let routed :=
        match route_line P (terminate_line line) (set_bufReader st rd) w1 with
        | (Val st', w') => Some (terminate_line line, st', w')
        | _ => None
        end in
      match err with
      | bufio.NoError => routed
      | bufio.EOF => if String.length line =? 0 then None else routed
      | bufio.ReadError _ => None
      end
  | _ => None
  end.

(** [n] iterations in a row; the lines routed are added to [s.1.1]. *)
Fixpoint loop_steps (P : string) (n : nat) (s : list string * locals * world)
    : option (list string * locals * world) :=
  match n with
  | 0 => Some s
  | S n' =>
      match loop_step P s.1.2 s.2 with
      | Some (l, st', w') => loop_steps P n' (s.1.1 ++ [l], st', w')
      | None => None
      end
  end.

(** A log with a global line, a line of run 1, a line of run 2 and a last
    global line. *)
Definition mixed_input : string :=
  "boot" +:+ nl +:+ "ptp4l.1.config: hello" +:+ nl
  +:+ "phc2sys.2.config: world" +:+ nl +:+ "global line" +:+ nl.
Definition mixed_world : world := plain_world [(os_Stdin, File mixed_input)].

(** The state in which the loop starts on [mixed_world], and the state
    after its four lines. *)
Definition mixed_start : list string * locals * world :=
  ([], init_locals "X" os_Stdin, (os_Create (commonTempPath "X") mixed_world).2).

Definition mixed_state : list string * locals * world :=
  default mixed_start (loop_steps "X" 4 mixed_start).

(** ** The rest of [main]: help, the output prefix, the footprint *)

(** The text [printUsage] writes, for the program name [prog]. *)
Definition usage (prog : string) : string :=
  "PTP Log Splitter" +:+ nl
  +:+ "Usage: " +:+ prog +:+ " [-input file] [-outprefix prefix]" +:+ nl
  +:+ nl
  +:+ "Reads PTP logs and splits them into per-run files based on tokens like 'ptp4l.N.config' or 'phc2sys.N.config'." +:+ nl
  +:+ "Lines without a run token are included in all run files." +:+ nl.

(** Whether the input is a file named by [-input], which [main] opens and
    closes itself, and not the standard input. *)
Definition named (flags : cliFlags) : bool :=
  bool_decide (inputFile flags ≠ EmptyString).

(** The paths [main] creates, writes, renames or removes. *)
Definition output_path (P p : string) : Prop :=
  p = commonTempPath P ∨ p = unknownPath P ∨ ∃ run, p = runPath P run.

(** The system calls [main] makes, for the prefix [P] and the input [inp]. *)
Definition own_call (P inp : string) (opened : bool) (c : call) : Prop :=
  match c with
  | Open p => (opened = true ∧ p = inp) ∨ p = commonTempPath P
  | Read p => p = inp ∨ p = commonTempPath P
  | Create p => output_path P p
  | Write p _ => output_path P p
  | Close p => (opened = true ∧ p = inp) ∨ output_path P p
  | Rename a b => a = commonTempPath P ∧ b = unknownPath P
  | Remove p => p = commonTempPath P
  end.

(** What a part of the run may have done to the world [w]: calls of its
    own, and no change to a path that is no output path. *)
Definition touched (P inp : string) (opened : bool) (w w' : world) : Prop :=
  same_env w w' ∧
  (∃ evs, trace w' = trace w ++ evs ∧
          Forall (fun ev : event => own_call P inp opened ev.1) evs) ∧
  (∀ p, ¬ output_path P p → fs w' !! p = fs w !! p).

Definition is_file (n : option node) : Prop := ∃ d, n = Some (File d).

(** [touched], and the scratch file is still there if it was. *)
Definition kept (P inp : string) (opened : bool) (w w' : world) : Prop :=
  touched P inp opened w w' ∧
  (is_file (fs w !! commonTempPath P) → is_file (fs w' !! commonTempPath P)).

(** [sat m w Q E]: from [w], [m] returns a value and a world in [Q], or it
    stops (by [os.Exit] or for want of fuel) in a world in [E]. *)
Definition sat {A} (m : M A) (w : world) (Q : A → world → Prop)
    (E : world → Prop) : Prop :=
  match m w with
  | (Val a, w') => Q a w'
  | (_, w') => E w'
  end.

(** The handles the variables of [main] hold are those of its own files. *)
Definition own_handles (P inp : string) (st : locals) : Prop :=
  bufio.wr (commonWriter st) = commonTempPath P ∧
  bufio.rd (bufReader st) = inp ∧
  ∀ run ro, runOutputs st !! run = Some ro →
    file ro = runPath P run ∧ bufio.wr (writer ro) = runPath P run.

(** A world that differs in the order of map iteration only. *)
Definition set_sched (w : world) (s : nat → string → nat) : world :=
  {| fs := fs w; stderr := stderr w; trace := trace w; faults := faults w;
     sched := s; argv0 := argv0 w |}.

(** An order that visits the keys with the greater first byte first. *)
Definition other_order (n : nat) (k : string) : nat :=
  match k with
  | EmptyString => 256
  | String c _ => 255 - nat_of_ascii c
  end.

Definition help_flags (input : string) : cliFlags :=
  {| inputFile := input; outPrefix := EmptyString; help := true |}.

(** Flags without [-outprefix]. *)
Definition input_flags (input : string) : cliFlags :=
  {| inputFile := input; outPrefix := EmptyString; help := false |}.

(** * Strings *)

Lemma str_app_nil_l (s : string) : "" +:+ s = s.
Proof. reflexivity. Qed.

Lemma str_app_cons c (a b : string) : String c a +:+ b = String c (a +:+ b).
Proof. reflexivity. Qed.

Lemma str_app_nil_r (s : string) : s +:+ "" = s.
Proof. induction s as [|c s IH]; [done|]. by rewrite ?str_app_cons, IH. Qed.

Lemma str_app_assoc (a b c : string) : (a +:+ b) +:+ c = a +:+ b +:+ c.
Proof. induction a as [|x a IH]; [done|]. by rewrite ?str_app_cons, IH. Qed.

Lemma str_length_app (a b : string) :
  String.length (a +:+ b) = String.length a + String.length b.
Proof. induction a as [|x a IH]; [done|]. rewrite str_app_cons. simpl. by rewrite IH. Qed.

Lemma str_length_zero (s : string) : String.length s = 0 → s = "".
Proof. by destruct s. Qed.

Lemma str_app_inv_tail (a b c : string) : a +:+ c = b +:+ c → a = b.
Proof.
  revert b. induction a as [|x a IH]; intros [|y b] H.
  - done.
  - apply (f_equal String.length) in H. rewrite !str_length_app in H. simpl in H. lia.
  - apply (f_equal String.length) in H. rewrite !str_length_app in H. simpl in H. lia.
  - rewrite !str_app_cons in H. injection H as -> H. f_equal. by apply IH.
Qed.

Lemma str_app_inv_head (a b c : string) : a +:+ b = a +:+ c → b = c.
Proof. apply (inj (String.app a)). Qed.

Lemma str_take_drop n (s : string) : Str.take n s +:+ Str.drop n s = s.
Proof.
  revert s. induction n as [|n IH]; intros [|c s]; simpl; try done.
  by rewrite ?str_app_cons, IH.
Qed.

Lemma str_length_drop n (s : string) :
  String.length (Str.drop n s) = String.length s - n.
Proof. revert s. induction n as [|n IH]; intros [|c s]; simpl; auto. Qed.

Lemma str_length_take n (s : string) :
  String.length (Str.take n s) = Nat.min n (String.length s).
Proof. revert s. induction n as [|n IH]; intros [|c s]; simpl; auto. Qed.

Lemma str_drop_drop a b (s : string) : Str.drop b (Str.drop a s) = Str.drop (a + b) s.
Proof.
  revert s. induction a as [|a IH]; intros s; simpl; [done|].
  destruct s as [|c s]; [by destruct b|]. apply IH.
Qed.

Lemma str_take_app_length (t s : string) : Str.take (String.length t) (t +:+ s) = t.
Proof.
  induction t as [|c t IH]; simpl; [by destruct s|].
  by rewrite ?str_app_cons, IH.
Qed.

Lemma str_drop_app_length (t s : string) : Str.drop (String.length t) (t +:+ s) = s.
Proof. induction t as [|c t IH]; simpl; [by destruct s|]. by rewrite ?str_app_cons. Qed.

Lemma str_take_diff (t s : string) :
  Str.take (String.length (t +:+ s) - String.length s) (t +:+ s) = t.
Proof.
  rewrite str_length_app.
  replace (String.length t + String.length s - String.length s)
    with (String.length t) by lia.
  apply str_take_app_length.
Qed.

Lemma str_drop_all n (s : string) : String.length s ≤ n → Str.drop n s = "".
Proof.
  revert s. induction n as [|n IH]; intros [|c s] H; simpl in *; try done; try lia.
  apply IH. lia.
Qed.

Lemma str_last_byte_app (a b : string) :
  b ≠ "" → Str.last_byte (a +:+ b) = Str.last_byte b.
Proof.
  intros Hb. induction a as [|c a IH]; [done|].
  rewrite str_app_cons. simpl. rewrite IH.
  destruct (a +:+ b) eqn:E; [|done].
  destruct a; [|done]. by rewrite str_app_nil_l in E.
Qed.

Lemma str_last_byte_snoc (a : string) c :
  Str.last_byte (a +:+ String c "") = Some c.
Proof. by rewrite str_last_byte_app. Qed.

Lemma str_cat_app (l1 l2 : list string) :
  Str.cat (l1 ++ l2) = Str.cat l1 +:+ Str.cat l2.
Proof. induction l1 as [|a l1 IH]; simpl; [done|]. by rewrite IH, str_app_assoc. Qed.

Lemma str_cat_singleton (l : string) : Str.cat [l] = l.
Proof. simpl. apply str_app_nil_r. Qed.

Lemma str_last_byte_None (s : string) : Str.last_byte s = None → s = "".
Proof.
  induction s as [|c s IH]; [done|]. simpl. destruct s; [done|].
  intros H. by specialize (IH H).
Qed.

Lemma str_last_byte_cons c (s : string) prev :
  match Str.last_byte (String c s) with Some x => Some x | None => prev end
  = match Str.last_byte s with Some x => Some x | None => Some c end.
Proof.
  destruct s as [|a s]; [done|].
  change (Str.last_byte (String c (String a s))) with (Str.last_byte (String a s)).
  destruct (Str.last_byte (String a s)) eqn:E; [done|].
  by apply str_last_byte_None in E.
Qed.

(** * The matcher and declarative matching *)

Lemma re_matches_suffix r prev s p' s' c :
  re_matches r prev s p' s' c → ∃ t, s = t +:+ s'.
Proof.
  induction 1 as [| |c lit prev s p' s' _ [t ->]| |cls c prev s p' s' _ _ [t ->]
                  |r1 r2 prev s p1 s1 c1 p2 s2 c2 _ [t1 ->] _ [t2 ->]|].
  - by exists "".
  - by exists "".
  - by exists (String c t).
  - by exists (String c "").
  - by exists (String c t).
  - exists (t1 +:+ t2). by rewrite str_app_assoc.
  - done.
Qed.

Lemma exec_lit_sound {R} lit (k : Regexp.cont R) prev s caps res :
  Regexp.exec_lit lit k prev s caps = Some res →
  ∃ p' s', re_matches (Regexp.Lit lit) prev s p' s' [] ∧ k p' s' caps = Some res.
Proof.
  revert prev s. induction lit as [|c lit IH]; intros prev s H; simpl in H.
  - exists prev, s. split; [constructor|done].
  - destruct s as [|c' s]; [done|]. case_bool_decide; [subst c'|done].
    destruct (IH _ _ H) as (p' & s' & Hm & Hk).
    exists p', s'. split; [by constructor|done].
Qed.

Lemma exec_plus_sound {R} cls (k : Regexp.cont R) prev s caps res :
  Regexp.exec_plus cls k prev s caps = Some res →
  ∃ p' s', re_matches (Regexp.Plus cls) prev s p' s' [] ∧ k p' s' caps = Some res.
Proof.
  revert prev. induction s as [|c s IH]; intros prev H; simpl in H; [done|].
  destruct (Regexp.in_class cls c) eqn:Hc; [|done].
  destruct (Regexp.exec_plus cls k (Some c) s caps) eqn:Hrec.
  - injection H as ->. destruct (IH _ Hrec) as (p' & s' & Hm & Hk).
    exists p', s'. split; [by apply rm_plus_more|done].
  - exists (Some c), s. split; [by apply rm_plus_one|done].
Qed.

Lemma exec_sound r : ∀ {R} (k : Regexp.cont R) prev s caps res,
  Regexp.exec r k prev s caps = Some res →
  ∃ p' s' c, re_matches r prev s p' s' c ∧ k p' s' (caps ++ c) = Some res.
Proof.
  induction r as [|lit|cls|r1 IH1 r2 IH2|r IH]; intros R k prev s caps res H; simpl in H.
  - destruct (xorb _ _) eqn:Hb; [|done].
    exists prev, s, []. rewrite app_nil_r. split; [by constructor|done].
  - destruct (exec_lit_sound _ _ _ _ _ _ H) as (p' & s' & Hm & Hk).
    exists p', s', []. by rewrite app_nil_r.
  - destruct (exec_plus_sound _ _ _ _ _ _ H) as (p' & s' & Hm & Hk).
    exists p', s', []. by rewrite app_nil_r.
  - destruct (IH1 _ _ _ _ _ _ H) as (p1 & s1 & c1 & Hm1 & H1).
    destruct (IH2 _ _ _ _ _ _ H1) as (p2 & s2 & c2 & Hm2 & H2).
    exists p2, s2, (c1 ++ c2). split; [by econstructor|].
    by rewrite List.app_assoc.
  - destruct (IH _ _ _ _ _ _ H) as (p' & s' & c & Hm & Hk).
    exists p', s', (c ++ [Str.take (String.length s - String.length s') s]).
    split; [by constructor|]. by rewrite List.app_assoc.
Qed.

Lemma exec_complete r prev s p' s' c :
  re_matches r prev s p' s' c →
  ∀ {R} (k : Regexp.cont R) caps,
    is_Some (k p' s' (caps ++ c)) → is_Some (Regexp.exec r k prev s caps).
Proof.
  induction 1 as [prev s Hb|prev s|c lit prev s p' s' _ IH|cls c prev s Hc
                  |cls c prev s p' s' Hc _ IH
                  |r1 r2 prev s p1 s1 c1 p2 s2 c2 _ IH1 _ IH2
                  |r prev s p' s' c _ IH]; intros R k caps Hk.
  - simpl. rewrite Hb. by rewrite app_nil_r in Hk.
  - simpl. by rewrite app_nil_r in Hk.
  - simpl. rewrite bool_decide_eq_true_2 by done. apply (IH R k caps Hk).
  - simpl. rewrite Hc. rewrite app_nil_r in Hk.
    destruct (Regexp.exec_plus cls k (Some c) s caps); [by eexists|done].
  - simpl. rewrite Hc. specialize (IH R k caps Hk). simpl in IH.
    destruct IH as [res ->]. by eexists.
  - simpl. apply IH1. apply IH2. by rewrite <- List.app_assoc.
  - simpl. apply (IH R). by rewrite <- List.app_assoc.
Qed.

Lemma match_at_sound r prev s caps n :
  Regexp.match_at r prev s = Some (caps, n) →
  ∃ p' s', re_matches r prev s p' s' caps ∧ n = String.length s - String.length s'.
Proof.
  intros H. apply exec_sound in H as (p' & s' & c & Hm & Hk).
  simpl in Hk. injection Hk as <- <-. eauto.
Qed.

Lemma match_at_complete r prev s p' s' c :
  re_matches r prev s p' s' c → is_Some (Regexp.match_at r prev s).
Proof. intros H. eapply exec_complete; [done|]. by eexists. Qed.

(** * The token pattern read declaratively *)

Lemma plus_inv cls prev s p' s' c :
  re_matches (Regexp.Plus cls) prev s p' s' c →
  ∃ t, s = t +:+ s' ∧ t ≠ "" ∧ all_bytes (Regexp.in_class cls) t = true ∧
       p' = Str.last_byte t ∧ c = [].
Proof.
  intros H. remember (Regexp.Plus cls) as r eqn:Hr.
  induction H as [| | |cls' x prev s Hc|cls' x prev s p' s' Hc H IH| |]; try done.
  - injection Hr as ->. exists (String x ""). simpl. by rewrite Hc.
  - injection Hr as ->. destruct (IH eq_refl) as (t & -> & Ht & Hall & -> & _).
    exists (String x t). split_and!; try done.
    + simpl. by rewrite Hc, Hall.
    + by destruct t.
Qed.

Lemma plus_intro cls prev t s :
  t ≠ "" → all_bytes (Regexp.in_class cls) t = true →
  re_matches (Regexp.Plus cls) prev (t +:+ s) (Str.last_byte t) s [].
Proof.
  revert prev. induction t as [|x t IH]; intros prev Ht Hall; [done|].
  simpl in Hall. apply andb_true_iff in Hall as [Hx Hall].
  destruct t as [|y t].
  - by apply rm_plus_one.
  - apply rm_plus_more; [done|]. by apply IH.
Qed.

Lemma lit_inv lit prev s p' s' c :
  re_matches (Regexp.Lit lit) prev s p' s' c →
  s = lit +:+ s' ∧ c = [] ∧
  p' = match Str.last_byte lit with Some x => Some x | None => prev end.
Proof.
  intros H. remember (Regexp.Lit lit) as r eqn:Hr. revert lit Hr.
  induction H as [|prev s|x lit' prev s p' s' H IH| | | |]; intros lit Hr; try done.
  - by injection Hr as <-.
  - injection Hr as <-. destruct (IH _ eq_refl) as (-> & _ & ->).
    split; [done|]. split; [done|]. by rewrite str_last_byte_cons.
Qed.

Lemma lit_intro lit prev s :
  re_matches (Regexp.Lit lit) prev (lit +:+ s)
    (match Str.last_byte lit with Some x => Some x | None => prev end) s [].
Proof.
  revert prev. induction lit as [|x lit IH]; intros prev; [constructor|].
  rewrite str_app_cons, str_last_byte_cons. constructor. apply IH.
Qed.

Lemma pattern_sound prev s p' s' c :
  re_matches runTokenPattern prev s p' s' c →
  ∃ ident digits, token_at prev s ident digits s' ∧ c = [digits] ∧
                  p' = Some "g"%char.
Proof.
  unfold runTokenPattern. intros H.
  inversion H as [| | | | |? ? ? ? ? ? ? ? ? ? Hb H1| ]; subst; clear H.
  inversion Hb; subst; clear Hb.
  inversion H1 as [| | | | |? ? ? ? ? ? ? ? ? ? Hi H2| ]; subst; clear H1.
  inversion H2 as [| | | | |? ? ? ? ? ? ? ? ? ? Hd H3| ]; subst; clear H2.
  inversion H3 as [| | | | |? ? ? ? ? ? ? ? ? ? Hc H4| ]; subst; clear H3.
  inversion H4 as [| | | | |? ? ? ? ? ? ? ? ? ? Hl Hb2| ]; subst; clear H4.
  inversion Hb2; subst; clear Hb2.
  inversion Hc as [| | | | | |? ? ? ? ? ? Hg]; subst; clear Hc.
  apply plus_inv in Hi as (ident & -> & Hi1 & Hi2 & -> & ->).
  apply lit_inv in Hd as (-> & -> & ->).
  apply plus_inv in Hg as (digits & -> & Hg1 & Hg2 & -> & ->).
  apply lit_inv in Hl as (-> & -> & ->).
  exists ident, digits. split; [|split].
  - repeat split; try done.
  - simpl. f_equal. apply str_take_diff.
  - done.
Qed.

Lemma pattern_complete prev s ident digits rest :
  token_at prev s ident digits rest →
  re_matches runTokenPattern prev s (Some "g"%char) rest [digits].
Proof.
  intros (-> & Hi1 & Hi2 & Hd1 & Hd2 & Hb1 & Hb2).
  unfold runTokenPattern.
  pose proof (rm_capture _ _ _ _ _ _
    (plus_intro [("0", "9")]%char (Some "."%char) digits (".config" +:+ rest) Hd1 Hd2))
    as Hcap.
  rewrite str_take_diff in Hcap.
  change [digits] with ([] ++ [] ++ [] ++ ([] ++ [digits]) ++ [] ++ []).
  econstructor; [by constructor|].
  econstructor; [by apply plus_intro|].
  econstructor; [apply (lit_intro ".")|].
  econstructor; [exact Hcap|].
  econstructor; [apply (lit_intro ".config")|]. simpl. by constructor.
Qed.

Lemma span_unique (f : ascii → bool) c (t1 t2 r1 r2 : string) :
  all_bytes f t1 = true → all_bytes f t2 = true → f c = false →
  t1 +:+ String c r1 = t2 +:+ String c r2 → t1 = t2 ∧ r1 = r2.
Proof.
  intros H1 H2 Hc. revert t2 H2.
  induction t1 as [|x t1 IH]; intros [|y t2] H2 H; simpl in *.
  - by injection H.
  - rewrite str_app_nil_l, str_app_cons in H. injection H as <- _.
    rewrite Hc in H2. done.
  - rewrite str_app_nil_l, str_app_cons in H. injection H as -> _.
    rewrite Hc in H1. done.
  - rewrite !str_app_cons in H. injection H as -> H.
    apply andb_true_iff in H1 as [_ H1]. apply andb_true_iff in H2 as [_ H2].
    destruct (IH H1 _ H2 H) as [-> ->]. done.
Qed.

Lemma token_at_unique prev s i1 d1 r1 i2 d2 r2 :
  token_at prev s i1 d1 r1 → token_at prev s i2 d2 r2 →
  i1 = i2 ∧ d1 = d2 ∧ r1 = r2.
Proof.
  intros (-> & _ & Hi1 & _ & Hd1 & _) (E & _ & Hi2 & _ & Hd2 & _).
  apply (span_unique is_ident_char) in E as [-> E]; [|done..].
  apply (span_unique is_digit) in E as [-> E]; [|done..].
  by injection E as ->.
Qed.

Lemma token_at_nonempty prev ident digits rest :
  ¬ token_at prev "" ident digits rest.
Proof. intros (E & Hi & _). destruct ident; [done|]. by rewrite str_app_cons in E. Qed.

Lemma token_text_app ident digits rest :
  ident +:+ "." +:+ digits +:+ ".config" +:+ rest = token_text ident digits +:+ rest.
Proof.
  unfold token_text. rewrite !str_app_assoc. f_equal.
Qed.

Lemma token_text_last ident digits :
  Str.last_byte (token_text ident digits) = Some "g"%char.
Proof.
  unfold token_text. rewrite <- !str_app_assoc.
  by rewrite str_last_byte_app.
Qed.

Lemma match_at_token prev s ident digits rest :
  token_at prev s ident digits rest →
  Regexp.match_at runTokenPattern prev s
  = Some ([digits], String.length (token_text ident digits)).
Proof.
  intros Ht. pose proof (pattern_complete _ _ _ _ _ Ht) as Hm.
  destruct (match_at_complete _ _ _ _ _ _ Hm) as [[caps n] E]. rewrite E.
  apply match_at_sound in E as (p' & s' & Hm' & ->).
  apply pattern_sound in Hm' as (i' & d' & Ht' & -> & _).
  destruct (token_at_unique _ _ _ _ _ _ _ _ Ht Ht') as (<- & <- & <-).
  destruct Ht as (-> & _). rewrite token_text_app, str_length_app.
  do 3 f_equal. lia.
Qed.

Lemma match_at_inv prev s caps n :
  Regexp.match_at runTokenPattern prev s = Some (caps, n) →
  ∃ ident digits rest, token_at prev s ident digits rest ∧ caps = [digits] ∧
    n = String.length (token_text ident digits).
Proof.
  intros E. apply match_at_sound in E as (p' & s' & Hm & ->).
  apply pattern_sound in Hm as (i & d & Ht & -> & _).
  exists i, d, s'. split; [done|]. split; [done|].
  destruct Ht as (-> & _). rewrite token_text_app, str_length_app. lia.
Qed.

Lemma match_at_None prev s :
  Regexp.match_at runTokenPattern prev s = None →
  ∀ ident digits rest, ¬ token_at prev s ident digits rest.
Proof. intros E i d r Ht. by rewrite (match_at_token _ _ _ _ _ Ht) in E. Qed.

(** * [FindAllStringSubmatch] finds the leftmost tokens *)

Lemma find_from_skip r (t : string) : ∀ fresh prev rest,
  t ≠ "" →
  Regexp.find_from r (String.length t) fresh prev (t +:+ rest)
  = Regexp.find_from r 0 false (Str.last_byte t) rest.
Proof.
  induction t as [|c t IH]; intros fresh prev rest Ht; [done|].
  rewrite str_app_cons. simpl String.length.
  destruct t as [|c' t].
  - simpl. by rewrite str_app_nil_l.
  - change (Str.last_byte (String c (String c' t)))
      with (Str.last_byte (String c' t)).
    rewrite <- (IH true (Some c) rest) by done.
    simpl. done.
Qed.

Lemma find_from_tokens n : ∀ s prev fresh,
  String.length s ≤ n →
  ∃ ms, tokens_from prev s ms ∧
        Regexp.find_from runTokenPattern 0 fresh prev s = as_match <$> ms.
Proof.
  induction n as [|n IH]; intros s prev fresh Hn.
  - destruct s; [|simpl in Hn; lia]. exists []. split; [constructor|].
    simpl. destruct (Regexp.match_at runTokenPattern prev "") as [[caps k]|] eqn:E; [|done].
    apply match_at_inv in E as (i & d & r & Ht & _). by apply token_at_nonempty in Ht.
  - destruct s as [|c s].
    { exists []. split; [constructor|].
      simpl. destruct (Regexp.match_at runTokenPattern prev "") as [[caps k]|] eqn:E; [|done].
      apply match_at_inv in E as (i & d & r & Ht & _). by apply token_at_nonempty in Ht. }
    simpl in Hn.
    destruct (Regexp.match_at runTokenPattern prev (String c s)) as [[caps k]|] eqn:E.
    + pose proof E as E'.
      apply match_at_inv in E' as (i & d & r & Ht & -> & ->).
      pose proof Ht as (Hs & Hi & _).
      rewrite token_text_app in Hs.
      assert (Htext : token_text i d ≠ "").
      { unfold token_text. destruct i; [done|]. by rewrite str_app_cons. }
      destruct (token_text i d) as [|c0 text] eqn:Etext; [done|].
      rewrite str_app_cons in Hs. injection Hs as <- Hs.
      destruct (IH r (Some "g"%char) false) as (ms & Hms & Hfind).
      { subst s. rewrite str_length_app in Hn. lia. }
      exists ((token_text i d, d) :: ms). split; [by apply (tf_hit _ _ i d r)|].
      cbn [Regexp.find_from]. rewrite E. cbn [String.length].
      rewrite fmap_cons. f_equal.
      * unfold as_match. simpl. subst s. f_equal.
        rewrite str_take_app_length. by rewrite <- Etext.
      * rewrite <- Hfind. subst s. destruct text as [|c1 text].
        -- simpl. rewrite str_app_nil_l.
           pose proof (token_text_last i d) as Hl. rewrite Etext in Hl.
           simpl in Hl. by injection Hl as ->.
        -- rewrite bool_decide_eq_true_2 by (simpl; lia).
           rewrite (find_from_skip _ (String c1 text)) by done.
           pose proof (token_text_last i d) as Hl. rewrite Etext in Hl.
           change (Str.last_byte (String c (String c1 text)))
             with (Str.last_byte (String c1 text)) in Hl.
           by rewrite Hl.
    + destruct (IH s (Some c) false) as (ms & Hms & Hfind); [lia|].
      exists ms. split.
      * apply tf_skip; [|done]. by apply match_at_None.
      * cbn [Regexp.find_from]. rewrite E. done.
Qed.

Lemma tokens_from_unique prev s ms1 :
  tokens_from prev s ms1 → ∀ ms2, tokens_from prev s ms2 → ms1 = ms2.
Proof.
  induction 1 as [prev|prev c s ms Hno _ IH|prev s i d r ms Ht _ IH];
    intros ms2 H2.
  - inversion H2 as [| |? ? i d r ms' Ht']; subst; [done|].
    by apply token_at_nonempty in Ht'.
  - inversion H2 as [|? ? ? ms' _ H'|? ? i d r ms' Ht']; subst.
    + by apply IH.
    + by apply Hno in Ht'.
  - inversion H2 as [|? ? ? ms' Hno _|? ? i' d' r' ms' Ht' H']; subst.
    + by apply token_at_nonempty in Ht.
    + by apply Hno in Ht.
    + destruct (token_at_unique _ _ _ _ _ _ _ _ Ht Ht') as (<- & <- & <-).
      f_equal. by apply IH.
Qed.

Lemma matches_of_tokens line :
  ∃ ms, tokens_from None line ms ∧ matches_of line = as_match <$> ms.
Proof. apply (find_from_tokens (String.length line)). done. Qed.

Lemma foldl_add_match (ms : list (string * string)) (acc : gset string) :
  foldl add_match acc (as_match <$> ms) = list_to_set (ms.*2) ∪ acc.
Proof.
  revert acc. induction ms as [|[t d] ms IH]; intros acc; simpl.
  - set_solver.
  - rewrite IH. unfold add_match. simpl. set_solver.
Qed.

Lemma runsOnLine_as_match (ms : list (string * string)) :
  runsOnLine (as_match <$> ms) = list_to_set (ms.*2).
Proof.
  unfold runsOnLine. rewrite foldl_add_match. set_solver.
Qed.

Lemma scan_tokens line ms :
  tokens_from None line ms → scan line = list_to_set (ms.*2).
Proof.
  intros H. destruct (matches_of_tokens line) as (ms' & H' & E).
  rewrite (tokens_from_unique _ _ _ H _ H').
  unfold scan. rewrite E. apply runsOnLine_as_match.
Qed.

Lemma is_global_tokens line ms :
  tokens_from None line ms → is_global line = bool_decide (ms = []).
Proof.
  intros H. destruct (matches_of_tokens line) as (ms' & H' & E).
  rewrite (tokens_from_unique _ _ _ H _ H').
  unfold is_global. rewrite E, length_fmap. by destruct ms'.
Qed.

Lemma is_global_scan line : is_global line = true ↔ scan line = ∅.
Proof.
  destruct (matches_of_tokens line) as (ms & H & _).
  rewrite (is_global_tokens _ _ H), (scan_tokens _ _ H).
  destruct ms as [|[t d] ms]; simpl.
  - done.
  - split; [done|]. set_solver.
Qed.

Lemma is_global_false_scan line : is_global line = false ↔ scan line ≠ ∅.
Proof.
  rewrite <- is_global_scan. by destruct (is_global line).
Qed.

Lemma tokens_from_digits prev s ms :
  tokens_from prev s ms →
  Forall (fun m => m.2 ≠ "" ∧ all_bytes is_digit m.2 = true) ms.
Proof.
  induction 1 as [| |prev s i d r ms Ht _ IH]; [constructor|done|].
  constructor; [|done]. destruct Ht as (_ & _ & _ & Hd1 & Hd2 & _). done.
Qed.

Lemma scan_digits line run :
  run ∈ scan line → run ≠ "" ∧ all_bytes is_digit run = true.
Proof.
  destruct (matches_of_tokens line) as (ms & H & _).
  rewrite (scan_tokens _ _ H). intros Hin.
  apply elem_of_list_to_set, list_elem_of_fmap in Hin as ([t d] & -> & Hin).
  pose proof (tokens_from_digits _ _ _ H) as Hall.
  rewrite Forall_forall in Hall. by apply (Hall (t, d)).
Qed.

(** * Lines *)

Lemma cut_Some c s l r :
  bufio.cut c s = Some (l, r) → s = l +:+ r ∧ Str.last_byte l = Some c ∧ l ≠ "".
Proof.
  revert l r. induction s as [|x s IH]; intros l r H; simpl in H; [done|].
  case_bool_decide.
  - injection H as <- <-. subst x. done.
  - destruct (bufio.cut c s) as [[l' r']|]; [|done]. injection H as <- <-.
    destruct (IH _ _ eq_refl) as (-> & Hl & Hne).
    split; [done|]. split; [|done]. simpl. by destruct l'.
Qed.

Lemma split_lines_cut_Some s l r :
  bufio.cut Str.newline s = Some (l, r) → split_lines s = l :: split_lines r.
Proof.
  revert l r. induction s as [|x s IH]; intros l r H; simpl in *; [done|].
  case_bool_decide.
  - by injection H as <- <-.
  - destruct (bufio.cut Str.newline s) as [[l' r']|]; [|done]. injection H as <- <-.
    by rewrite (IH _ _ eq_refl).
Qed.

Lemma split_lines_cut_None s :
  bufio.cut Str.newline s = None → s ≠ "" → split_lines s = [s].
Proof.
  induction s as [|x s IH]; intros H Hne; simpl in *; [done|].
  case_bool_decide; [done|].
  destruct (bufio.cut Str.newline s) as [[l' r']|]; [done|].
  destruct s as [|y s]; [done|]. by rewrite IH.
Qed.

Lemma cat_split_lines s : Str.cat (split_lines s) = s.
Proof.
  induction s as [|x s IH]; simpl; [done|].
  case_bool_decide.
  - simpl. by rewrite IH.
  - destruct (split_lines s) as [|l ls]; simpl in *.
    + by rewrite <- IH.
    + rewrite <- IH. by rewrite str_app_cons.
Qed.

Lemma terminate_line_id l : Str.last_byte l = Some Str.newline → terminate_line l = l.
Proof.
  intros H. unfold terminate_line. rewrite H.
  rewrite bool_decide_eq_true_2 by done. by destruct l.
Qed.

Lemma terminate_line_newline l : Str.last_byte (terminate_line l) = Some Str.newline.
Proof.
  unfold terminate_line.
  destruct (_ || _) eqn:E.
  - apply str_last_byte_snoc.
  - apply orb_false_iff in E as [_ E]. apply negb_false_iff in E.
    by apply bool_decide_eq_true in E.
Qed.

Lemma lines_of_nil : lines_of "" = [].
Proof. done. Qed.

Lemma lines_of_cut_Some s l r :
  bufio.cut Str.newline s = Some (l, r) → lines_of s = terminate_line l :: lines_of r.
Proof. intros H. unfold lines_of. by rewrite (split_lines_cut_Some _ _ _ H). Qed.

Lemma lines_of_cut_None s :
  bufio.cut Str.newline s = None → s ≠ "" → lines_of s = [terminate_line s].
Proof. intros H Hne. unfold lines_of. by rewrite split_lines_cut_None. Qed.

Lemma lines_of_newline s : Forall ends_with_newline (lines_of s).
Proof.
  unfold lines_of. apply Forall_fmap, Forall_forall. intros l _.
  apply terminate_line_newline.
Qed.

(** Every line of the input but the last ends with a newline already. *)
Lemma split_lines_init s ls l :
  split_lines s = ls ++ [l] → Forall ends_with_newline ls.
Proof.
  revert ls l. induction s as [|x s IH]; intros ls l H; simpl in H.
  - by destruct ls.
  - case_bool_decide.
    + destruct ls as [|l0 ls]; [constructor|]. injection H as <- H.
      constructor; [by subst x|]. by eapply IH.
    + destruct (split_lines s) as [|l1 ls1] eqn:E.
      * destruct ls as [|l0 [|? ?]]; [constructor|done..].
      * destruct ls as [|l0 ls]; [constructor|]. injection H as <- H.
        specialize (IH (l1 :: ls) l). rewrite H in IH.
        specialize (IH eq_refl). inversion IH as [|? ? Hl1 Hls]; subst.
        constructor; [|done]. unfold ends_with_newline in *. simpl.
        destruct l1; [done|]. done.
Qed.

(** The text the lines add up to: the input, with a newline added when a
    last line lacks one. *)
Lemma cat_lines_of s :
  Str.cat (lines_of s) =
  if bool_decide (s = "" ∨ Str.last_byte s = Some Str.newline) then s else s +:+ nl.
Proof.
  unfold lines_of. pose proof (cat_split_lines s) as Hcat.
  destruct (split_lines s) as [|l0 ls0] eqn:E using rev_ind.
  - simpl in Hcat. subst s. done.
  - clear IHls0. pose proof (split_lines_init _ _ _ E) as Hinit.
    rewrite fmap_app, str_cat_app. simpl. rewrite str_app_nil_r.
    assert (Hmap : terminate_line <$> ls0 = ls0).
    { clear -Hinit. induction Hinit as [|l ls Hl _ IH]; [done|].
      rewrite fmap_cons, IH. f_equal. by apply terminate_line_id. }
    rewrite Hmap. rewrite str_cat_app in Hcat. simpl in Hcat.
    rewrite str_app_nil_r in Hcat.
    assert (Hl0 : l0 ≠ "").
    { clear -E. revert ls0 l0 E. induction s as [|x s IH]; intros ls l E; simpl in E.
      - by destruct ls.
      - case_bool_decide.
        + destruct ls as [|l1 ls]; [by injection E as <-|].
          injection E as _ E. by eapply IH.
        + destruct (split_lines s) as [|l1 ls1] eqn:E1.
          * destruct ls as [|? [|? ?]]; [by injection E as <-|done..].
          * destruct ls as [|l2 ls]; [by injection E as <-|].
            injection E as _ E. by eapply (IH (l1 :: ls) l); rewrite E. }
    assert (Hlast : Str.last_byte s = Str.last_byte l0).
    { rewrite <- Hcat. by apply str_last_byte_app. }
    assert (Hs : s ≠ "").
    { intros ->. apply (f_equal String.length) in Hcat.
      rewrite str_length_app in Hcat. destruct l0; [done|]. simpl in Hcat. lia. }
    unfold terminate_line.
    assert (Hlen : (String.length l0 =? 0) = false) by by destruct l0.
    rewrite Hlen. simpl orb.
    destruct (decide (Str.last_byte l0 = Some Str.newline)) as [Hd|Hd].
    + rewrite (bool_decide_eq_true_2 _ Hd). simpl negb. cbv iota.
      rewrite bool_decide_eq_true_2 by (right; congruence). done.
    + rewrite (bool_decide_eq_false_2 _ Hd). simpl negb. cbv iota.
      rewrite bool_decide_eq_false_2.
      * by rewrite <- str_app_assoc, Hcat.
      * intros [?|?]; [done|]. apply Hd. congruence.
Qed.

(** * Run identifiers seen so far and the sink of a run *)

Lemma ids_nil : ids [] = ∅.
Proof. done. Qed.

Lemma ids_snoc ls l : ids (ls ++ [l]) = ids ls ∪ scan l.
Proof.
  unfold ids. rewrite fmap_app, union_list_app_L. simpl. set_solver.
Qed.

Lemma elem_of_ids run ls : run ∈ ids ls ↔ ∃ l, l ∈ ls ∧ run ∈ scan l.
Proof.
  unfold ids. rewrite elem_of_union_list. split.
  - intros (X & HX & Hr). apply list_elem_of_fmap in HX as (l & -> & Hl). eauto.
  - intros (l & Hl & Hr). exists (scan l). split; [|done].
    apply list_elem_of_fmap. eauto.
Qed.

Lemma ids_empty_global ls : ids ls = ∅ ↔ forallb is_global ls = true.
Proof.
  induction ls as [|l ls IH]; simpl; [done|].
  unfold ids in *. rewrite fmap_cons, union_list_cons, andb_true_iff.
  rewrite <- IH, is_global_scan. set_solver.
Qed.

Lemma filter_global_all ls :
  forallb is_global ls = true → filter (fun l => is_global l) ls = ls.
Proof.
  induction ls as [|l ls IH]; simpl; [done|].
  intros [Hl Hls]%andb_true_iff. rewrite filter_cons_True by by rewrite Hl.
  by rewrite IH.
Qed.

Lemma sink_find_None run ls :
  run ∉ ids ls → list_find (fun l => run ∈ scan l) ls = None.
Proof.
  intros H. apply list_find_None, Forall_forall. intros l Hl Hr.
  apply H, elem_of_ids. eauto.
Qed.

Lemma sink_find_Some run ls :
  run ∈ ids ls → ∃ i l, list_find (fun l => run ∈ scan l) ls = Some (i, l) ∧ i < length ls.
Proof.
  intros (l & Hl & Hr)%elem_of_ids.
  destruct (list_find_elem_of (fun l => run ∈ scan l) ls l Hl Hr) as [[i x] E].
  exists i, x. split; [done|].
  apply list_find_Some in E as (Hi & _). by eapply lookup_lt_Some.
Qed.

Lemma sink_spec_snoc_seen run ls l :
  run ∈ ids ls →
  sink_spec run (ls ++ [l]) =
  sink_spec run ls ++ (if decide (is_global l ∨ run ∈ scan l) then [l] else []).
Proof.
  intros H. destruct (sink_find_Some _ _ H) as (i & x & E & Hi).
  unfold sink_spec. rewrite (list_find_app_l _ _ _ _ _ E), E.
  rewrite take_app_le by lia. rewrite drop_app_le by lia.
  rewrite filter_app, <- (assoc_L (++)). by f_equal.
Qed.

Lemma sink_spec_snoc_new run ls l :
  run ∉ ids ls → run ∈ scan l →
  sink_spec run (ls ++ [l]) = filter (fun l => is_global l) ls ++ [l].
Proof.
  intros H Hr. pose proof (sink_find_None _ _ H) as E.
  unfold sink_spec. rewrite (list_find_app_r _ _ _ E). simpl.
  rewrite decide_True by done. simpl.
  rewrite take_app_length, drop_app_length.
  f_equal. rewrite filter_cons_True by auto. done.
Qed.

Lemma filter_global_snoc ls l :
  filter (fun l => is_global l) (ls ++ [l]) =
  filter (fun l => is_global l) ls ++ (if is_global l then [l] else []).
Proof.
  rewrite filter_app. f_equal. rewrite filter_cons, filter_nil.
  by destruct (is_global l).
Qed.

Lemma forallb_snoc {A} (f : A → bool) ls l :
  forallb f (ls ++ [l]) = forallb f ls && f l.
Proof. rewrite forallb_app. simpl. by rewrite andb_true_r. Qed.

Lemma sink_spec_sub run ls l :
  l ∈ sink_spec run ls → l ∈ ls ∧ (is_global l = true ∨ run ∈ scan l).
Proof.
  unfold sink_spec. destruct (list_find _ ls) as [[i x]|]; [|by intros ?%elem_of_nil].
  rewrite elem_of_app, !list_elem_of_filter. intros [[Hg Hl]|[Hg Hl]].
  - split; [by eapply subseteq_take|]. left. by apply Is_true_true.
  - split; [by eapply subseteq_drop|]. destruct Hg as [Hg|Hg]; [left|by right].
    by apply Is_true_true.
Qed.

(** * Output paths *)

Lemma runPath_inj P a b : runPath P a = runPath P b → a = b.
Proof.
  unfold runPath. intros H. apply str_app_inv_head in H.
  apply str_app_inv_head in H. by apply str_app_inv_tail in H.
Qed.

Lemma runPath_common P run : runPath P run ≠ commonTempPath P.
Proof.
  unfold runPath, commonTempPath. intros H. apply str_app_inv_head in H.
  discriminate H.
Qed.

Lemma unknown_common P : unknownPath P ≠ commonTempPath P.
Proof.
  unfold unknownPath, commonTempPath. intros H. apply str_app_inv_head in H.
  discriminate H.
Qed.

Lemma runPath_unknown P run :
  all_bytes is_digit run = true → runPath P run ≠ unknownPath P.
Proof.
  unfold runPath, unknownPath. intros Hd H. apply str_app_inv_head in H.
  change ".run_unknown.log" with (".run_" +:+ "unknown" +:+ ".log") in H.
  apply str_app_inv_head in H. apply str_app_inv_tail in H. by subst run.
Qed.

(** * Rules for [wp] *)

Lemma wp_ret {A} (a : A) w (Q : A → world → Prop) E : Q a w → wp (mret a) w Q E.
Proof. done. Qed.

Lemma wp_bind {A B} (m : M A) (k : A → M B) w (Q : B → world → Prop) E :
  wp m w (fun a w' => wp (k a) w' Q E) E → wp (m ≫= k) w Q E.
Proof.
  unfold wp, mbind, proc_bind, bind. by destruct (m w) as [[a|c|] w'].
Qed.

Lemma wp_mono {A} (m : M A) w (Q Q' : A → world → Prop) (E E' : nat → world → Prop) :
  wp m w Q E → (∀ a w', Q a w' → Q' a w') → (∀ c w', E c w' → E' c w') →
  wp m w Q' E'.
Proof. unfold wp. destruct (m w) as [[a|c|] w']; auto. Qed.

Lemma wp_exit {A} c w (Q : A → world → Prop) (E : nat → world → Prop) :
  E c w → wp (os_Exit c) w Q E.
Proof. done. Qed.

Lemma wp_eprint s w (Q : unit → world → Prop) E :
  Q tt (put_stderr w s) → wp (eprint s) w Q E.
Proof. done. Qed.

Lemma wp_val {A} (m : M A) w a w' (Q : A → world → Prop) E :
  m w = (Val a, w') → Q a w' → wp m w Q E.
Proof. unfold wp. by intros ->. Qed.

Lemma wp_inv {A} (m : M A) w (Q : A → world → Prop) E :
  wp m w Q E →
  (∃ a w', m w = (Val a, w') ∧ Q a w') ∨ (∃ c w', m w = (Exited c, w') ∧ E c w').
Proof. unfold wp. destruct (m w) as [[a|c|] w']; [left|right|done]; eauto. Qed.

(** * Worlds *)

Lemma upd_upd w m1 e1 m2 e2 : upd (upd w m1 e1) m2 e2 = upd w m2 (e1 ++ e2).
Proof. unfold upd. simpl. by rewrite (assoc_L (++)). Qed.

Lemma upd_id w : upd w (fs w) [] = w.
Proof. destruct w. unfold upd. simpl. by rewrite app_nil_r. Qed.

Lemma log_event_upd w ev : log_event w ev = upd w (fs w) [ev].
Proof. done. Qed.

Lemma log_set_upd w m ev : log_event (set_fs w m) ev = upd w m [ev].
Proof. done. Qed.

Lemma same_env_refl w : same_env w w.
Proof. done. Qed.

Lemma same_env_upd w0 w m evs : same_env w0 w → same_env w0 (upd w m evs).
Proof. done. Qed.

(** * System calls *)

Lemma wp_syscall c sem w (Q : option error → world → Prop) E :
  (∀ m, faults w (length (trace w)) = None → sem (fs w) = inr m →
        Q None (upd w m [(c, None)])) →
  (∀ e, faults w (length (trace w)) = Some e ∨
        (faults w (length (trace w)) = None ∧ sem (fs w) = inl e) →
        Q (Some {| err_call := c; err_no := e |}) (upd w (fs w) [(c, Some e)])) →
  wp (syscall c sem) w Q E.
Proof.
  intros Hok Hfail. unfold wp, syscall.
  destruct (faults w (length (trace w))) as [e|] eqn:Hf.
  - apply Hfail. by left.
  - destruct (sem (fs w)) as [e|m] eqn:Hs.
    + apply Hfail. by right.
    + by apply Hok.
Qed.

Lemma wp_file_Write p data w d (Q : option error → world → Prop) E :
  fs w !! p = Some (File d) →
  (faults w (length (trace w)) = None →
   Q None (upd w (<[p := File (d +:+ data)]> (fs w)) [(Write p data, None)])) →
  (∀ e, faults w (length (trace w)) = Some e →
        Q (Some {| err_call := Write p data; err_no := e |})
          (upd w (fs w) [(Write p data, Some e)])) →
  wp (file_Write p data) w Q E.
Proof.
  intros Hp Hok Hfail. apply wp_syscall.
  - intros m Hf Hm. rewrite Hp in Hm. injection Hm as <-. by apply Hok.
  - intros e [Hf|[_ Hm]]; [by apply Hfail|]. by rewrite Hp in Hm.
Qed.

Lemma wp_file_Close p w (Q : option error → world → Prop) E :
  (∀ r, Q r (upd w (fs w) [(Close p, err_no <$> r)])) →
  wp (file_Close p) w Q E.
Proof.
  intros H. apply wp_syscall.
  - intros m _ Hm. injection Hm as <-. apply (H None).
  - intros e _. apply (H (Some {| err_call := Close p; err_no := e |})).
Qed.

Lemma wp_os_Create p w (Q : option error → world → Prop) E :
  (faults w (length (trace w)) = None → fs w !! p ≠ Some Dir →
   Q None (upd w (<[p := File ""]> (fs w)) [(Create p, None)])) →
  (∀ e, faults w (length (trace w)) = Some e ∨ fs w !! p = Some Dir →
        Q (Some {| err_call := Create p; err_no := e |})
          (upd w (fs w) [(Create p, Some e)])) →
  wp (os_Create p) w Q E.
Proof.
  intros Hok Hfail. apply wp_syscall.
  - intros m Hf Hm. destruct (fs w !! p) as [[d|]|] eqn:Hp; try done;
      injection Hm as <-; apply Hok; done.
  - intros e [Hf|[_ Hm]]; [apply Hfail; by left|].
    apply Hfail. right. by destruct (fs w !! p) as [[d|]|].
Qed.

Lemma wp_os_Open p w (Q : option error → world → Prop) E :
  (faults w (length (trace w)) = None → fs w !! p ≠ None →
   Q None (upd w (fs w) [(Open p, None)])) →
  (∀ e, faults w (length (trace w)) = Some e ∨ fs w !! p = None →
        Q (Some {| err_call := Open p; err_no := e |})
          (upd w (fs w) [(Open p, Some e)])) →
  wp (os_Open p) w Q E.
Proof.
  intros Hok Hfail. apply wp_syscall.
  - intros m Hf Hm. destruct (fs w !! p) eqn:Hp; [|done].
    injection Hm as <-. by apply Hok.
  - intros e [Hf|[_ Hm]]; [apply Hfail; by left|].
    apply Hfail. right. by destruct (fs w !! p).
Qed.

Lemma wp_file_Read p w (Q : error + string → world → Prop) E :
  (∀ d, faults w (length (trace w)) = None → fs w !! p = Some (File d) →
        Q (inr d) (upd w (fs w) [(Read p, None)])) →
  (∀ e, faults w (length (trace w)) = Some e ∨ (∀ d, fs w !! p ≠ Some (File d)) →
        Q (inl {| err_call := Read p; err_no := e |})
          (upd w (fs w) [(Read p, Some e)])) →
  wp (file_Read p) w Q E.
Proof.
  intros Hok Hfail. unfold wp, file_Read.
  destruct (faults w (length (trace w))) as [e|] eqn:Hf.
  - apply Hfail. by left.
  - destruct (fs w !! p) as [[d|]|] eqn:Hp.
    + by apply Hok.
    + apply Hfail. by right.
    + apply Hfail. by right.
Qed.

Lemma wp_range_keys keys w (Q : list string → world → Prop) E :
  (∀ l, l ≡ₚ elements keys → Q l w) → wp (range_keys keys) w Q E.
Proof. intros H. unfold wp, range_keys. apply H, merge_sort_Permutation. Qed.

Lemma wp_input_fuel f w (Q : nat → world → Prop) E :
  Q (match fs w !! f with Some (File d) => S (String.length d) | _ => 1 end) w →
  wp (input_fuel f) w Q E.
Proof. done. Qed.

(** * Buffered writers *)

Lemma written_insert m (b : bufio.Writer) d :
  written (<[bufio.wr b := File d]> m) b = Some (d +:+ bufio.buf b).
Proof. unfold written. by rewrite lookup_insert_eq. Qed.

Lemma written_frame m m' (b : bufio.Writer) :
  m' !! bufio.wr b = m !! bufio.wr b → written m' b = written m b.
Proof. unfold written. by intros ->. Qed.

Lemma written_inv m b content :
  written m b = Some content →
  ∃ d, m !! bufio.wr b = Some (File d) ∧ content = d +:+ bufio.buf b.
Proof.
  unfold written. destruct (m !! bufio.wr b) as [[d|]|]; [|done..].
  intros [= <-]. eauto.
Qed.

(** [Flush] writes the buffer to the file; it can only fail by a fault. *)
Lemma wp_Flush b w content (Q : bufio.Writer * option error → world → Prop) E :
  written (fs w) b = Some content →
  (∀ evs, Forall succeeded evs →
     Q ({| bufio.wr := bufio.wr b; bufio.buf := "" |}, None)
       (upd w (<[bufio.wr b := File content]> (fs w)) evs)) →
  (∀ data e, faults w (length (trace w)) = Some e →
     Q (b, Some {| err_call := Write (bufio.wr b) data; err_no := e |})
       (upd w (fs w) [(Write (bufio.wr b) data, Some e)])) →
  wp (bufio.Flush b) w Q E.
Proof.
  intros (d & Hd & ->)%written_inv Hok Hfail. unfold bufio.Flush.
  destruct (bufio.buf b) as [|c s] eqn:Hb.
  - apply wp_ret. specialize (Hok [] (Forall_nil_2 _)).
    rewrite str_app_nil_r in Hok. rewrite insert_id in Hok by done.
    rewrite upd_id in Hok. destruct b; simpl in *; subst. done.
  - apply wp_bind. eapply wp_file_Write; [done|..].
    + intros Hf. apply wp_ret. apply Hok. repeat constructor.
    + intros e Hf. apply wp_ret. rewrite <- Hb. by apply Hfail.
Qed.

(** [WriteString] adds the text to what the writer stands for. *)
Lemma wp_WriteString b s w content
    (Q : bufio.Writer * option error → world → Prop) E :
  written (fs w) b = Some content →
  (∀ b' d evs, bufio.wr b' = bufio.wr b → d +:+ bufio.buf b' = content +:+ s →
     Forall succeeded evs →
     Q (b', None) (upd w (<[bufio.wr b := File d]> (fs w)) evs)) →
  (∀ b' m evs data e, Forall succeeded evs →
     faults w (length (trace w ++ evs)) = Some e →
     Q (b', Some {| err_call := Write (bufio.wr b) data; err_no := e |})
       (upd w m (evs ++ [(Write (bufio.wr b) data, Some e)]))) →
  wp (bufio.WriteString b s) w Q E.
Proof.
  intros Hw Hok Hfail. pose proof Hw as (d & Hd & ->)%written_inv.
  unfold bufio.WriteString.
  destruct (String.length s <=? bufio.Available b) eqn:Hfit.
  { apply wp_ret. specialize (Hok {| bufio.wr := bufio.wr b; bufio.buf := bufio.buf b +:+ s |} d []).
    rewrite insert_id, upd_id in Hok by done.
    apply Hok; [done| |constructor]. simpl. by rewrite str_app_assoc. }
  destruct (bufio.Buffered b =? 0) eqn:Hempty.
  { apply Nat.eqb_eq, str_length_zero in Hempty.
    apply wp_bind. eapply wp_file_Write; [done|..].
    - intros Hf. apply wp_ret. apply Hok; [done| |repeat constructor].
      by rewrite Hempty, !str_app_nil_r.
    - intros e Hf. apply wp_ret. apply (Hfail b (fs w) [] s e); [constructor|].
      by rewrite app_nil_r. }
  apply wp_bind.
  set (b0 := {| bufio.wr := bufio.wr b;
                bufio.buf := bufio.buf b +:+ Str.take (bufio.Available b) s |}).
  apply (wp_Flush b0 w (d +:+ bufio.buf b0)).
  { unfold written. simpl. by rewrite Hd. }
  - intros evs Hevs. simpl.
    set (w1 := upd w _ evs).
    destruct (String.length (Str.drop (bufio.Available b) s) <=? _) eqn:Hfit2.
    + apply wp_ret. unfold w1. apply Hok; [done| |done].
      simpl. rewrite !str_app_assoc. f_equal. f_equal. apply str_take_drop.
    + apply wp_bind. eapply (wp_file_Write _ _ w1); [apply lookup_insert_eq|..].
      * intros Hf. apply wp_ret. unfold w1. rewrite upd_upd. simpl.
        rewrite insert_insert_eq. apply Hok; [done| |].
        -- simpl. rewrite str_app_nil_r, !str_app_assoc. f_equal. f_equal.
           apply str_take_drop.
        -- apply Forall_app. split; [done|]. repeat constructor.
      * intros e Hf. apply wp_ret. unfold w1. rewrite upd_upd. simpl.
        apply Hfail; [done|]. done.
  - intros data e Hf. simpl. apply wp_ret.
    apply (Hfail b0 (fs w) [] data e); [constructor|]. by rewrite app_nil_r.
Qed.

(** [io.Copy] into a writer with an empty buffer. *)
Lemma wp_io_Copy b src w content d
    (Q : bufio.Writer * option error → world → Prop) E :
  fs w !! src = Some (File content) →
  fs w !! bufio.wr b = Some (File d) → bufio.buf b = "" →
  (∀ evs, Forall succeeded evs →
     Q (b, None) (upd w (<[bufio.wr b := File (d +:+ content)]> (fs w)) evs)) →
  (∀ evs c e, Forall succeeded evs →
     faults w (length (trace w ++ evs)) = Some e →
     c = Read src ∨ (∃ data, c = Write (bufio.wr b) data) →
     Q (b, Some {| err_call := c; err_no := e |})
       (upd w (fs w) (evs ++ [(c, Some e)]))) →
  wp (io_Copy b src) w Q E.
Proof.
  intros Hsrc Hdst Hbuf Hok Hfail. unfold io_Copy.
  apply wp_bind. apply wp_file_Read.
  - intros data Hf Hd. rewrite Hsrc in Hd. injection Hd as <-.
    unfold bufio.Buffered. rewrite Hbuf. simpl.
    apply wp_bind. eapply wp_file_Write; [exact Hdst|..].
    + intros Hf2. apply wp_ret. rewrite upd_upd. simpl. apply Hok.
      repeat constructor.
    + intros e Hf2. apply wp_ret. rewrite upd_upd. simpl.
      apply (Hfail [(Read src, None)]); [repeat constructor| |by eauto].
      simpl in Hf2. by rewrite length_app in *.
  - intros e [Hf|Hno]; [|by specialize (Hno content)].
    apply wp_ret. apply (Hfail [] (Read src) e); [constructor| |by left].
    by rewrite app_nil_r.
Qed.

(** * Loops *)

Lemma wp_for_each {S} (body : string → S → M S) (I : list string → S → world → Prop)
    (E : nat → world → Prop) keys0 :
  (∀ done k rest s w, keys0 = done ++ k :: rest → I done s w →
     wp (body k s) w (I (done ++ [k])) E) →
  ∀ rest done s w, keys0 = done ++ rest → I done s w →
    wp (for_each rest body s) w (I keys0) E.
Proof.
  intros Hstep rest. induction rest as [|k rest IH]; intros done s w Hk HI.
  - simpl. apply wp_ret. by rewrite Hk, app_nil_r.
  - simpl. apply wp_bind. eapply wp_mono; [by eapply Hstep| |done].
    intros s' w' HI'. apply (IH (done ++ [k])); [|done].
    by rewrite <- (assoc_L (++)).
Qed.

(** * Clean histories, fatal failures and the shape of the state *)

Section Steps.

Variable P : string.
Variable inp : string.
Variable w0 : world.

Lemma clean_nil : clean P inp [].
Proof. constructor. Qed.

Lemma clean_app evs1 evs2 :
  clean P inp evs1 → clean P inp evs2 → clean P inp (evs1 ++ evs2).
Proof. intros. by apply Forall_app. Qed.

Lemma clean_succeeded evs : Forall succeeded evs → clean P inp evs.
Proof. intros H. eapply Forall_impl; [done|]. intros ev ?. by left. Qed.

Lemma clean_close_common r :
  clean P inp [(Close (commonTempPath P), r)].
Proof. constructor; [right; simpl; by left|constructor]. Qed.

Lemma fatal_intro w m evs evs1 c e post what msg :
  same_env w0 w → stderr w = stderr w0 →
  trace w = trace w0 ++ evs → clean P inp evs → clean P inp evs1 →
  Forall is_close post → describes P inp what c →
  (faults w (length (trace w ++ evs1)) = Some e ∨ natural inp (fs w0) c) →
  msg = "error: " +:+ what +:+ ": "
        +:+ Error {| err_call := c; err_no := e |} +:+ nl →
  fatalE P inp w0 2 (put_stderr (upd w m (evs1 ++ (c, Some e) :: post)) msg).
Proof.
  intros (Hf & _) Herr Htr Hc Hc1 Hpost Hd Hwhy ->. split; [done|].
  exists (evs ++ evs1), c, e, post, what. simpl. split_and!; try done.
  - rewrite Htr. by rewrite <- !(assoc_L (++)).
  - by apply clean_app.
  - by rewrite Herr.
  - destruct Hwhy as [Hwhy|Hwhy]; [left|by right].
    rewrite Htr, Hf in Hwhy. by rewrite (assoc_L (++)).
Qed.

Lemma fatal_intro_eq w m evs evs' evs1 c e post what msg :
  same_env w0 w → stderr w = stderr w0 →
  trace w = trace w0 ++ evs → clean P inp evs → clean P inp evs1 →
  Forall is_close post → describes P inp what c →
  (faults w (length (trace w ++ evs1)) = Some e ∨ natural inp (fs w0) c) →
  msg = "error: " +:+ what +:+ ": "
        +:+ Error {| err_call := c; err_no := e |} +:+ nl →
  evs' = evs1 ++ (c, Some e) :: post →
  fatalE P inp w0 2 (put_stderr (upd w m evs') msg).
Proof. intros ? ? ? ? ? ? ? ? ? ->. by eapply fatal_intro. Qed.

(** The shape after some calls. *)
Lemma shape_next cc D rc a r st w cc' D' rc' a' r' st' m evs :
  Shape P inp w0 cc D rc a r st w →
  clean P inp evs →
  bufio.wr (commonWriter st') = commonTempPath P →
  written m (commonWriter st') = Some cc' →
  dom (runOutputs st') = D' →
  (∀ run ro, runOutputs st' !! run = Some ro →
     file ro = runPath P run ∧ bufio.wr (writer ro) = runPath P run ∧
     written m (writer ro) = Some (rc' run)) →
  D ⊆ D' →
  (∀ p, p ≠ commonTempPath P → (∀ run, run ∈ D' → p ≠ runPath P run) →
     m !! p = fs w !! p) →
  anyRunFound st' = a' → bufReader st' = r' →
  Shape P inp w0 cc' D' rc' a' r' st' (upd w m evs).
Proof.
  intros [Henv Herr (evs0 & Htr & Hc0) _ _ _ _ Hfr _ _] Hc Hcw Hcc Hdom Hruns Hsub Hm Ha Hr.
  split; try done.
  - exists (evs0 ++ evs). simpl. split; [|by apply clean_app].
    by rewrite Htr, (assoc_L (++)).
  - intros p Hp Hrun. simpl. rewrite Hm by done. apply Hfr; [done|].
    intros run Hin. apply Hrun. set_solver.
Qed.

Lemma shape_ext cc D rc rc' a r st w :
  Shape P inp w0 cc D rc a r st w →
  (∀ run, run ∈ D → rc run = rc' run) →
  Shape P inp w0 cc D rc' a r st w.
Proof.
  intros [? ? ? ? ? Hdom Hruns ? ? ?] Heq. split; try done.
  intros run ro Hro. destruct (Hruns _ _ Hro) as (? & ? & ?).
  rewrite <- Heq; [done|]. rewrite <- Hdom. apply elem_of_dom. eauto.
Qed.

Lemma shape_set_reader cc D rc a r r' st w :
  Shape P inp w0 cc D rc a r st w →
  Shape P inp w0 cc D rc a r' (set_bufReader st r') w.
Proof. intros []. by split. Qed.

Lemma shape_set_any cc D rc a a' r st w :
  Shape P inp w0 cc D rc a r st w →
  Shape P inp w0 cc D rc a' r (set_anyRunFound st a') w.
Proof. intros []. by split. Qed.

(** * One open run receives a line *)

Lemma wp_write_open_run cc D rc a r st w line k :
  Shape P inp w0 cc D rc a r st w → k ∈ D →
  wp (write_open_run line k st) w
    (Shape P inp w0 cc D (fn_upd rc k (rc k +:+ line)) a r)
    (fatalE P inp w0).
Proof.
  intros Hsh Hk. pose proof Hsh as [Henv Herr (evs0 & Htr & Hc0) Hcw Hcc Hdom Hruns Hfr Ha Hr].
  unfold write_open_run.
  assert (is_Some (runOutputs st !! k)) as [ro Hro].
  { apply elem_of_dom. by rewrite Hdom. }
  rewrite Hro. destruct (Hruns _ _ Hro) as (Hfile & Hwr & Hwritten).
  apply wp_bind. eapply wp_WriteString; [exact Hwritten|..].
  - intros b' d evs Hb' Hd Hevs. apply wp_ret.
    eapply shape_next; try done.
    + by apply clean_succeeded.
    + simpl. rewrite <- Hcc. apply written_frame.
      rewrite lookup_insert_ne; [done|]. rewrite Hwr, Hcw. apply runPath_common.
    + simpl. rewrite dom_insert_L. rewrite Hdom. set_solver.
    + intros run ro' Hro'. simpl in Hro'. unfold fn_upd.
      destruct (decide (run = k)) as [->|Hne].
      * rewrite lookup_insert_eq in Hro'. injection Hro' as <-. simpl.
        split; [done|]. split; [by rewrite Hb'|].
        unfold written. rewrite Hb', lookup_insert_eq. by rewrite Hd.
      * rewrite lookup_insert_ne in Hro' by done.
        destruct (Hruns _ _ Hro') as (? & Hwr' & Hw'). split; [done|]. split; [done|].
        rewrite <- Hw'. apply written_frame. rewrite lookup_insert_ne; [done|].
        rewrite Hwr, Hwr'. intros ?%runPath_inj. done.
    + intros p Hp Hrun. rewrite lookup_insert_ne; [done|].
      rewrite Hwr. intros <-. by apply (Hrun k).
  - intros b' m evs data e Hevs Hf.
    apply wp_bind, wp_eprint, wp_exit. rewrite Hwr.
    eapply (fatal_intro _ _ _ _ _ _ [] "writing run file");
      try done; [by apply clean_succeeded|constructor|by left].
Qed.

(** * Opening a run *)

Lemma wp_openRun cc D rc a r st w k :
  Shape P inp w0 cc D rc a r st w →
  wp (openRun P k st) w
    (fun res w' =>
       match res.2 with
       | inr ro =>
           Shape P inp w0 cc (D ∪ {[k]})
             (fn_upd rc k (if decide (k ∈ D) then rc k else cc)) a r res.1 w' ∧
           runOutputs res.1 !! k = Some ro
       | inl err => open_failed P inp w0 k w err w'
       end)
    (fatalE P inp w0).
Proof.
  intros Hsh. pose proof Hsh as [Henv Herr (evs0 & Htr & Hc0) Hcw Hcc Hdom Hruns Hfr Ha Hr].
  unfold openRun. destruct (runOutputs st !! k) as [ro|] eqn:Hro.
  { apply wp_ret. simpl. split; [|done].
    assert (k ∈ D) as Hk by (rewrite <- Hdom; apply elem_of_dom; eauto).
    replace (D ∪ {[k]}) with D by set_solver.
    eapply shape_ext; [done|]. intros run _. unfold fn_upd.
    destruct (decide (run = k)) as [->|]; [|done]. by rewrite decide_True. }
  assert (k ∉ D) as Hk by (rewrite <- Hdom; by apply not_elem_of_dom).
  assert (Hpk : fs w !! runPath P k = fs w0 !! runPath P k).
  { apply Hfr; [apply runPath_common|]. intros run Hin ?%runPath_inj. by subst. }
  apply written_inv in Hcc as Hcc'. destruct Hcc' as (dc & Hdc & ->).
  rewrite Hcw in Hdc.
  apply wp_bind, wp_os_Create.
  2:{ intros e Hwhy. apply wp_ret. simpl.
      exists (fs w), [], []. simpl. split_and!; [done|constructor|constructor|constructor|].
      rewrite app_nil_r. destruct Hwhy as [?|Hd]; [by left|right].
      by rewrite <- Hpk. }
  intros Hf1 Hnd. set (m1 := <[runPath P k := File ""]> (fs w)).
  assert (Hm1c : m1 !! commonTempPath P = Some (File dc)).
  { unfold m1. rewrite lookup_insert_ne; [done|]. apply runPath_common. }
  apply wp_bind. eapply (wp_Flush _ _ (dc +:+ bufio.buf (commonWriter st))).
  { unfold written. simpl. by rewrite Hcw, Hm1c. }
  2:{ intros data e Hf. simpl. apply wp_bind, wp_file_Close. intros rc1.
      apply wp_ret. simpl. rewrite !upd_upd. rewrite Hcw.
      exists (fs (upd w m1 [(Create (runPath P k), None)])),
        [(Create (runPath P k), None)], [(Close (runPath P k), err_no <$> rc1)].
      simpl. split_and!; try done.
      - by apply clean_succeeded; repeat constructor.
      - repeat constructor. by eexists.
      - constructor.
      - left. simpl in Hf. by rewrite length_app in *. }
  intros evs2 Hevs2. simpl. rewrite upd_upd, Hcw.
  set (cc := dc +:+ bufio.buf (commonWriter st)).
  set (m2 := <[commonTempPath P := File cc]> m1).
  set (w2 := upd w m2 _).
  apply wp_bind, wp_os_Open.
  2:{ intros e Hwhy. apply wp_bind, wp_file_Close. intros rc1.
      apply wp_ret. simpl. unfold w2. rewrite !upd_upd.
      exists m2, ((Create (runPath P k), None) :: evs2),
        [(Close (runPath P k), err_no <$> rc1)].
      simpl. split_and!.
      - done.
      - apply clean_succeeded. by constructor.
      - repeat constructor. by eexists.
      - constructor.
      - destruct Hwhy as [Hf|Hno].
        + left. unfold w2 in Hf. by simpl in Hf.
        + unfold w2, m2 in Hno. simpl in Hno. by rewrite lookup_insert_eq in Hno. }
  intros Hf3 _. set (w3 := upd w2 (fs w2) _).
  apply wp_bind.
  eapply (wp_io_Copy (bufio.NewWriter (runPath P k)) (commonTempPath P) w3 cc "").
  { unfold m2. simpl. apply lookup_insert_eq. }
  { unfold w3, w2, m2, m1. simpl.
    rewrite lookup_insert_ne by (intros ?; by eapply runPath_common).
    apply lookup_insert_eq. }
  { done. }
  2:{ intros evs4 c e Hevs4 Hf Hc. simpl.
      apply wp_bind, wp_file_Close. intros rc1.
      apply wp_bind. unfold bufio.Flush. simpl. apply wp_ret.
      apply wp_bind, wp_file_Close. intros rc2.
      apply wp_ret. simpl. unfold w3, w2. rewrite !upd_upd.
      exists m2, (([(Create (runPath P k), None)] ++ evs2 ++ [(Open (commonTempPath P), None)]) ++ evs4),
        [(Close (commonTempPath P), err_no <$> rc1); (Close (runPath P k), err_no <$> rc2)].
      simpl. split_and!.
      - f_equal. by rewrite <- !(assoc_L (++)).
      - apply clean_succeeded. constructor; [done|].
        rewrite <- (assoc_L (++)). rewrite !Forall_app. split_and!; try done.
        repeat constructor.
      - repeat constructor; by eexists.
      - destruct Hc as [->|[data ->]]; constructor.
      - left. unfold w3, w2 in Hf. simpl in Hf. rewrite <- Hf. f_equal. f_equal.
        by rewrite <- !(assoc_L (++)). }
  intros evs4 Hevs4. simpl.
  apply wp_bind, wp_file_Close. intros rc1. apply wp_ret. simpl.
  unfold w3, w2. rewrite !upd_upd. split; [|by rewrite lookup_insert_eq].
  eapply shape_next; try done.
  - unfold clean. rewrite !Forall_app. split_and!;
      try (by apply clean_succeeded); try (by apply clean_close_common);
      apply clean_succeeded; by repeat constructor.
  - simpl. unfold written, m2. simpl.
    rewrite lookup_insert_ne by apply runPath_common.
    rewrite lookup_insert_eq. by rewrite str_app_nil_r.
  - simpl. rewrite dom_insert_L, Hdom. set_solver.
  - intros run ro Hr'. simpl in Hr'. unfold fn_upd.
    destruct (decide (run = k)) as [->|Hne].
    + rewrite lookup_insert_eq in Hr'. injection Hr' as <-. simpl.
      split; [done|]. split; [done|]. rewrite decide_False by done.
      unfold written. simpl. rewrite lookup_insert_eq.
      by rewrite str_app_nil_l, str_app_nil_r.
    + rewrite lookup_insert_ne in Hr' by done.
      destruct (Hruns _ _ Hr') as (? & Hwr' & Hw'). split; [done|]. split; [done|].
      rewrite <- Hw'. apply written_frame. unfold m2, m1. rewrite Hwr'.
      rewrite lookup_insert_ne by (intros ?%runPath_inj; done).
      rewrite lookup_insert_ne by (intros ?; by eapply runPath_common).
      rewrite lookup_insert_ne by (intros ?%runPath_inj; done). done.
  - set_solver.
  - intros p Hp Hrun. unfold m2, m1.
    rewrite lookup_insert_ne by (intros <-; apply (Hrun k); set_solver).
    rewrite lookup_insert_ne by done.
    rewrite lookup_insert_ne by (intros <-; apply (Hrun k); set_solver). done.
Qed.
End Steps.

Section Routing.

Variable P : string.
Variable inp : string.
Variable w0 : world.

(** * A tagged line reaches one of its runs *)

Lemma wp_write_tagged_run cc D rc a r st w line k :
  Shape P inp w0 cc D rc a r st w →
  wp (write_tagged_run P line k st) w
    (Shape P inp w0 cc (D ∪ {[k]})
       (fn_upd rc k ((if decide (k ∈ D) then rc k else cc) +:+ line)) a r)
    (fatalE P inp w0).
Proof.
  intros Hsh. unfold write_tagged_run.
  apply wp_bind. eapply wp_mono; [by apply wp_openRun| |done].
  intros [st1 [err|ro]] w1; simpl.
  - intros (m & evs1 & post & -> & Hc1 & Hpost & Hd & Hwhy).
    destruct Hsh as [Henv Herr (evs0 & Htr & Hc0) _ _ _ _ _ _ _].
    apply wp_bind, wp_eprint, wp_exit.
    destruct err as [c e]. simpl in *.
    by eapply fatal_intro.
  - intros [Hsh1 Hro].
    pose proof Hsh1 as [Henv Herr (evs0 & Htr & Hc0) Hcw Hcc Hdom Hruns Hfr Ha Hr].
    destruct (Hruns _ _ Hro) as (Hfile & Hwr & Hwritten).
    unfold fn_upd in Hwritten. rewrite decide_True in Hwritten by done.
    apply wp_bind. eapply wp_WriteString; [exact Hwritten|..].
    + intros b' d evs Hb' Hd Hevs. apply wp_ret.
      eapply shape_next; try done.
      * by apply clean_succeeded.
      * simpl. rewrite <- Hcc. apply written_frame.
        rewrite lookup_insert_ne; [done|]. rewrite Hwr, Hcw. apply runPath_common.
      * simpl. rewrite dom_insert_L. rewrite Hdom. set_solver.
      * intros run ro' Hro'. simpl in Hro'. unfold fn_upd.
        destruct (decide (run = k)) as [->|Hne].
        -- rewrite lookup_insert_eq in Hro'. injection Hro' as <-. simpl.
           split; [done|]. split; [by rewrite Hb'|].
           unfold written. rewrite Hb', lookup_insert_eq. by rewrite Hd.
        -- rewrite lookup_insert_ne in Hro' by done.
           destruct (Hruns _ _ Hro') as (? & Hwr' & Hw'). split; [done|]. split; [done|].
           unfold fn_upd in Hw'. rewrite decide_False in Hw' by done.
           rewrite <- Hw'. apply written_frame. rewrite lookup_insert_ne; [done|].
           rewrite Hwr, Hwr'. intros ?%runPath_inj. done.
      * intros p Hp Hrun. rewrite lookup_insert_ne; [done|].
        rewrite Hwr. intros <-. apply (Hrun k); [set_solver|done].
    + intros b' m evs data e Hevs Hf.
      apply wp_bind, wp_eprint, wp_exit. rewrite Hwr.
      eapply (fatal_intro _ _ _ _ _ _ _ _ _ [] ("writing run file for " +:+ k));
        try done; [by apply clean_succeeded|constructor|by left].
Qed.

(** * Routing one line *)

Lemma scan_runsOnLine line :
  runsOnLine (Regexp.FindAllStringSubmatch runTokenPattern line) = scan line.
Proof. done. Qed.

Lemma cat_snoc ls l : Str.cat (ls ++ [l]) = Str.cat ls +:+ l.
Proof. by rewrite str_cat_app, str_cat_singleton. Qed.

Lemma wp_route_line ls r st w line :
  Shape P inp w0 (Str.cat (filter (fun l => is_global l) ls)) (ids ls)
    (fun run => Str.cat (sink_spec run ls))
    (negb (forallb is_global ls)) r st w →
  wp (route_line P line st) w
    (Shape P inp w0 (Str.cat (filter (fun l => is_global l) (ls ++ [line])))
       (ids (ls ++ [line]))
       (fun run => Str.cat (sink_spec run (ls ++ [line])))
       (negb (forallb is_global (ls ++ [line]))) r)
    (fatalE P inp w0).
Proof.
  intros Hsh. unfold route_line.
  fold (matches_of line). fold (is_global line).
  set (cc := Str.cat (filter (fun l => is_global l) ls)) in *.
  set (rc := fun run => Str.cat (sink_spec run ls)) in *.
  destruct (is_global line) eqn:Hg.
  - (* a global line *)
    pose proof Hg as Hscan. apply is_global_scan in Hscan.
    pose proof Hsh as [Henv Herr (evs0 & Htr & Hc0) Hcw Hcc Hdom Hruns Hfr Ha Hr].
    apply wp_bind. eapply wp_WriteString; [exact Hcc|..].
    2:{ intros b' m evs data e Hevs Hf.
        apply wp_bind, wp_eprint, wp_exit. rewrite Hcw.
        eapply (fatal_intro _ _ _ _ _ _ _ _ _ [] "writing common temp file");
          try done; [by apply clean_succeeded|constructor|by left]. }
    intros b' d evs Hb' Hd Hevs.
    assert (Hsh1 : Shape P inp w0 (cc +:+ line) (ids ls) rc
              (negb (forallb is_global ls)) r (set_commonWriter st b')
              (upd w (<[bufio.wr (commonWriter st) := File d]> (fs w)) evs)).
    { eapply shape_next; try done.
      - by apply clean_succeeded.
      - simpl. by rewrite Hb'.
      - simpl. unfold written. rewrite Hb', lookup_insert_eq. by rewrite Hd.
      - intros run ro Hro. simpl in Hro.
        destruct (Hruns _ _ Hro) as (? & Hwr' & Hw'). split; [done|]. split; [done|].
        rewrite <- Hw'. apply written_frame. rewrite lookup_insert_ne; [done|].
        rewrite Hcw, Hwr'. intros ?. by eapply runPath_common.
      - intros p Hp Hrun. rewrite lookup_insert_ne; [done|]. by rewrite Hcw. }
    apply wp_bind, wp_range_keys. intros keys Hkeys. simpl.
    assert (Hnd : NoDup keys) by (rewrite Hkeys; apply NoDup_elements).
    eapply wp_mono;
      [apply (wp_for_each (write_open_run line)
                (fun done => Shape P inp w0 (cc +:+ line) (ids ls)
                   (fun run => if decide (run ∈ done) then rc run +:+ line else rc run)
                   (negb (forallb is_global ls)) r)
                (fatalE P inp w0) keys) with (done := [])| |done].
    + intros done k rest s' w' Hsplit HI.
      eapply wp_mono; [eapply wp_write_open_run; [exact HI|]| |done].
      * rewrite <- Hdom.
        apply (elem_of_elements (dom (runOutputs (set_commonWriter st b')))).
        rewrite <- Hkeys, Hsplit. set_solver.
      * intros s'' w'' HI'. eapply shape_ext; [exact HI'|].
        intros run _. unfold fn_upd.
        assert (k ∉ done).
        { rewrite Hsplit in Hnd. apply NoDup_app in Hnd as (_ & Hnd & _).
          intros Hin. apply (Hnd k Hin). set_solver. }
        destruct (decide (run = k)) as [->|Hne].
        -- rewrite decide_False by done. rewrite decide_True by set_solver. done.
        -- destruct (decide (run ∈ done)).
           ++ rewrite decide_True by set_solver. done.
           ++ rewrite decide_False by set_solver. done.
    + done.
    + eapply shape_ext; [exact Hsh1|]. by intros run _.
    + intros s' w' HI. simpl in HI.
      rewrite filter_global_snoc, Hg, cat_snoc, ids_snoc, Hscan, forallb_snoc, Hg.
      rewrite andb_true_r. replace (ids ls ∪ ∅) with (ids ls) by set_solver.
      eapply shape_ext; [exact HI|]. intros run Hrun. simpl.
      rewrite decide_True.
      2:{ rewrite Hkeys. apply elem_of_elements. simpl. by rewrite Hdom. }
      rewrite (sink_spec_snoc_seen _ _ _ Hrun).
      rewrite decide_True by (left; by rewrite Hg). by rewrite cat_snoc.
  - (* a line with tokens *)
    pose proof Hg as Hscan. apply is_global_false_scan in Hscan.
    apply (shape_set_any _ _ _ _ _ _ _ true) in Hsh.
    apply wp_bind, wp_range_keys. intros keys Hkeys. rewrite scan_runsOnLine in Hkeys.
    assert (Hnd : NoDup keys) by (rewrite Hkeys; apply NoDup_elements).
    set (base := fun run => if decide (run ∈ ids ls) then rc run else cc).
    eapply wp_mono;
      [apply (wp_for_each (write_tagged_run P line)
                (fun done => Shape P inp w0 cc (ids ls ∪ list_to_set done)
                   (fun run => if decide (run ∈ done) then base run +:+ line else rc run)
                   true r)
                (fatalE P inp w0) keys) with (done := [])| |done].
    + intros done k rest s' w' Hsplit HI.
      eapply wp_mono; [eapply wp_write_tagged_run; exact HI| |done].
      intros s'' w'' HI'.
      replace (ids ls ∪ list_to_set (done ++ [k]))
        with (ids ls ∪ list_to_set done ∪ {[k]}) by (rewrite list_to_set_app_L; set_solver).
      eapply shape_ext; [exact HI'|].
      intros run _. unfold fn_upd.
      assert (k ∉ done).
      { rewrite Hsplit in Hnd. apply NoDup_app in Hnd as (_ & Hnd & _).
        intros Hin. apply (Hnd k Hin). set_solver. }
      destruct (decide (run = k)) as [->|Hne].
      * rewrite (decide_True (P := k ∈ done ++ [k])) by set_solver.
        rewrite (decide_False (P := k ∈ done)) by done. unfold base.
        destruct (decide (k ∈ ids ls)).
        -- rewrite decide_True by set_solver. done.
        -- rewrite decide_False; [done|]. set_solver.
      * destruct (decide (run ∈ done)).
        -- rewrite decide_True by set_solver. done.
        -- rewrite decide_False by set_solver. done.
    + done.
    + simpl. replace (ids ls ∪ ∅) with (ids ls) by set_solver.
      done.
    + intros s' w' HI. simpl in HI.
      rewrite filter_global_snoc, Hg, app_nil_r, ids_snoc, forallb_snoc, Hg.
      rewrite andb_false_r. simpl negb.
      replace (list_to_set keys) with (scan line) in HI.
      2:{ apply set_eq. intros x. rewrite elem_of_list_to_set, Hkeys.
          by rewrite elem_of_elements. }
      eapply shape_ext; [exact HI|]. intros run Hrun. simpl.
      destruct (decide (run ∈ keys)) as [Hin|Hin].
      * rewrite Hkeys in Hin. apply elem_of_elements in Hin. unfold base.
        destruct (decide (run ∈ ids ls)).
        -- rewrite sink_spec_snoc_seen by done. rewrite decide_True by by right.
           by rewrite cat_snoc.
        -- rewrite sink_spec_snoc_new by done. by rewrite cat_snoc.
      * assert (run ∉ scan line).
        { intros ?. apply Hin. rewrite Hkeys. by apply elem_of_elements. }
        assert (run ∈ ids ls) by set_solver.
        rewrite sink_spec_snoc_seen by done. rewrite decide_False.
        -- by rewrite app_nil_r.
        -- rewrite Hg. intros [?|?]; done.
Qed.

End Routing.

(** * Reading the input *)

Lemma wp_ReadString b w data
    (Q : bufio.Reader * string * bufio.read_error → world → Prop) E :
  fs w !! bufio.rd b = Some (File data) →
  (∀ line r, faults w (length (trace w)) = None →
     bufio.cut Str.newline (Str.drop (bufio.off b) data) = Some (line, r) →
     Q ({| bufio.rd := bufio.rd b; bufio.off := bufio.off b + String.length line |},
        line, bufio.NoError)
       (upd w (fs w) [(Read (bufio.rd b), None)])) →
  (faults w (length (trace w)) = None →
   bufio.cut Str.newline (Str.drop (bufio.off b) data) = None →
   Q ({| bufio.rd := bufio.rd b;
         bufio.off := bufio.off b + String.length (Str.drop (bufio.off b) data) |},
      Str.drop (bufio.off b) data, bufio.EOF)
     (upd w (fs w) [(Read (bufio.rd b), None)])) →
  (∀ e, faults w (length (trace w)) = Some e →
     Q (b, "", bufio.ReadError {| err_call := Read (bufio.rd b); err_no := e |})
       (upd w (fs w) [(Read (bufio.rd b), Some e)])) →
  wp (bufio.ReadString b Str.newline) w Q E.
Proof.
  intros Hd Hline Heof Hfail. unfold bufio.ReadString.
  apply wp_bind, wp_file_Read.
  - intros d Hf Hd'. rewrite Hd in Hd'. injection Hd' as <-.
    destruct (bufio.cut _ _) as [[line r]|] eqn:Hcut.
    + apply wp_ret. by eapply Hline.
    + apply wp_ret. by apply Heof.
  - intros e [Hf|Hno]; [|by specialize (Hno data)].
    apply wp_ret. by apply Hfail.
Qed.

Lemma wp_ReadString_nofile b w
    (Q : bufio.Reader * string * bufio.read_error → world → Prop) E :
  (∀ d, fs w !! bufio.rd b ≠ Some (File d)) →
  (∀ e, Q (b, "", bufio.ReadError {| err_call := Read (bufio.rd b); err_no := e |})
          (upd w (fs w) [(Read (bufio.rd b), Some e)])) →
  wp (bufio.ReadString b Str.newline) w Q E.
Proof.
  intros Hno Hfail. unfold bufio.ReadString.
  apply wp_bind, wp_file_Read.
  - intros d _ Hd. by specialize (Hno d).
  - intros e _. apply wp_ret. apply Hfail.
Qed.

Section Loop.

Variable P : string.
Variable inp : string.
Variable w0 : world.
Variable data : string.

Hypothesis apart : input_apart P inp.

Lemma shape_input cc D rc a r st w :
  Shape P inp w0 cc D rc a r st w → fs w !! inp = fs w0 !! inp.
Proof.
  intros Hsh. destruct apart as [Hc Hr]. apply (sh_frame _ _ _ _ _ _ _ _ _ _ Hsh); [done|].
  intros run _. apply Hr.
Qed.

Lemma shape_read cc D rc a r st w r' res :
  Shape P inp w0 cc D rc a r st w →
  faults w (length (trace w)) = None →
  Shape P inp w0 cc D rc a r' (set_bufReader st r')
    (upd w (fs w) [(Read res, None)]).
Proof.
  intros Hsh Hf. pose proof Hsh as [Henv Herr (evs0 & Htr & Hc0) Hcw Hcc Hdom Hruns Hfr Ha Hr].
  eapply shape_next; try done.
  apply clean_succeeded. by repeat constructor.
Qed.

Lemma wp_read_loop fuel : ∀ ls st w,
  Inv P inp w0 data ls st w →
  String.length (Str.drop (bufio.off (bufReader st)) data) < fuel →
  wp (read_loop P fuel st) w
    (fun st' w' => Inv P inp w0 data (lines_of data) st' w')
    (fatalE P inp w0).
Proof.
  induction fuel as [|fuel IH]; intros ls st w (Hsh & Hrd & Hin & Hoff) Hfuel; [lia|].
  pose proof Hsh as [Henv Herr (evs0 & Htr & Hc0) Hcw Hcc Hdom Hruns Hfr Ha Hr].
  cbn [read_loop]. apply wp_bind.
  eapply wp_ReadString.
  { rewrite Hrd. rewrite (shape_input _ _ _ _ _ _ _ Hsh). exact Hin. }
  - (* a whole line *)
    intros line r Hf Hcut. cbv beta iota.
    set (rd' := {| bufio.rd := _; bufio.off := _ |}).
    pose proof (shape_read _ _ _ _ _ _ _ rd' (bufio.rd (bufReader st)) Hsh Hf) as Hsh1.
    apply wp_bind. eapply wp_mono; [by eapply wp_route_line| |done].
    intros st2 w2 Hsh2.
    pose proof (cut_Some _ _ _ _ Hcut) as (Hdrop & _ & Hne).
    assert (Hr2 : bufReader st2 = rd') by apply (sh_reader _ _ _ _ _ _ _ _ _ _ Hsh2).
    assert (Hrest : Str.drop (bufio.off rd') data = r).
    { unfold rd'. cbn [bufio.off]. rewrite <- str_drop_drop, Hdrop.
      apply str_drop_app_length. }
    apply (IH (ls ++ [terminate_line line])).
    + split; [by rewrite Hr2|]. rewrite Hr2. split; [done|]. split; [done|].
      rewrite Hrest, <- (assoc_L (++)). simpl.
      by rewrite <- (lines_of_cut_Some _ _ _ Hcut).
    + rewrite Hr2, Hrest. rewrite Hdrop, str_length_app in Hfuel.
      destruct line; [done|]. simpl in Hfuel. lia.
  - (* the end of the input *)
    intros Hf Hcut. cbv beta iota.
    set (rest := Str.drop (bufio.off (bufReader st)) data) in *.
    set (rd' := {| bufio.rd := _; bufio.off := _ |}).
    pose proof (shape_read _ _ _ _ _ _ _ rd' (bufio.rd (bufReader st)) Hsh Hf) as Hsh1.
    assert (Hrest : Str.drop (bufio.off rd') data = "").
    { unfold rd'. cbn [bufio.off]. rewrite <- str_drop_drop. apply str_drop_all.
      fold rest. lia. }
    destruct (String.length rest =? 0) eqn:Hlen.
    + apply Nat.eqb_eq, str_length_zero in Hlen. apply wp_ret.
      rewrite Hlen, lines_of_nil, app_nil_r in Hoff. rewrite <- Hoff.
      split; [done|]. split; [done|]. split; [done|].
      change (bufReader (set_bufReader st rd')) with rd'.
      by rewrite Hrest, lines_of_nil, app_nil_r.
    + apply Nat.eqb_neq in Hlen.
      assert (Hne : rest ≠ "") by (intros E0; by rewrite E0 in Hlen).
      rewrite (lines_of_cut_None _ Hcut Hne) in Hoff.
      eapply wp_mono; [by eapply wp_route_line| |done].
      intros st2 w2 Hsh2. simpl in Hsh2. rewrite Hoff in Hsh2.
      assert (Hr2 : bufReader st2 = rd') by apply (sh_reader _ _ _ _ _ _ _ _ _ _ Hsh2).
      split; [by rewrite Hr2|]. rewrite Hr2. split; [done|]. split; [done|].
      by rewrite Hrest, lines_of_nil, app_nil_r.
  - (* a read error *)
    intros e Hf. cbv beta iota.
    apply wp_bind, wp_eprint, wp_exit. rewrite Hrd.
    eapply (fatal_intro P inp w0) with (evs1 := []) (post := []) (what := "reading input");
      try done; try (by constructor); left; by rewrite app_nil_r.
Qed.

(** With an input that is no file the first read fails. *)
Lemma wp_read_loop_nofile fuel cc D rc a st w :
  Shape P inp w0 cc D rc a (bufio.NewReader inp) st w →
  (∀ d, fs w0 !! inp ≠ Some (File d)) →
  wp (read_loop P (S fuel) st) w (fun _ _ => False) (fatalE P inp w0).
Proof.
  intros Hsh Hno.
  pose proof Hsh as [Henv Herr (evs0 & Htr & Hc0) Hcw Hcc Hdom Hruns Hfr Ha Hr].
  cbn [read_loop]. apply wp_bind. rewrite Hr.
  apply wp_ReadString_nofile.
  { simpl. rewrite (shape_input _ _ _ _ _ _ _ Hsh). exact Hno. }
  intros e. cbv beta iota. apply wp_bind, wp_eprint, wp_exit. simpl.
  eapply (fatal_intro P inp w0) with (evs1 := []) (post := []) (what := "reading input");
    try done; try (by constructor); by right.
Qed.

End Loop.

(** * The calls of the last part of [main] *)

Lemma wp_file_Close_checked p w (Q : option error → world → Prop) E :
  (faults w (length (trace w)) = None → Q None (upd w (fs w) [(Close p, None)])) →
  (∀ e, faults w (length (trace w)) = Some e →
     Q (Some {| err_call := Close p; err_no := e |}) (upd w (fs w) [(Close p, Some e)])) →
  wp (file_Close p) w Q E.
Proof.
  intros Hok Hfail. apply wp_syscall.
  - intros m Hf Hm. injection Hm as <-. by apply Hok.
  - intros e [Hf|[_ Hm]]; [by apply Hfail|done].
Qed.

Lemma wp_os_Rename a b w (Q : option error → world → Prop) E :
  (∀ n, faults w (length (trace w)) = None → fs w !! a = Some n →
     Q None (upd w (<[b := n]> (delete a (fs w))) [(Rename a b, None)])) →
  (∀ e, Q (Some {| err_call := Rename a b; err_no := e |})
          (upd w (fs w) [(Rename a b, Some e)])) →
  wp (os_Rename a b) w Q E.
Proof.
  intros Hok Hfail. apply wp_syscall.
  - intros m Hf Hm. destruct (fs w !! a) as [n|] eqn:Ha; [|done].
    destruct (fs w !! b) as [[d|]|]; try done; injection Hm as <-; by apply Hok.
  - intros e _. apply Hfail.
Qed.

Lemma wp_os_Remove p w (Q : option error → world → Prop) E :
  (faults w (length (trace w)) = None →
     Q None (upd w (delete p (fs w)) [(Remove p, None)])) →
  (∀ e, faults w (length (trace w)) = Some e ∨ fs w !! p = None →
     Q (Some {| err_call := Remove p; err_no := e |})
       (upd w (fs w) [(Remove p, Some e)])) →
  wp (os_Remove p) w Q E.
Proof.
  intros Hok Hfail. apply wp_syscall.
  - intros m Hf Hm. destruct (fs w !! p) as [n|] eqn:Hp; [|done].
    injection Hm as <-. by apply Hok.
  - intros e [Hf|[_ Hm]]; apply Hfail; [by left|right].
    by destruct (fs w !! p).
Qed.

Lemma wp_io_Copy_file dst src w content d (Q : option error → world → Prop) E :
  fs w !! src = Some (File content) → fs w !! dst = Some (File d) →
  (∀ evs, Forall succeeded evs →
     Q None (upd w (<[dst := File (d +:+ content)]> (fs w)) evs)) →
  (∀ evs c e, Forall succeeded evs →
     faults w (length (trace w ++ evs)) = Some e →
     c = Read src ∨ (∃ data, c = Write dst data) →
     Q (Some {| err_call := c; err_no := e |}) (upd w (fs w) (evs ++ [(c, Some e)]))) →
  wp (io_Copy_file dst src) w Q E.
Proof.
  intros Hsrc Hdst Hok Hfail. unfold io_Copy_file.
  apply wp_bind, wp_file_Read.
  - intros data Hf Hd. rewrite Hsrc in Hd. injection Hd as <-.
    eapply wp_file_Write; [exact Hdst|..].
    + intros Hf2. rewrite upd_upd. simpl. apply Hok. repeat constructor.
    + intros e Hf2. rewrite upd_upd. simpl.
      apply (Hfail [(Read src, None)]); [repeat constructor| |by eauto].
      simpl in Hf2. by rewrite length_app in *.
  - intros e [Hf|Hno]; [|by specialize (Hno content)].
    apply wp_ret. apply (Hfail [] (Read src) e); [constructor| |by left].
    by rewrite app_nil_r.
Qed.

Section Finish.

Variable P : string.
Variable inp : string.
Variable w0 : world.

(** * Flushing and closing one run *)

Lemma wp_close_run cc D rc a r st w k :
  Shape P inp w0 cc D rc a r st w → k ∈ D →
  wp (close_run k st) w
    (fun st' w' =>
       Shape P inp w0 cc D rc a r st' w' ∧
       fs w' !! runPath P k = Some (File (rc k)) ∧
       ∀ p, p ≠ runPath P k → fs w' !! p = fs w !! p)
    (fatalE P inp w0).
Proof.
  intros Hsh Hk. pose proof Hsh as [Henv Herr (evs0 & Htr & Hc0) Hcw Hcc Hdom Hruns Hfr Ha Hr].
  unfold close_run.
  assert (is_Some (runOutputs st !! k)) as [ro Hro].
  { apply elem_of_dom. by rewrite Hdom. }
  rewrite Hro. destruct (Hruns _ _ Hro) as (Hfile & Hwr & Hwritten).
  apply wp_bind. eapply wp_Flush; [exact Hwritten|..].
  2:{ intros data e Hf. apply wp_bind, wp_eprint, wp_exit. rewrite Hwr.
      eapply (fatal_intro P inp w0) with (evs1 := []) (post := [])
        (what := "flushing run file for " +:+ k);
        try done; try (by constructor); left; by rewrite app_nil_r. }
  intros evs Hevs. cbv beta iota. rewrite Hfile, Hwr.
  set (st1 := set_runOutputs st _).
  set (m1 := <[runPath P k := File (rc k)]> (fs w)).
  assert (Hsh1 : ∀ evs', clean P inp evs' → Shape P inp w0 cc D rc a r st1 (upd w m1 evs')).
  { intros evs' Hc'. eapply shape_next; try done.
    - simpl. rewrite <- Hcc. apply written_frame. unfold m1.
      rewrite lookup_insert_ne; [done|]. rewrite Hcw. apply runPath_common.
    - simpl. rewrite dom_insert_L, Hdom. set_solver.
    - intros run ro' Hro'. simpl in Hro'.
      destruct (decide (run = k)) as [->|Hne].
      + rewrite lookup_insert_eq in Hro'. injection Hro' as <-. simpl.
        split; [done|]. split; [done|].
        unfold written, m1. simpl. rewrite lookup_insert_eq.
        by rewrite str_app_nil_r.
      + rewrite lookup_insert_ne in Hro' by done.
        destruct (Hruns _ _ Hro') as (? & Hwr' & Hw'). split; [done|]. split; [done|].
        rewrite <- Hw'. apply written_frame. unfold m1. rewrite lookup_insert_ne; [done|].
        rewrite Hwr'. intros ?%runPath_inj. done.
    - intros p Hp Hrun. unfold m1. rewrite lookup_insert_ne; [done|].
      intros <-. by apply (Hrun k). }
  apply wp_bind, wp_file_Close_checked.
  - intros Hf. apply wp_ret. rewrite upd_upd. split_and!.
    + apply Hsh1. apply clean_succeeded, Forall_app. split; [done|]. by repeat constructor.
    + simpl. apply lookup_insert_eq.
    + intros p Hp. simpl. unfold m1. by rewrite lookup_insert_ne.
  - intros e Hf. apply wp_bind, wp_eprint, wp_exit. rewrite upd_upd.
    eapply (fatal_intro P inp w0) with (post := [])
      (what := "closing run file for " +:+ k);
      try done; try (by apply clean_succeeded); try (by constructor).
Qed.

(** * The end of [main] *)

Lemma wp_finish data inName st w :
  Inv P inp w0 data (lines_of data) st w →
  wp (finish P inName st) w
    (fun _ w' => Outputs P inp w0 data inName w')
    (fatalE P inp w0).
Proof.
  intros (Hsh & Hrd & Hin & Hoff). set (ls := lines_of data) in *.
  set (cc := Str.cat (filter (fun l => is_global l) ls)) in *.
  set (rc := fun run => Str.cat (sink_spec run ls)) in *.
  pose proof Hsh as [Henv Herr (evs0 & Htr & Hc0) Hcw Hcc Hdom Hruns Hfr Ha Hr].
  unfold finish. apply wp_bind. eapply wp_Flush; [exact Hcc|..].
  2:{ intros d e Hf. apply wp_bind, wp_eprint, wp_exit. rewrite Hcw.
      eapply (fatal_intro P inp w0) with (evs1 := []) (post := [])
        (what := "flushing common temp file");
        try done; try (by constructor); left; by rewrite app_nil_r. }
  intros evs Hevs. cbv beta iota. rewrite Hcw.
  set (st1 := set_commonWriter st _).
  set (m1 := <[commonTempPath P := File cc]> (fs w)).
  assert (Hsh1 : Shape P inp w0 cc (ids ls) rc (negb (forallb is_global ls))
            (bufReader st) st1 (upd w m1 evs)).
  { eapply shape_next; try done.
    - by apply clean_succeeded.
    - unfold written, m1. simpl. rewrite lookup_insert_eq. by rewrite str_app_nil_r.
    - intros run ro Hro. simpl in Hro.
      destruct (Hruns _ _ Hro) as (? & Hwr' & Hw'). split; [done|]. split; [done|].
      rewrite <- Hw'. apply written_frame. unfold m1. rewrite lookup_insert_ne; [done|].
      rewrite Hwr'. intros ?. by eapply runPath_common.
    - intros p Hp Hrun. unfold m1. by rewrite lookup_insert_ne. }
  apply wp_bind, wp_range_keys. intros keys Hkeys. simpl in Hkeys. rewrite Hdom in Hkeys.
  apply wp_bind.
  eapply wp_mono;
    [apply (wp_for_each close_run
              (fun done st' w' =>
                 Shape P inp w0 cc (ids ls) rc (negb (forallb is_global ls))
                   (bufReader st) st' w' ∧
                 fs w' !! commonTempPath P = Some (File cc) ∧
                 ∀ run, run ∈ done → fs w' !! runPath P run = Some (File (rc run)))
              (fatalE P inp w0) keys) with (done := [])| |done].
  - intros done k rest s' w' Hsplit (HI & HIc & HId).
    eapply wp_mono; [eapply wp_close_run; [exact HI|]| |done].
    + apply elem_of_elements. rewrite <- Hkeys, Hsplit. set_solver.
    + intros s'' w'' (HI' & Hk' & Hfr'). split; [done|]. split.
      * rewrite Hfr'; [done|]. intros ?. by eapply runPath_common.
      * intros run [Hin'| ->%list_elem_of_singleton]%elem_of_app; [|done].
        destruct (decide (run = k)) as [->|Hne]; [done|].
        rewrite Hfr'; [by apply HId|]. intros ?%runPath_inj. done.
  - done.
  - split; [exact Hsh1|]. split; [apply lookup_insert_eq|]. by intros run ?%elem_of_nil.
  - intros st2 w2 (Hsh2 & Hc2 & Hd2). cbv beta.
    pose proof Hsh2 as [Henv2 Herr2 (evs2 & Htr2 & Hcl2) Hcw2 Hcc2 Hdom2 Hruns2 Hfr2 Ha2 Hr2].
    assert (Hall : ∀ run, run ∈ ids ls → fs w2 !! runPath P run = Some (File (rc run))).
    { intros run Hrun. apply Hd2. rewrite Hkeys. by apply elem_of_elements. }
    rewrite Ha2. unfold Outputs. fold ls.
    destruct (forallb is_global ls) eqn:Hglob; simpl negb; cbv iota.
    2:{ apply wp_ret. split_and!; try done. by exists evs2. }
    assert (Hids : ids ls = ∅) by by apply ids_empty_global.
    assert (Hcat : cc = Str.cat ls).
    { unfold cc. by rewrite filter_global_all. }
    assert (Hfr3 : ∀ p, p ≠ commonTempPath P → fs w2 !! p = fs w0 !! p).
    { intros p Hp. apply Hfr2; [done|]. rewrite Hids. set_solver. }
    apply wp_bind, wp_file_Close. intros r1.
    apply wp_bind, wp_os_Rename.
    + (* renamed *)
      intros n Hf Hn. apply wp_eprint. rewrite upd_upd. simpl.
      simpl in Hn. rewrite Hc2 in Hn. injection Hn as <-.
      split_and!; try done.
      * exists (evs2 ++ [(Close (commonTempPath P), err_no <$> r1);
                         (Rename (commonTempPath P) (unknownPath P), None)]).
        split; [by rewrite Htr2, (assoc_L (++))|].
        apply clean_app; [done|]. constructor; [right; by left|].
        constructor; [by left|constructor].
      * intros run Hrun. rewrite Hids in Hrun. set_solver.
      * simpl. by rewrite Herr2.
      * simpl. rewrite lookup_insert_eq. by rewrite Hcat.
      * intros p Hp1 Hp2. simpl. rewrite lookup_insert_ne by done.
        rewrite lookup_delete_ne by done. by apply Hfr3.
    + (* the rename failed: copy *)
      intros e. rewrite upd_upd.
      match goal with |- wp _ ?w _ _ => remember w as w3 eqn:Hw3 end.
      assert (Henv3 : same_env w0 w3) by by subst w3.
      assert (Herr3 : stderr w3 = stderr w0) by by subst w3.
      assert (Hfs3 : fs w3 = fs w2) by by subst w3.
      assert (Htr3 : trace w3 = trace w0 ++ evs2 ++
                [(Close (commonTempPath P), err_no <$> r1);
                 (Rename (commonTempPath P) (unknownPath P), Some e)]).
      { subst w3. simpl. by rewrite Htr2, (assoc_L (++)). }
      assert (Hcl3 : clean P inp (evs2 ++
                [(Close (commonTempPath P), err_no <$> r1);
                 (Rename (commonTempPath P) (unknownPath P), Some e)])).
      { apply clean_app; [done|]. constructor; [right; by left|].
        constructor; [by right|constructor]. }
      clear Hw3.
      apply wp_bind, wp_os_Open.
      2:{ intros e1 [Hf|Hno]; [|by rewrite Hfs3, Hc2 in Hno].
          apply wp_bind, wp_eprint, wp_exit.
          eapply (fatal_intro P inp w0) with (evs1 := []) (post := [])
            (what := "opening common temp for copy");
            try done; try (by constructor); left; by rewrite app_nil_r. }
      intros Hf1 _. apply wp_bind, wp_os_Create.
      2:{ intros e1 Hwhy. apply wp_bind, wp_file_Close. intros r2.
          apply wp_bind, wp_eprint, wp_exit. rewrite !upd_upd.
          eapply (fatal_intro P inp w0)
            with (evs1 := [(Open (commonTempPath P), None)])
                 (post := [(Close (commonTempPath P), err_no <$> r2)])
                 (what := "creating " +:+ unknownPath P);
            try done; try (by constructor).
          - apply clean_succeeded. by repeat constructor.
          - repeat constructor. by eexists.
          - destruct Hwhy as [Hf|Hd]; [left|right].
            + simpl in Hf. by rewrite length_app in *.
            + simpl in Hd. simpl. rewrite <- Hfr3, <- Hfs3; [done|].
              apply unknown_common. }
      intros Hf2 Hnd. rewrite upd_upd. simpl fs.
      set (m4 := <[unknownPath P := File ""]> (fs w3)).
      apply wp_bind.
      eapply (wp_io_Copy_file _ _ _ cc "").
      { simpl. unfold m4. rewrite lookup_insert_ne by apply unknown_common.
        by rewrite Hfs3. }
      { simpl. apply lookup_insert_eq. }
      2:{ intros evs5 c e1 Hevs5 Hf Hc.
          apply wp_bind, wp_file_Close. intros r2.
          apply wp_bind, wp_file_Close. intros r3.
          apply wp_bind, wp_eprint, wp_exit. rewrite !upd_upd.
          eapply (fatal_intro_eq P inp w0)
            with (evs1 := [(Open (commonTempPath P), None);
                           (Create (unknownPath P), None)] ++ evs5)
                 (post := [(Close (unknownPath P), err_no <$> r2);
                           (Close (commonTempPath P), err_no <$> r3)])
                 (what := "copying to " +:+ unknownPath P);
            try done.
          - apply clean_succeeded. by repeat constructor.
          - repeat constructor; by eexists.
          - destruct Hc as [->|[d' ->]]; constructor.
          - left. simpl in Hf. rewrite <- Hf. f_equal. f_equal.
            by rewrite <- !(assoc_L (++)).
          - simpl. by rewrite <- !(assoc_L (++)). }
      intros evs5 Hevs5.
      apply wp_bind, wp_file_Close. intros r2.
      apply wp_bind, wp_file_Close. intros r3.
      apply wp_eprint. rewrite !upd_upd. simpl.
      split_and!; try done.
      * eexists. split; [by rewrite Htr3, <- !(assoc_L (++))|].
        apply clean_app; [done|]. simpl.
        constructor; [right; by left|]. constructor; [by right|].
        constructor; [by left|]. constructor; [by left|].
        apply clean_app; [by apply clean_succeeded|].
        constructor; [right; simpl; auto|]. constructor; [right; by left|constructor].
      * intros run Hrun. rewrite Hids in Hrun. set_solver.
      * by rewrite Herr3.
      * unfold m4. rewrite insert_insert_eq, lookup_insert_eq.
        by rewrite str_app_nil_l, Hcat.
      * intros p Hp1 Hp2. unfold m4. rewrite !lookup_insert_ne by done.
        rewrite Hfs3. by apply Hfr3.
Qed.

End Finish.

(** * [main] *)

Section Main.

Variable flags : cliFlags.
Variable w0 : world.

Local Abbreviation P := (derive_outPrefix flags).
Local Abbreviation inp := (input_path flags).

Hypothesis apart : input_apart P inp.

Lemma outputs_frame data inName w' m evs :
  Outputs P inp w0 data inName w' → clean P inp evs →
  (∀ p, p ≠ commonTempPath P → m !! p = fs w' !! p) →
  Outputs P inp w0 data inName (upd w' m evs).
Proof.
  intros (Henv & (evs0 & Htr & Hc0) & Hruns & Hrest) Hc Hm.
  split; [done|]. split.
  { exists (evs0 ++ evs). split; [|by apply clean_app].
    simpl. by rewrite Htr, (assoc_L (++)). }
  split.
  { intros run Hrun. simpl. rewrite Hm by apply runPath_common. by apply Hruns. }
  destruct (forallb is_global (lines_of data)).
  - destruct Hrest as (Herr & Hu & Hfr). split; [done|]. split.
    + simpl. rewrite Hm by apply unknown_common. done.
    + intros p Hp1 Hp2. simpl. rewrite Hm by done. by apply Hfr.
  - destruct Hrest as (Herr & Hfr). split; [done|].
    intros p Hp1 Hp2. simpl. rewrite Hm by done. by apply Hfr.
Qed.

(** The deferred calls of a run that went through. *)
Lemma wp_deferred data inName (opened : bool) w' :
  Outputs P inp w0 data inName w' →
  wp (file_Close (commonTempPath P);;
      os_Remove (commonTempPath P);;
      if opened then file_Close inp;; ret tt else ret tt) w'
    (fun _ w'' => Success P inp w0 data inName w'')
    (fatalE P inp w0).
Proof.
  intros Hout. pose proof Hout as (Henv & (evs0 & Htr & Hc0) & _).
  apply wp_bind, wp_file_Close. intros r1.
  assert (Hlast : ∀ w1, (Outputs P inp w0 data inName w1 ∧
             (fs w1 !! commonTempPath P = None ∨
              ∃ n e, trace w1 !! n = Some (Remove (commonTempPath P), Some e) ∧
                     faults w0 n = Some e)) →
            wp (if opened then file_Close inp;; ret tt else ret tt) w1
              (fun _ w'' => Success P inp w0 data inName w'') (fatalE P inp w0)).
  { intros w1 [Ho Hs]. destruct opened; [|by apply wp_ret].
    apply wp_bind, wp_file_Close. intros r2. apply wp_ret. split.
    - apply outputs_frame; [done| |done]. constructor; [|constructor].
      right. simpl. auto.
    - destruct Hs as [Hs|(n & e & Hn & Hf)]; [by left|right].
      exists n, e. split; [|done]. simpl. by apply lookup_app_l_Some. }
  apply wp_bind, wp_os_Remove.
  - intros Hf. apply Hlast. rewrite upd_upd. split.
    + apply outputs_frame; [done| |].
      * constructor; [right; by left|]. constructor; [by right|constructor].
      * intros p Hp. by rewrite lookup_delete_ne.
    + left. simpl. apply lookup_delete_eq.
  - intros e Hwhy. apply Hlast. rewrite upd_upd. split.
    + apply outputs_frame; [done| |done].
      constructor; [right; by left|]. constructor; [by right|constructor].
    + destruct Hwhy as [Hf|Hno]; [right|by left].
      exists (length (trace w' ++ [(Close (commonTempPath P), err_no <$> r1)])), e.
      split.
      * simpl. rewrite length_app. simpl.
        rewrite lookup_app_r by apply Nat.le_add_r. by rewrite Nat.add_sub'.
      * destruct Henv as (Hfa & _). simpl in Hf. by rewrite <- Hfa.
Qed.

Lemma wp_main :
  help flags = false →
  wp (main flags) w0
    (fun _ w' => ∃ data, fs w0 !! inp = Some (File data) ∧
                         Success P inp w0 data (input_name flags) w')
    (fatalE P inp w0).
Proof.
  intros Hhelp. unfold main. rewrite Hhelp.
  match goal with |- wp (_ ≫= ?k) _ _ _ => set (K := k) end.
  assert (HK : ∀ opened evs1, clean P inp evs1 →
            wp (K (inp, input_name flags, opened)) (upd w0 (fs w0) evs1)
              (fun _ w' => ∃ data, fs w0 !! inp = Some (File data) ∧
                           Success P inp w0 data (input_name flags) w')
              (fatalE P inp w0)).
  { intros opened evs1 Hc1. unfold K. cbv beta iota.
    apply wp_bind, wp_os_Create.
    2:{ intros e Hwhy. apply wp_bind, wp_eprint, wp_exit. rewrite upd_upd.
        eapply (fatal_intro_eq P inp w0) with (evs := []) (evs1 := evs1) (post := [])
          (what := "cannot create common temp file");
          try done; try (by constructor).
        - by rewrite app_nil_r.
        - destruct Hwhy as [Hf|Hd]; [left|by right].
          simpl in Hf. by rewrite length_app in *. }
    intros Hf Hnd. rewrite upd_upd. cbv beta iota. simpl fs.
    set (m2 := <[commonTempPath P := File ""]> (fs w0)).
    set (st0 := {| commonWriter := _; runOutputs := _; anyRunFound := _; bufReader := _ |}).
    set (w2 := upd w0 m2 _).
    assert (Hsh : Shape P inp w0 (Str.cat (filter (fun l => is_global l) [])) (ids [])
              (fun run => Str.cat (sink_spec run []))
              (negb (forallb is_global [])) (bufio.NewReader inp) st0 w2).
    { split; try done.
      - eexists. split; [done|]. apply clean_app; [done|].
        apply clean_succeeded. by repeat constructor.
      - unfold written, w2, m2. simpl. by rewrite lookup_insert_eq.
      - intros p Hp _. unfold w2, m2. simpl. by rewrite lookup_insert_ne. }
    assert (Hinp : fs w2 !! inp = fs w0 !! inp).
    { unfold w2, m2. simpl. rewrite lookup_insert_ne; [done|].
      destruct apart as [Ha _]. done. }
    apply wp_bind, wp_input_fuel. rewrite Hinp.
    destruct (fs w0 !! inp) as [[data|]|] eqn:Hdata.
    - apply wp_bind.
      eapply wp_mono; [apply (wp_read_loop P inp w0 data apart _ [])| |done].
      + split; [exact Hsh|]. split; [done|]. split; [done|]. done.
      + simpl. destruct data; simpl; lia.
      + intros st1 w3 HInv. cbv beta in HInv |- *.
        apply wp_bind.
        eapply wp_mono; [by apply (wp_finish P inp w0 data)| |done].
        intros u4 w4 Hout. cbv beta in Hout |- *.
        eapply wp_mono; [by apply wp_deferred| |done].
        intros u5 w5 Hs. cbv beta in Hs. by exists data.
    - apply wp_bind.
      eapply wp_mono; [eapply (wp_read_loop_nofile P inp w0 apart 0);
                         [exact Hsh|by rewrite Hdata]| |done].
      by intros ? ? [].
    - apply wp_bind.
      eapply wp_mono; [eapply (wp_read_loop_nofile P inp w0 apart 0);
                         [exact Hsh|by rewrite Hdata]| |done].
      by intros ? ? []. }
  apply wp_bind.
  destruct (decide (inputFile flags ≠ "")) as [Hin|Hin].
  - assert (Einp : inputFile flags = inp).
    { unfold input_path. by rewrite bool_decide_eq_true_2. }
    assert (Ename : filepath.Base (inputFile flags) = input_name flags).
    { unfold input_name. by rewrite bool_decide_eq_true_2. }
    rewrite bool_decide_eq_true_2 by done. rewrite Ename, Einp.
    apply wp_bind, wp_os_Open.
    + intros Hf Hex. apply wp_ret. apply (HK true).
      apply clean_succeeded. by repeat constructor.
    + intros e Hwhy. apply wp_bind, wp_eprint, wp_exit.
      eapply (fatal_intro_eq P inp w0) with (evs := []) (evs1 := []) (post := [])
        (what := "cannot open input file");
        try done; try (by constructor).
      * by rewrite app_nil_r.
      * destruct Hwhy as [Hf|Hd]; [left|by right]. by rewrite !app_nil_r.
  - assert (Einp : os_Stdin = inp).
    { unfold input_path. by rewrite bool_decide_eq_false_2. }
    assert (Ename : "stdin" = input_name flags).
    { unfold input_name. by rewrite bool_decide_eq_false_2. }
    rewrite bool_decide_eq_false_2 by done. rewrite Einp, Ename.
    apply wp_ret. pose proof (HK false [] (clean_nil P inp)) as H0.
    by rewrite upd_id in H0.
Qed.

End Main.

(** * The outcome of a run *)

Lemma wp_elim {A} (m : M A) w (Q : A → world → Prop) E a w' :
  wp m w Q E → m w = (Val a, w') → Q a w'.
Proof. unfold wp. intros H Heq. by rewrite Heq in H. Qed.

(** A run without [-h] ends with status 0 and its outputs, or with status 2
    after a fatal failure; it never runs out of fuel. *)
Lemma run_outcome flags w :
  help flags = false →
  input_apart (derive_outPrefix flags) (input_path flags) →
  (∃ w' data, run flags w = (Some 0, w') ∧
      fs w !! input_path flags = Some (File data) ∧
      Success (derive_outPrefix flags) (input_path flags) w data (input_name flags) w')
  ∨ (∃ w', run flags w = (Some 2, w') ∧
      Fatal (derive_outPrefix flags) (input_path flags) w w').
Proof.
  intros Hhelp Hapart. pose proof (wp_main flags w Hapart Hhelp) as Hwp.
  apply wp_inv in Hwp as [(u & w' & Heq & data & Hd & Hs)|(c & w' & Heq & -> & Hf)].
  - left. exists w', data. unfold run. by rewrite Heq.
  - right. exists w'. unfold run. by rewrite Heq.
Qed.

(** A fatal failure has a cause: a fault, an input that is no file, or an
    output path that is a directory. *)
Lemma fatal_cause P inp w w' :
  Fatal P inp w w' →
  (∃ n e, faults w n = Some e) ∨ (∀ d, fs w !! inp ≠ Some (File d)) ∨
  ¬ outputs_clear P w.
Proof.
  intros (pre & c & e & post & what & _ & _ & _ & Hd & _ & [Hf|Hn]).
  { left. eauto. }
  right. destruct Hd; simpl in Hn; try done.
  all: match type of Hn with
       | _ ∧ _ =>
           destruct Hn as [Heq Hn]; left; intros d; try rewrite <- Heq;
           first [by rewrite Hn | by apply Hn]
       | _ => right; intros (Hc & Hu & Hr); first [done | by eapply Hr]
       end.
Qed.

(** In an environment without faults, with the input a file and no output
    path a directory, the run ends with status 0. *)
Lemma run_succeeds flags w data :
  help flags = false →
  input_apart (derive_outPrefix flags) (input_path flags) →
  fs w !! input_path flags = Some (File data) →
  fault_free w → outputs_clear (derive_outPrefix flags) w →
  ∃ w', run flags w = (Some 0, w') ∧
        Success (derive_outPrefix flags) (input_path flags) w data (input_name flags) w'.
Proof.
  intros Hhelp Hapart Hdata Hff Hclear.
  destruct (run_outcome flags w Hhelp Hapart) as [(w' & d & Heq & Hd & Hs)|(w' & _ & Hf)].
  - exists w'. rewrite Hdata in Hd. injection Hd as <-. done.
  - apply fatal_cause in Hf as [(n & e & Hn)|[Hno|Hno]].
    + by rewrite Hff in Hn.
    + by specialize (Hno data).
    + done.
Qed.

(** What a successful run says, whatever its world. *)
Lemma run_success_inv flags w w' data :
  help flags = false →
  input_apart (derive_outPrefix flags) (input_path flags) →
  fs w !! input_path flags = Some (File data) →
  run flags w = (Some 0, w') →
  Success (derive_outPrefix flags) (input_path flags) w data (input_name flags) w'.
Proof.
  intros Hhelp Hapart Hdata Hrun.
  destruct (run_outcome flags w Hhelp Hapart) as [(w1 & d & Heq & Hd & Hs)|(w1 & Heq & _)].
  - rewrite Hrun in Heq. injection Heq as <-. rewrite Hdata in Hd.
    by injection Hd as <-.
  - by rewrite Hrun in Heq.
Qed.

(** * The states of the scan *)

Lemma ReadString_ok b w rd' line err w1 :
  bufio.ReadString b Str.newline w = (Val (rd', line, err), w1) →
  (∀ e, err ≠ bufio.ReadError e) →
  w1 = upd w (fs w) [(Read (bufio.rd b), None)] ∧
  faults w (length (trace w)) = None.
Proof.
  unfold bufio.ReadString, mbind, proc_bind, bind, file_Read.
  destruct (faults w (length (trace w))) as [e|] eqn:Hf.
  { simpl. intros [= <- <- <- <-] H. by specialize (H {| err_call := Read (bufio.rd b); err_no := e |}). }
  destruct (fs w !! bufio.rd b) as [[d|]|] eqn:Hd.
  - destruct (bufio.cut _ _) as [[l r]|]; simpl; by intros [= <- <- <- <-] _.
  - simpl. intros [= <- <- <- <-] H. by specialize (H {| err_call := Read (bufio.rd b); err_no := EISDIR |}).
  - simpl. intros [= <- <- <- <-] H. by specialize (H {| err_call := Read (bufio.rd b); err_no := EBADF |}).
Qed.

Lemma shape_start P inp w0 w1 :
  os_Create (commonTempPath P) w0 = (Val None, w1) →
  Shape P inp w0 "" ∅ (fun run => Str.cat (sink_spec run [])) false
    (bufio.NewReader inp) (init_locals P inp) w1.
Proof.
  intros Hc.
  assert (Hwp : wp (os_Create (commonTempPath P)) w0
            (fun r w' => r = None →
               Shape P inp w0 "" ∅ (fun run => Str.cat (sink_spec run [])) false
                 (bufio.NewReader inp) (init_locals P inp) w')
            (fun _ _ => True)).
  { apply wp_os_Create; [|done].
    intros Hf Hnd _. split; try done.
    - eexists. split; [done|]. apply clean_succeeded. by repeat constructor.
    - unfold written. simpl. by rewrite lookup_insert_eq.
    - intros p Hp _. simpl. by rewrite lookup_insert_ne. }
  by apply (wp_elim _ _ _ _ _ _ Hwp Hc).
Qed.

(** Every state of the scan has the shape of the invariant. *)
Lemma scanning_shape P inp w0 ls st w :
  scanning P inp w0 ls st w →
  Shape P inp w0 (Str.cat (filter (fun l => is_global l) ls)) (ids ls)
    (fun run => Str.cat (sink_spec run ls))
    (negb (forallb is_global ls)) (bufReader st) st w.
Proof.
  induction 1 as [w1 Hc|ls st w rd' line err w1 st' w' _ IH Hread Herr Hroute].
  - by apply shape_start.
  - apply ReadString_ok in Hread as [-> Hf].
    2:{ intros e ->. destruct Herr as [?|[? _]]; done. }
    pose proof (shape_read P inp w0 _ _ _ _ _ _ _ rd'
                  (bufio.rd (bufReader st)) IH Hf) as Hsh1.
    pose proof (wp_route_line P inp w0 _ _ _ _ (terminate_line line) Hsh1) as Hwp.
    pose proof (wp_elim _ _ _ _ _ _ Hwp Hroute) as Hsh2. simpl in Hsh2.
    by rewrite (sh_reader _ _ _ _ _ _ _ _ _ _ Hsh2).
Qed.

(** * The properties of the specification *)

(** C1: on a run that ends with status 0, for every run identifier [R] found
    in the input, the file [P.run_R.log] holds, in order, the lines without
    token that come before the first line tagged [R], then every line from
    that one on that has no token or is tagged [R]; and in an environment
    without faults, where no output path is a directory, the run does end
    with status 0. *)
Theorem C1_sink_content flags w data :
  help flags = false →
  input_apart (derive_outPrefix flags) (input_path flags) →
  fs w !! input_path flags = Some (File data) →
  (∀ w' R, run flags w = (Some 0, w') → R ∈ ids (lines_of data) →
     ∃ i l, lines_of data !! i = Some l ∧ R ∈ scan l ∧
       (∀ j l', lines_of data !! j = Some l' → j < i → R ∉ scan l') ∧
       fs w' !! runPath (derive_outPrefix flags) R =
       Some (File (Str.cat
         (filter (fun l => is_global l) (take i (lines_of data)) ++
          filter (fun l => is_global l ∨ R ∈ scan l) (drop i (lines_of data)))))) ∧
  (fault_free w → outputs_clear (derive_outPrefix flags) w →
     ∃ w', run flags w = (Some 0, w')).
Proof.
  intros Hhelp Hapart Hdata. split.
  - intros w' R Hrun HR.
    pose proof (run_success_inv _ _ _ _ Hhelp Hapart Hdata Hrun) as [(_ & _ & Hruns & _) _].
    specialize (Hruns R HR). unfold sink_spec in Hruns.
    destruct (sink_find_Some _ _ HR) as (i & l & Hfind & _).
    rewrite Hfind in Hruns. apply list_find_Some in Hfind as (Hi & Hl & Hmin).
    exists i, l. split_and!; try done.
  - intros Hff Hclear.
    destruct (run_succeeds _ _ _ Hhelp Hapart Hdata Hff Hclear) as (w' & Hrun & _).
    eauto.
Qed.

Lemma C1_witness :
  (run (stdin_flags "X") ex3_world).1 = Some 0 ∧
  fs (run (stdin_flags "X") ex3_world).2 !! "X.run_5.log"
    = Some (File ("a" +:+ nl +:+ "ptp4l.5.config: b" +:+ nl +:+ "c" +:+ nl)) ∧
  help (stdin_flags "X") = false ∧
  input_apart (derive_outPrefix (stdin_flags "X")) (input_path (stdin_flags "X")) ∧
  fs ex3_world !! input_path (stdin_flags "X") = Some (File ex3_input) ∧
  ((∀ w' R, run (stdin_flags "X") ex3_world = (Some 0, w') →
     R ∈ ids (lines_of ex3_input) →
     ∃ i l, lines_of ex3_input !! i = Some l ∧ R ∈ scan l ∧
       (∀ j l', lines_of ex3_input !! j = Some l' → j < i → R ∉ scan l') ∧
       fs w' !! runPath (derive_outPrefix (stdin_flags "X")) R =
       Some (File (Str.cat
         (filter (fun l => is_global l) (take i (lines_of ex3_input)) ++
          filter (fun l => is_global l ∨ R ∈ scan l) (drop i (lines_of ex3_input)))))) ∧
   (fault_free ex3_world → outputs_clear (derive_outPrefix (stdin_flags "X")) ex3_world →
     ∃ w', run (stdin_flags "X") ex3_world = (Some 0, w'))).
Proof.
  split; [vm_compute; reflexivity|].
  split; [vm_compute; reflexivity|].
  assert (H1 : help (stdin_flags "X") = false) by reflexivity.
  assert (H2 : input_apart (derive_outPrefix (stdin_flags "X"))
                 (input_path (stdin_flags "X"))).
  { split; [intros H; vm_compute in H; discriminate H|].
    intros r H. vm_compute in H. discriminate H. }
  assert (H3 : fs ex3_world !! input_path (stdin_flags "X") = Some (File ex3_input))
    by (vm_compute; reflexivity).
  split; [exact H1|]. split; [exact H2|]. split; [exact H3|].
  exact (C1_sink_content (stdin_flags "X") ex3_world ex3_input H1 H2 H3).
Defined.

(** C2, as the code has it: on a run that ends with status 0 on an input
    without any token, [P.run_unknown.log] holds the lines of the input in
    their order, each as it was read except that a last line without
    newline gets one: the file is the input when the input is empty or ends
    with a newline, and the input followed by a newline otherwise. *)
Theorem C2_fallback_content flags w data :
  help flags = false →
  input_apart (derive_outPrefix flags) (input_path flags) →
  fs w !! input_path flags = Some (File data) →
  ids (lines_of data) = ∅ →
  (∀ w', run flags w = (Some 0, w') →
     fs w' !! unknownPath (derive_outPrefix flags) = Some (File (Str.cat (lines_of data))) ∧
     lines_of data = terminate_line <$> split_lines data ∧
     Str.cat (split_lines data) = data ∧
     Str.cat (lines_of data) =
       (if bool_decide (data = "" ∨ Str.last_byte data = Some Str.newline)
        then data else data +:+ nl)) ∧
  (fault_free w → outputs_clear (derive_outPrefix flags) w →
     ∃ w', run flags w = (Some 0, w')).
Proof.
  intros Hhelp Hapart Hdata Hids. split.
  - intros w' Hrun.
    pose proof (run_success_inv _ _ _ _ Hhelp Hapart Hdata Hrun) as [(_ & _ & _ & Hrest) _].
    apply ids_empty_global in Hids. rewrite Hids in Hrest.
    destruct Hrest as (_ & Hu & _). split_and!; try done.
    + apply cat_split_lines.
    + apply cat_lines_of.
  - intros Hff Hclear.
    destruct (run_succeeds _ _ _ Hhelp Hapart Hdata Hff Hclear) as (w' & Hrun & _).
    eauto.
Qed.

Lemma C2_witness :
  (run (stdin_flags "X") open_line_world).1 = Some 0 ∧
  help (stdin_flags "X") = false ∧
  input_apart (derive_outPrefix (stdin_flags "X")) (input_path (stdin_flags "X")) ∧
  fs open_line_world !! input_path (stdin_flags "X") = Some (File "a") ∧
  ids (lines_of "a") = ∅ ∧
  ((∀ w', run (stdin_flags "X") open_line_world = (Some 0, w') →
     fs w' !! unknownPath (derive_outPrefix (stdin_flags "X")) =
       Some (File (Str.cat (lines_of "a"))) ∧
     lines_of "a" = terminate_line <$> split_lines "a" ∧
     Str.cat (split_lines "a") = "a" ∧
     Str.cat (lines_of "a") =
       (if bool_decide ("a" = "" ∨ Str.last_byte "a" = Some Str.newline)
        then "a" else "a" +:+ nl)) ∧
   (fault_free open_line_world →
    outputs_clear (derive_outPrefix (stdin_flags "X")) open_line_world →
     ∃ w', run (stdin_flags "X") open_line_world = (Some 0, w'))).
Proof.
  split; [vm_compute; reflexivity|].
  assert (H1 : help (stdin_flags "X") = false) by reflexivity.
  assert (H2 : input_apart (derive_outPrefix (stdin_flags "X"))
                 (input_path (stdin_flags "X"))).
  { split; [intros H; vm_compute in H; discriminate H|].
    intros r H. vm_compute in H. discriminate H. }
  assert (H3 : fs open_line_world !! input_path (stdin_flags "X") = Some (File "a"))
    by (vm_compute; reflexivity).
  assert (H4 : ids (lines_of "a") = ∅) by (vm_compute; reflexivity).
  split; [exact H1|]. split; [exact H2|]. split; [exact H3|]. split; [exact H4|].
  exact (C2_fallback_content (stdin_flags "X") open_line_world "a" H1 H2 H3 H4).
Defined.

(** The fallback file is not the input byte for byte: for the input [a],
    a single line without newline, the run ends with status 0 and the file
    is [a] followed by a newline. *)
Lemma C2_counterexample :
  (run (stdin_flags "X") open_line_world).1 = Some 0 ∧
  fs open_line_world !! input_path (stdin_flags "X") = Some (File "a") ∧
  fs (run (stdin_flags "X") open_line_world).2
    !! unknownPath (derive_outPrefix (stdin_flags "X")) = Some (File ("a" +:+ nl)) ∧
  ¬ fallback_verbatim (stdin_flags "X") open_line_world.
Proof.
  assert (H3 : fs open_line_world !! input_path (stdin_flags "X") = Some (File "a"))
    by (vm_compute; reflexivity).
  split_and!; [vm_compute; reflexivity|exact H3|vm_compute; reflexivity|].
  intros H.
  specialize (H "a" (run (stdin_flags "X") open_line_world).2).
  assert (H4 : ids (lines_of "a") = ∅) by (vm_compute; reflexivity).
  assert (H5 : run (stdin_flags "X") open_line_world
               = (Some 0, (run (stdin_flags "X") open_line_world).2)).
  { rewrite (surjective_pairing (run (stdin_flags "X") open_line_world)) at 1.
    f_equal. }
  specialize (H H3 H4 H5). vm_compute in H. discriminate H.
Qed.

(** ** The states of the loop of [main] are scanning states *)

Lemma loop_step_scanning P inp w0 ls st w l st' w' :
  scanning P inp w0 ls st w →
  loop_step P st w = Some (l, st', w') →
  scanning P inp w0 (ls ++ [l]) st' w'.
Proof.
  intros Hsc. unfold loop_step.
  destruct (bufio.ReadString (bufReader st) Str.newline w)
    as [[[[rd line] err]|c|] w1] eqn:Hread; [|done..].
  destruct (route_line P (terminate_line line) (set_bufReader st rd) w1)
    as [[st2|c|] w2] eqn:Hroute.
  - destruct err as [| |e].
    + intros [= <- <- <-]. eapply scan_step; [done|done|by left|done].
    + destruct (String.length line =? 0) eqn:Hlen; [done|].
      intros [= <- <- <-]. eapply scan_step; [done|done| |done].
      right. split; [done|]. intros ->. done.
    + done.
  - destruct err as [| |e]; [done| |done]. by destruct (String.length line =? 0).
  - destruct err as [| |e]; [done| |done]. by destruct (String.length line =? 0).
Qed.

Lemma loop_steps_scanning P inp w0 n : ∀ s s',
  scanning P inp w0 s.1.1 s.1.2 s.2 →
  loop_steps P n s = Some s' →
  scanning P inp w0 s'.1.1 s'.1.2 s'.2.
Proof.
  induction n as [|n IH]; intros s s' Hsc; simpl.
  - by intros [= <-].
  - destruct (loop_step P s.1.2 s.2) as [[[l st1] w1]|] eqn:Hstep; [|done].
    intros Hrest. apply (IH (s.1.1 ++ [l], st1, w1)); [|done].
    simpl. by eapply loop_step_scanning.
Qed.

(** The loop of [main] goes through scanning states only: when it ends,
    the state it leaves is a scanning state that holds the lines routed,
    or such a state after the read that found the input at its end. *)
Lemma read_loop_scanning P inp w0 fuel : ∀ ls st w st' w',
  scanning P inp w0 ls st w →
  read_loop P fuel st w = (Val st', w') →
  ∃ ls' st1 w1, scanning P inp w0 (ls ++ ls') st1 w1 ∧
    ((st' = st1 ∧ w' = w1) ∨
     (∃ rd, bufio.ReadString (bufReader st1) Str.newline w1
              = (Val (rd, EmptyString, bufio.EOF), w') ∧
            st' = set_bufReader st1 rd)).
Proof.
  induction fuel as [|fuel IH]; intros ls st w st' w' Hsc; [done|].
  simpl. unfold mbind, proc_bind, bind.
  destruct (bufio.ReadString (bufReader st) Str.newline w)
    as [[[[rd line] err]|c|] w1] eqn:Hread; [|done..].
  destruct err as [| |e].
  - destruct (route_line P (terminate_line line) (set_bufReader st rd) w1)
      as [[st2|c|] w2] eqn:Hroute; [|done..].
    intros Hloop.
    assert (Hsc2 : scanning P inp w0 (ls ++ [terminate_line line]) st2 w2).
    { eapply scan_step; [done|done|by left|done]. }
    destruct (IH _ _ _ _ _ Hsc2 Hloop) as (ls' & st1 & w1' & Hsc' & Hend).
    exists ([terminate_line line] ++ ls'), st1, w1'.
    by rewrite (assoc_L (++)).
  - destruct (String.length line =? 0) eqn:Hlen.
    + intros [= <- <-]. exists [], st, w. rewrite app_nil_r. split; [done|].
      right. exists rd. split; [|done].
      apply Nat.eqb_eq, str_length_zero in Hlen. by rewrite <- Hlen.
    + intros Hroute. exists [terminate_line line], st', w'. split; [|by left].
      eapply scan_step; [done|done| |done].
      right. split; [done|]. intros ->. done.
  - done.
Qed.

(** C3: in every state of the scan the Common Buffer (the scratch file and
    the bytes its writer still holds) is exactly the lines seen so far
    without token, in their order; routing a line with a token leaves it
    unchanged; and the sink of a run holds no line that has a token but not
    that of the run, whenever the run is first seen. *)
Theorem C3_common_buffer P inp w0 ls st w :
  scanning P inp w0 ls st w →
  written (fs w) (commonWriter st)
    = Some (Str.cat (filter (fun l => is_global l) ls)) ∧
  (∀ line st' w', is_global line = false →
     route_line P line st w = (Val st', w') →
     written (fs w') (commonWriter st') = written (fs w) (commonWriter st)) ∧
  (∀ R ro, runOutputs st !! R = Some ro →
     written (fs w) (writer ro) = Some (Str.cat (sink_spec R ls)) ∧
     ∀ l, l ∈ ls → is_global l = false → R ∉ scan l → l ∉ sink_spec R ls).
Proof.
  intros Hscan. pose proof (scanning_shape _ _ _ _ _ _ Hscan) as Hsh.
  split; [by apply (sh_common _ _ _ _ _ _ _ _ _ _ Hsh)|]. split.
  - intros line st' w' Hg Hroute.
    pose proof (wp_elim _ _ _ _ _ _ (wp_route_line P inp w0 _ _ _ _ line Hsh) Hroute) as Hsh'.
    rewrite (sh_common _ _ _ _ _ _ _ _ _ _ Hsh), (sh_common _ _ _ _ _ _ _ _ _ _ Hsh').
    by rewrite filter_global_snoc, Hg, app_nil_r.
  - intros R ro Hro.
    destruct (sh_runs _ _ _ _ _ _ _ _ _ _ Hsh _ _ Hro) as (_ & _ & Hw).
    split; [done|]. intros l Hl Hg HR Hin.
    apply sink_spec_sub in Hin as (_ & [Hg'|HR']); [by rewrite Hg in Hg'|done].
Qed.

Lemma C3_witness :
  loop_steps "X" 4 mixed_start = Some mixed_state ∧
  mixed_state.1.1 = ["boot" +:+ nl; "ptp4l.1.config: hello" +:+ nl;
                     "phc2sys.2.config: world" +:+ nl; "global line" +:+ nl] ∧
  dom (runOutputs mixed_state.1.2) = {["1"; "2"]} ∧
  written (fs mixed_state.2) (commonWriter mixed_state.1.2)
    = Some ("boot" +:+ nl +:+ "global line" +:+ nl) ∧
  (writer <$> runOutputs mixed_state.1.2 !! "2") ≫= written (fs mixed_state.2)
    = Some ("boot" +:+ nl +:+ "phc2sys.2.config: world" +:+ nl
            +:+ "global line" +:+ nl) ∧
  scanning "X" os_Stdin mixed_world mixed_state.1.1 mixed_state.1.2 mixed_state.2 ∧
  (written (fs mixed_state.2) (commonWriter mixed_state.1.2)
     = Some (Str.cat (filter (fun l => is_global l) mixed_state.1.1)) ∧
   (∀ line st' w', is_global line = false →
      route_line "X" line mixed_state.1.2 mixed_state.2 = (Val st', w') →
      written (fs w') (commonWriter st')
      = written (fs mixed_state.2) (commonWriter mixed_state.1.2)) ∧
   (∀ R ro, runOutputs mixed_state.1.2 !! R = Some ro →
      written (fs mixed_state.2) (writer ro)
        = Some (Str.cat (sink_spec R mixed_state.1.1)) ∧
      ∀ l, l ∈ mixed_state.1.1 → is_global l = false → R ∉ scan l →
           l ∉ sink_spec R mixed_state.1.1)).
Proof.
  assert (H0 : loop_steps "X" 4 mixed_start = Some mixed_state)
    by (vm_compute; reflexivity).
  assert (H1 : scanning "X" os_Stdin mixed_world
                 mixed_state.1.1 mixed_state.1.2 mixed_state.2).
  { apply (loop_steps_scanning "X" os_Stdin mixed_world 4 mixed_start mixed_state);
      [|exact H0].
    apply scan_start. vm_compute. reflexivity. }
  split; [exact H0|].
  split; [vm_compute; reflexivity|]. split; [vm_compute; reflexivity|].
  split; [vm_compute; reflexivity|]. split; [vm_compute; reflexivity|].
  split; [exact H1|].
  exact (C3_common_buffer "X" os_Stdin mixed_world _ _ _ H1).
Defined.

(** C4: on every line the scanner returns the set of the digit groups of the
    successive leftmost matches of the pattern that do not overlap; a match
    is a text [ident.digits.config] between word boundaries; the identifiers
    are the digits as they stand ([01] is not [1]); and a middle part that
    is not made of digits gives no identifier. *)
Theorem C4_token_scanner line :
  (∃ ms, tokens_from None line ms ∧
         (∀ ms', tokens_from None line ms' → ms' = ms) ∧
         matches_of line = as_match <$> ms ∧
         scan line = list_to_set (ms.*2) ∧
         (is_global line = true ↔ ms = [])) ∧
  (∀ R, R ∈ scan line → R ≠ "" ∧ all_bytes is_digit R = true) ∧
  (is_global line = true ↔ scan line = ∅) ∧
  (∀ prev s p' s' c,
     re_matches runTokenPattern prev s p' s' c ↔
     ∃ ident digits, token_at prev s ident digits s' ∧ c = [digits] ∧
                     p' = Some "g"%char) ∧
  (tagged "01" ("ptp4l.01.config: up" +:+ nl) = true ∧
   tagged "1" ("ptp4l.01.config: up" +:+ nl) = false ∧
   tagged "1" ("ptp4l.1.config: up" +:+ nl) = true) ∧
  (is_global ("ptp4l.abc.config: up" +:+ nl) = true ∧
   scan ("ptp4l.abc.config: up" +:+ nl) = ∅).
Proof.
  split_and!.
  - destruct (matches_of_tokens line) as (ms & Hms & Heq).
    exists ms. split_and!; try done.
    + intros ms' H'. by apply (tokens_from_unique _ _ _ H').
    + by apply scan_tokens.
    + rewrite (is_global_tokens _ _ Hms). apply bool_decide_eq_true.
  - apply scan_digits.
  - apply is_global_scan.
  - intros prev s p' s' c. split.
    + apply pattern_sound.
    + intros (i & d & Ht & -> & ->). by eapply pattern_complete.
  - vm_compute. done.
  - vm_compute. done.
  - vm_compute. done.
  - vm_compute. done.
  - apply is_global_scan. vm_compute. done.
Qed.

(** C5: when a line that names two or more distinct runs is routed, every
    run on it gets the line once, at the end of what its sink held (a sink
    opened by this line is first seeded with the Common Buffer); the sinks
    of the other runs and the Common Buffer are unchanged, no other sink is
    opened, and the run is marked as having runs, so that no fallback file
    is written. *)
Theorem C5_two_runs P inp w0 ls st w line st' w' R1 R2 :
  scanning P inp w0 ls st w →
  R1 ∈ scan line → R2 ∈ scan line → R1 ≠ R2 →
  route_line P line st w = (Val st', w') →
  (∀ R, R ∈ scan line →
     ∃ ro' before, runOutputs st' !! R = Some ro' ∧
       written (fs w') (writer ro') = Some (before +:+ line) ∧
       match runOutputs st !! R with
       | Some ro => written (fs w) (writer ro) = Some before
       | None => written (fs w) (commonWriter st) = Some before
       end) ∧
  (∀ R ro, R ∉ scan line → runOutputs st !! R = Some ro →
     ∃ ro', runOutputs st' !! R = Some ro' ∧
       written (fs w') (writer ro') = written (fs w) (writer ro)) ∧
  dom (runOutputs st') = dom (runOutputs st) ∪ scan line ∧
  written (fs w') (commonWriter st') = written (fs w) (commonWriter st) ∧
  anyRunFound st' = true.
Proof.
  intros Hscan HR1 HR2 Hne Hroute.
  pose proof (scanning_shape _ _ _ _ _ _ Hscan) as Hsh.
  pose proof (wp_elim _ _ _ _ _ _ (wp_route_line P inp w0 _ _ _ _ line Hsh) Hroute) as Hsh'.
  assert (Hg : is_global line = false).
  { apply is_global_false_scan. set_solver. }
  pose proof (sh_dom _ _ _ _ _ _ _ _ _ _ Hsh) as Hdom.
  pose proof (sh_dom _ _ _ _ _ _ _ _ _ _ Hsh') as Hdom'.
  rewrite ids_snoc in Hdom'.
  split_and!.
  - intros R HR.
    assert (is_Some (runOutputs st' !! R)) as [ro' Hro'].
    { apply elem_of_dom. rewrite Hdom'. set_solver. }
    destruct (sh_runs _ _ _ _ _ _ _ _ _ _ Hsh' _ _ Hro') as (_ & _ & Hw').
    destruct (runOutputs st !! R) as [ro|] eqn:Hro.
    + destruct (sh_runs _ _ _ _ _ _ _ _ _ _ Hsh _ _ Hro) as (_ & _ & Hw).
      exists ro', (Str.cat (sink_spec R ls)). split_and!; try done.
      rewrite Hw'. rewrite sink_spec_snoc_seen.
      * rewrite decide_True by by right. by rewrite cat_snoc.
      * rewrite <- Hdom. apply elem_of_dom. eauto.
    + exists ro', (Str.cat (filter (fun l => is_global l) ls)). split_and!; try done.
      * rewrite Hw'. rewrite sink_spec_snoc_new; [by rewrite cat_snoc| |done].
        rewrite <- Hdom. by apply not_elem_of_dom.
      * apply (sh_common _ _ _ _ _ _ _ _ _ _ Hsh).
  - intros R ro HR Hro.
    assert (HRin : R ∈ ids ls) by (rewrite <- Hdom; apply elem_of_dom; eauto).
    assert (is_Some (runOutputs st' !! R)) as [ro' Hro'].
    { apply elem_of_dom. rewrite Hdom'. set_solver. }
    exists ro'. split; [done|].
    destruct (sh_runs _ _ _ _ _ _ _ _ _ _ Hsh' _ _ Hro') as (_ & _ & ->).
    destruct (sh_runs _ _ _ _ _ _ _ _ _ _ Hsh _ _ Hro) as (_ & _ & ->).
    rewrite sink_spec_snoc_seen by done. rewrite decide_False; [by rewrite app_nil_r|].
    rewrite Hg. intros [?|?]; done.
  - by rewrite Hdom', Hdom.
  - rewrite (sh_common _ _ _ _ _ _ _ _ _ _ Hsh), (sh_common _ _ _ _ _ _ _ _ _ _ Hsh').
    by rewrite filter_global_snoc, Hg, app_nil_r.
  - rewrite (sh_any _ _ _ _ _ _ _ _ _ _ Hsh'), forallb_snoc, Hg.
    by rewrite andb_false_r.
Qed.

Lemma C5_witness :
  let w1 := (os_Create (commonTempPath "X") two_run_world).2 in
  let r := route_line "X" two_run_line (init_locals "X" os_Stdin) w1 in
  let st' := val_or (init_locals "X" os_Stdin) r.1 in
  scanning "X" os_Stdin two_run_world [] (init_locals "X" os_Stdin) w1 ∧
  "1" ∈ scan two_run_line ∧ "2" ∈ scan two_run_line ∧ "1" ≠ "2" ∧
  r = (Val st', r.2) ∧
  ((∀ R, R ∈ scan two_run_line →
     ∃ ro' before, runOutputs st' !! R = Some ro' ∧
       written (fs r.2) (writer ro') = Some (before +:+ two_run_line) ∧
       match runOutputs (init_locals "X" os_Stdin) !! R with
       | Some ro => written (fs w1) (writer ro) = Some before
       | None => written (fs w1) (commonWriter (init_locals "X" os_Stdin)) = Some before
       end) ∧
   (∀ R ro, R ∉ scan two_run_line →
      runOutputs (init_locals "X" os_Stdin) !! R = Some ro →
      ∃ ro', runOutputs st' !! R = Some ro' ∧
        written (fs r.2) (writer ro') = written (fs w1) (writer ro)) ∧
   dom (runOutputs st') = dom (runOutputs (init_locals "X" os_Stdin)) ∪ scan two_run_line ∧
   written (fs r.2) (commonWriter st')
     = written (fs w1) (commonWriter (init_locals "X" os_Stdin)) ∧
   anyRunFound st' = true).
Proof.
  intros w1 r st'.
  assert (H1 : scanning "X" os_Stdin two_run_world [] (init_locals "X" os_Stdin) w1).
  { apply scan_start. vm_compute. reflexivity. }
  assert (H2 : "1" ∈ scan two_run_line).
  { apply (bool_decide_unpack _). vm_compute. exact I. }
  assert (H3 : "2" ∈ scan two_run_line).
  { apply (bool_decide_unpack _). vm_compute. exact I. }
  assert (H4 : "1" ≠ "2") by discriminate.
  assert (H5 : r = (Val st', r.2)) by (vm_compute; reflexivity).
  split; [exact H1|]. split; [exact H2|]. split; [exact H3|]. split; [exact H4|].
  split; [exact H5|].
  exact (C5_two_runs "X" os_Stdin two_run_world [] _ w1 two_run_line st' r.2 "1" "2"
           H1 H2 H3 H4 H5).
Defined.

(** C6: on a run that ends with status 0 on an input with at least one
    token, [P.run_unknown.log] is left as it was, every run identifier
    found has its file [P.run_R.log], the file of any other identifier is
    left as it was, distinct identifiers have distinct files, and nothing
    is printed on stderr. *)
Theorem C6_run_files flags w data :
  help flags = false →
  input_apart (derive_outPrefix flags) (input_path flags) →
  fs w !! input_path flags = Some (File data) →
  ids (lines_of data) ≠ ∅ →
  (∀ w', run flags w = (Some 0, w') →
     fs w' !! unknownPath (derive_outPrefix flags)
       = fs w !! unknownPath (derive_outPrefix flags) ∧
     (∀ R, R ∈ ids (lines_of data) →
        ∃ d, fs w' !! runPath (derive_outPrefix flags) R = Some (File d)) ∧
     (∀ R, R ∉ ids (lines_of data) →
        fs w' !! runPath (derive_outPrefix flags) R
          = fs w !! runPath (derive_outPrefix flags) R) ∧
     (∀ R R', runPath (derive_outPrefix flags) R = runPath (derive_outPrefix flags) R' →
        R = R') ∧
     stderr w' = stderr w) ∧
  (fault_free w → outputs_clear (derive_outPrefix flags) w →
     ∃ w', run flags w = (Some 0, w')).
Proof.
  intros Hhelp Hapart Hdata Hids. split.
  - intros w' Hrun.
    pose proof (run_success_inv _ _ _ _ Hhelp Hapart Hdata Hrun) as [(_ & _ & Hruns & Hrest) _].
    destruct (forallb is_global (lines_of data)) eqn:Hg.
    { by apply ids_empty_global in Hg. }
    destruct Hrest as (Herr & Hfr). split_and!; try done.
    + apply Hfr; [apply unknown_common|].
      intros R HR Heq. apply elem_of_ids in HR as (l & _ & HR).
      apply scan_digits in HR as [_ HR].
      by apply (runPath_unknown (derive_outPrefix flags) R HR).
    + intros R HR. eauto.
    + intros R HR. apply Hfr; [apply runPath_common|].
      intros R' HR' ?%runPath_inj. by subst.
    + apply runPath_inj.
  - intros Hff Hclear.
    destruct (run_succeeds _ _ _ Hhelp Hapart Hdata Hff Hclear) as (w' & Hrun & _).
    eauto.
Qed.

Lemma C6_witness :
  (run (stdin_flags "X") ex1_world).1 = Some 0 ∧
  fs (run (stdin_flags "X") ex1_world).2 !! "X.run_unknown.log" = None ∧
  fs (run (stdin_flags "X") ex1_world).2 !! "X.run_1.log"
    = Some (File ("ptp4l.1.config: hello" +:+ nl +:+ "global line" +:+ nl)) ∧
  fs (run (stdin_flags "X") ex1_world).2 !! "X.run_2.log"
    = Some (File ("phc2sys.2.config: world" +:+ nl +:+ "global line" +:+ nl)) ∧
  help (stdin_flags "X") = false ∧
  input_apart (derive_outPrefix (stdin_flags "X")) (input_path (stdin_flags "X")) ∧
  fs ex1_world !! input_path (stdin_flags "X") = Some (File ex1_input) ∧
  ids (lines_of ex1_input) ≠ ∅ ∧
  ((∀ w', run (stdin_flags "X") ex1_world = (Some 0, w') →
     fs w' !! unknownPath (derive_outPrefix (stdin_flags "X"))
       = fs ex1_world !! unknownPath (derive_outPrefix (stdin_flags "X")) ∧
     (∀ R, R ∈ ids (lines_of ex1_input) →
        ∃ d, fs w' !! runPath (derive_outPrefix (stdin_flags "X")) R = Some (File d)) ∧
     (∀ R, R ∉ ids (lines_of ex1_input) →
        fs w' !! runPath (derive_outPrefix (stdin_flags "X")) R
          = fs ex1_world !! runPath (derive_outPrefix (stdin_flags "X")) R) ∧
     (∀ R R', runPath (derive_outPrefix (stdin_flags "X")) R
              = runPath (derive_outPrefix (stdin_flags "X")) R' → R = R') ∧
     stderr w' = stderr ex1_world) ∧
   (fault_free ex1_world → outputs_clear (derive_outPrefix (stdin_flags "X")) ex1_world →
     ∃ w', run (stdin_flags "X") ex1_world = (Some 0, w'))).
Proof.
  split; [vm_compute; reflexivity|].
  split; [vm_compute; reflexivity|].
  split; [vm_compute; reflexivity|].
  split; [vm_compute; reflexivity|].
  assert (H1 : help (stdin_flags "X") = false) by reflexivity.
  assert (H2 : input_apart (derive_outPrefix (stdin_flags "X"))
                 (input_path (stdin_flags "X"))).
  { split; [intros H; vm_compute in H; discriminate H|].
    intros r H. vm_compute in H. discriminate H. }
  assert (H3 : fs ex1_world !! input_path (stdin_flags "X") = Some (File ex1_input))
    by (vm_compute; reflexivity).
  assert (H4 : ids (lines_of ex1_input) ≠ ∅).
  { intros H. assert (Hin : "1" ∈ ids (lines_of ex1_input)).
    { apply (bool_decide_unpack _). vm_compute. exact I. }
    rewrite H in Hin. exact (not_elem_of_empty (C := gset string) "1" Hin). }
  split; [exact H1|]. split; [exact H2|]. split; [exact H3|]. split; [exact H4|].
  exact (C6_run_files (stdin_flags "X") ex1_world ex1_input H1 H2 H3 H4).
Defined.

(** C7, at an input on which the code breaks it: when [-input] names a
    directory, reading fails after the scratch file was created; the
    process leaves through [os.Exit(2)], the deferred removal does not run,
    and [X.common.tmp] stays on disk. *)
Theorem C7_scratch_left_behind :
  (run (file_flags "logs" "X") dir_input_world).1 = Some 2 ∧
  fs (run (file_flags "logs" "X") dir_input_world).2
    !! commonTempPath (derive_outPrefix (file_flags "logs" "X")) = Some (File "") ∧
  stderr (run (file_flags "logs" "X") dir_input_world).2
    = "error: reading input: read logs: is a directory" +:+ nl.
Proof. vm_compute. done. Qed.

(** C8, as the code has it: a run without [-h] ends with status 0 or 2.
    With status 0 no call has failed but tolerated ones (a close of the
    input, of the scratch file or of the fallback file, the rename, the
    removal).  Otherwise the status is 2, whatever the kind of error: the
    failed call is followed by closes only, and stderr gets one line
    [error: <operation>: <cause>] that names the operation of the failed
    call and its cause. *)
Theorem C8_errors_fatal flags w :
  help flags = false →
  input_apart (derive_outPrefix flags) (input_path flags) →
  ∃ c w', run flags w = (Some c, w') ∧
    ((c = 0 ∧ ∃ evs, trace w' = trace w ++ evs ∧
                     clean (derive_outPrefix flags) (input_path flags) evs) ∨
     (c = 2 ∧ ∃ pre call e post what,
        trace w' = trace w ++ pre ++ (call, Some e) :: post ∧
        clean (derive_outPrefix flags) (input_path flags) pre ∧
        Forall is_close post ∧
        describes (derive_outPrefix flags) (input_path flags) what call ∧
        stderr w' = stderr w +:+ "error: " +:+ what +:+ ": "
                    +:+ Error {| err_call := call; err_no := e |} +:+ nl)).
Proof.
  intros Hhelp Hapart.
  destruct (run_outcome flags w Hhelp Hapart) as [(w' & d & Heq & _ & Hs)|(w' & Heq & Hf)].
  - exists 0, w'. split; [done|]. left. split; [done|].
    by destruct Hs as [(_ & Htr & _) _].
  - exists 2, w'. split; [done|]. right. split; [done|].
    destruct Hf as (pre & c & e & post & what & Htr & Hc & Hp & Hd & Herr & _).
    by exists pre, c, e, post, what.
Qed.

Lemma C8_witness :
  help (file_flags "logs" "X") = false ∧
  input_apart (derive_outPrefix (file_flags "logs" "X"))
    (input_path (file_flags "logs" "X")) ∧
  ∃ c w', run (file_flags "logs" "X") dir_input_world = (Some c, w') ∧
    ((c = 0 ∧ ∃ evs, trace w' = trace dir_input_world ++ evs ∧
         clean (derive_outPrefix (file_flags "logs" "X"))
           (input_path (file_flags "logs" "X")) evs) ∨
     (c = 2 ∧ ∃ pre call e post what,
        trace w' = trace dir_input_world ++ pre ++ (call, Some e) :: post ∧
        clean (derive_outPrefix (file_flags "logs" "X"))
          (input_path (file_flags "logs" "X")) pre ∧
        Forall is_close post ∧
        describes (derive_outPrefix (file_flags "logs" "X"))
          (input_path (file_flags "logs" "X")) what call ∧
        stderr w' = stderr dir_input_world +:+ "error: " +:+ what +:+ ": "
                    +:+ Error {| err_call := call; err_no := e |} +:+ nl)).
Proof.
  assert (H1 : help (file_flags "logs" "X") = false) by reflexivity.
  assert (H2 : input_apart (derive_outPrefix (file_flags "logs" "X"))
                 (input_path (file_flags "logs" "X"))).
  { split; [intros H; vm_compute in H; discriminate H|].
    intros r H. vm_compute in H. discriminate H. }
  split; [exact H1|]. split; [exact H2|].
  exact (C8_errors_fatal (file_flags "logs" "X") dir_input_world H1 H2).
Defined.

(** The exit status does not tell the kinds of error apart: a run whose
    input cannot be opened and a run whose input cannot be read both leave
    with status 2. *)
Lemma C8_counterexample :
  (run (file_flags "missing.log" "X") no_input_world).1 = Some 2 ∧
  last (trace (run (file_flags "missing.log" "X") no_input_world).2)
    = Some (Open "missing.log", Some ENOENT) ∧
  (run (file_flags "logs" "X") dir_input_world).1 = Some 2 ∧
  last (trace (run (file_flags "logs" "X") dir_input_world).2)
    = Some (Read "logs", Some EISDIR) ∧
  ¬ status_per_kind.
Proof.
  split_and!; [vm_compute; reflexivity..|].
  intros H.
  refine (H (file_flags "missing.log" "X") no_input_world
            (file_flags "logs" "X") dir_input_world 2 2
            (run (file_flags "missing.log" "X") no_input_world).2
            (run (file_flags "logs" "X") dir_input_world).2
            "missing.log" "logs" ENOENT EISDIR _ _ _ _ eq_refl).
  - vm_compute. reflexivity.
  - vm_compute. reflexivity.
  - vm_compute. reflexivity.
  - vm_compute. reflexivity.
Qed.

(** The lines routed by the loop end with a newline. *)
Lemma scanning_lines P inp w0 ls st w :
  scanning P inp w0 ls st w → Forall ends_with_newline ls.
Proof.
  induction 1 as [|ls st w rd' line err w1 st' w' _ IH _ _ _]; [constructor|].
  apply Forall_app. split; [done|]. constructor; [|constructor].
  apply terminate_line_newline.
Qed.

Lemma sink_spec_newline run ls :
  Forall ends_with_newline ls → Forall ends_with_newline (sink_spec run ls).
Proof.
  rewrite !Forall_forall. intros H l [Hl _]%sink_spec_sub. by apply H.
Qed.

Lemma single_file_clear P p d : outputs_clear P (plain_world [(p, File d)]).
Proof.
  assert (H : ∀ q, fs (plain_world [(p, File d)]) !! q ≠ Some Dir).
  { intros q. simpl. destruct (decide (p = q)) as [->|Hne].
    - by rewrite lookup_insert_eq.
    - by rewrite lookup_insert_ne, lookup_empty. }
  split_and!; [apply H|apply H|intros run; apply H].
Qed.

(** C9: the line handed to the routing ends with a newline, one being
    appended to a last line that has none; so every output is a
    concatenation of lines that end with a newline: the common buffer and
    the run sinks at every iteration of the loop, and the run files and the
    fallback file at the end of a run with status 0.  An input that does
    not end with a newline comes out with one appended. *)
Theorem C9_newline_terminated flags w data :
  help flags = false →
  input_apart (derive_outPrefix flags) (input_path flags) →
  fs w !! input_path flags = Some (File data) →
  (∀ line, ends_with_newline (terminate_line line)) ∧
  (∀ line, ends_with_newline line → terminate_line line = line) ∧
  (∀ line, ¬ ends_with_newline line → terminate_line line = line +:+ nl) ∧
  (∀ ls st w1, scanning (derive_outPrefix flags) (input_path flags) w ls st w1 →
     Forall ends_with_newline ls ∧
     (∃ sl, written (fs w1) (commonWriter st) = Some (Str.cat sl) ∧
            Forall ends_with_newline sl) ∧
     (∀ R ro, runOutputs st !! R = Some ro →
        ∃ sl, written (fs w1) (writer ro) = Some (Str.cat sl) ∧
              Forall ends_with_newline sl)) ∧
  (∀ w', run flags w = (Some 0, w') →
     (∀ R, R ∈ ids (lines_of data) →
        ∃ sl, fs w' !! runPath (derive_outPrefix flags) R = Some (File (Str.cat sl)) ∧
              Forall ends_with_newline sl) ∧
     (ids (lines_of data) = ∅ →
        ∃ sl, fs w' !! unknownPath (derive_outPrefix flags) = Some (File (Str.cat sl)) ∧
              Forall ends_with_newline sl ∧
              (data ≠ "" → ¬ ends_with_newline data → Str.cat sl = data +:+ nl))) ∧
  (fault_free w → outputs_clear (derive_outPrefix flags) w →
     ∃ w', run flags w = (Some 0, w')).
Proof.
  intros Hhelp Hapart Hdata. split_and!.
  - intros line. apply terminate_line_newline.
  - intros line. apply terminate_line_id.
  - intros line Hn. unfold terminate_line.
    rewrite bool_decide_eq_false_2 by done. simpl. by rewrite orb_true_r.
  - intros ls st w1 Hsc. pose proof (scanning_lines _ _ _ _ _ _ Hsc) as Hls.
    pose proof (scanning_shape _ _ _ _ _ _ Hsc) as [_ _ _ _ Hcc Hdom Hruns _ _ _].
    split_and!; [done|..].
    + eexists. split; [exact Hcc|].
      apply Forall_forall. intros l [_ Hl]%list_elem_of_filter.
      by apply (proj1 (Forall_forall _ _) Hls).
    + intros R ro Hro. destruct (Hruns _ _ Hro) as (_ & _ & Hw).
      eexists. split; [exact Hw|]. by apply sink_spec_newline.
  - intros w' Hrun.
    pose proof (run_success_inv _ _ _ _ Hhelp Hapart Hdata Hrun) as [(_ & _ & Hruns & Hrest) _].
    split.
    + intros R HR. eexists. split; [by apply Hruns|].
      apply sink_spec_newline, lines_of_newline.
    + intros Hids. rewrite (proj1 (ids_empty_global _) Hids) in Hrest.
      destruct Hrest as (_ & Hunk & _).
      eexists. split; [exact Hunk|]. split; [apply lines_of_newline|].
      intros Hne Hnl. rewrite cat_lines_of. rewrite bool_decide_eq_false_2; [done|].
      intros [?|?]; done.
  - intros Hff Hclear.
    destruct (run_succeeds _ _ _ Hhelp Hapart Hdata Hff Hclear) as (w' & Hrun & _).
    eauto.
Qed.

Lemma C9_witness :
  (run (stdin_flags "X") open_line_world).1 = Some 0 ∧
  fs (run (stdin_flags "X") open_line_world).2 !! "X.run_unknown.log"
    = Some (File ("a" +:+ nl)) ∧
  help (stdin_flags "X") = false ∧
  input_apart (derive_outPrefix (stdin_flags "X")) (input_path (stdin_flags "X")) ∧
  fs open_line_world !! input_path (stdin_flags "X") = Some (File "a") ∧
  ((∀ line, ends_with_newline (terminate_line line)) ∧
   (∀ line, ends_with_newline line → terminate_line line = line) ∧
   (∀ line, ¬ ends_with_newline line → terminate_line line = line +:+ nl) ∧
   (∀ ls st w1,
      scanning (derive_outPrefix (stdin_flags "X")) (input_path (stdin_flags "X"))
        open_line_world ls st w1 →
      Forall ends_with_newline ls ∧
      (∃ sl, written (fs w1) (commonWriter st) = Some (Str.cat sl) ∧
             Forall ends_with_newline sl) ∧
      (∀ R ro, runOutputs st !! R = Some ro →
         ∃ sl, written (fs w1) (writer ro) = Some (Str.cat sl) ∧
               Forall ends_with_newline sl)) ∧
   (∀ w', run (stdin_flags "X") open_line_world = (Some 0, w') →
      (∀ R, R ∈ ids (lines_of "a") →
         ∃ sl, fs w' !! runPath (derive_outPrefix (stdin_flags "X")) R
                 = Some (File (Str.cat sl)) ∧
               Forall ends_with_newline sl) ∧
      (ids (lines_of "a") = ∅ →
         ∃ sl, fs w' !! unknownPath (derive_outPrefix (stdin_flags "X"))
                 = Some (File (Str.cat sl)) ∧
               Forall ends_with_newline sl ∧
               ("a" ≠ "" → ¬ ends_with_newline "a" → Str.cat sl = "a" +:+ nl))) ∧
   (fault_free open_line_world →
    outputs_clear (derive_outPrefix (stdin_flags "X")) open_line_world →
      ∃ w', run (stdin_flags "X") open_line_world = (Some 0, w'))).
Proof.
  split; [vm_compute; reflexivity|].
  split; [vm_compute; reflexivity|].
  assert (H1 : help (stdin_flags "X") = false) by reflexivity.
  assert (H2 : input_apart (derive_outPrefix (stdin_flags "X"))
                 (input_path (stdin_flags "X"))).
  { split; [intros H; vm_compute in H; discriminate H|].
    intros r H. vm_compute in H. discriminate H. }
  assert (H3 : fs open_line_world !! input_path (stdin_flags "X") = Some (File "a"))
    by (vm_compute; reflexivity).
  split; [exact H1|]. split; [exact H2|]. split; [exact H3|].
  exact (C9_newline_terminated (stdin_flags "X") open_line_world "a" H1 H2 H3).
Defined.

(** C10: on an empty input, in an environment without faults where no
    output path is a directory, the run ends with status 0; it leaves an
    empty [P.run_unknown.log], no scratch file and every other path as it
    was (so no run file is made), and reports on stderr that no token was
    found. *)
Theorem C10_empty_input flags w :
  help flags = false →
  input_apart (derive_outPrefix flags) (input_path flags) →
  fs w !! input_path flags = Some (File "") →
  fault_free w → outputs_clear (derive_outPrefix flags) w →
  ∃ w', run flags w = (Some 0, w') ∧
    fs w' !! unknownPath (derive_outPrefix flags) = Some (File "") ∧
    fs w' !! commonTempPath (derive_outPrefix flags) = None ∧
    (∀ p, p ≠ commonTempPath (derive_outPrefix flags) →
          p ≠ unknownPath (derive_outPrefix flags) → fs w' !! p = fs w !! p) ∧
    (∀ R, all_bytes is_digit R = true →
          fs w' !! runPath (derive_outPrefix flags) R
            = fs w !! runPath (derive_outPrefix flags) R) ∧
    stderr w' = stderr w +:+ ("No run tokens found in " +:+ input_name flags
                +:+ ". Wrote all lines to " +:+ unknownPath (derive_outPrefix flags)
                +:+ nl).
Proof.
  intros Hhelp Hapart Hdata Hff Hclear.
  destruct (run_succeeds _ _ _ Hhelp Hapart Hdata Hff Hclear)
    as (w' & Hrun & (_ & _ & _ & Hrest) & Hscratch).
  exists w'. change (lines_of "") with (@nil string) in Hrest. simpl in Hrest.
  destruct Hrest as (Herr & Hunk & Hfr). split_and!; try done.
  - destruct Hscratch as [?|(n & e & _ & Hf)]; [done|]. by rewrite Hff in Hf.
  - intros R HR. apply Hfr; [apply runPath_common|by apply runPath_unknown].
Qed.

Lemma C10_witness :
  help (stdin_flags "X") = false ∧
  input_apart (derive_outPrefix (stdin_flags "X")) (input_path (stdin_flags "X")) ∧
  fs empty_world !! input_path (stdin_flags "X") = Some (File "") ∧
  fault_free empty_world ∧
  outputs_clear (derive_outPrefix (stdin_flags "X")) empty_world ∧
  ∃ w', run (stdin_flags "X") empty_world = (Some 0, w') ∧
    fs w' !! unknownPath (derive_outPrefix (stdin_flags "X")) = Some (File "") ∧
    fs w' !! commonTempPath (derive_outPrefix (stdin_flags "X")) = None ∧
    (∀ p, p ≠ commonTempPath (derive_outPrefix (stdin_flags "X")) →
          p ≠ unknownPath (derive_outPrefix (stdin_flags "X")) →
          fs w' !! p = fs empty_world !! p) ∧
    (∀ R, all_bytes is_digit R = true →
          fs w' !! runPath (derive_outPrefix (stdin_flags "X")) R
            = fs empty_world !! runPath (derive_outPrefix (stdin_flags "X")) R) ∧
    stderr w' = stderr empty_world +:+ ("No run tokens found in "
                +:+ input_name (stdin_flags "X")
                +:+ ". Wrote all lines to "
                +:+ unknownPath (derive_outPrefix (stdin_flags "X")) +:+ nl).
Proof.
  assert (H1 : help (stdin_flags "X") = false) by reflexivity.
  assert (H2 : input_apart (derive_outPrefix (stdin_flags "X"))
                 (input_path (stdin_flags "X"))).
  { split; [intros H; vm_compute in H; discriminate H|].
    intros r H. vm_compute in H. discriminate H. }
  assert (H3 : fs empty_world !! input_path (stdin_flags "X") = Some (File ""))
    by (vm_compute; reflexivity).
  assert (H4 : fault_free empty_world) by (intros n; reflexivity).
  assert (H5 : outputs_clear (derive_outPrefix (stdin_flags "X")) empty_world)
    by apply single_file_clear.
  split; [exact H1|]. split; [exact H2|]. split; [exact H3|]. split; [exact H4|].
  split; [exact H5|].
  exact (C10_empty_input (stdin_flags "X") empty_world H1 H2 H3 H4 H5).
Defined.

(** * Help, a missing input, the message on stderr *)

(** X1: with [-h] the program writes the usage text, with the base name of
    the program, on stderr and leaves with status 0; it makes no system
    call and changes no file, whatever the other flags say. *)
Theorem help_only_prints_usage flags w :
  help flags = true →
  ∃ w', run flags w = (Some 0, w') ∧
    fs w' = fs w ∧ trace w' = trace w ∧
    stderr w' = stderr w +:+ usage (filepath.Base (argv0 w)).
Proof.
  intros Hh. unfold run, main. rewrite Hh.
  eexists. split; [reflexivity|]. split; [reflexivity|]. split; [reflexivity|].
  simpl. unfold usage. by rewrite !str_app_assoc.
Qed.

Lemma help_only_prints_usage_witness :
  help (help_flags "missing.log") = true ∧
  ∃ w', run (help_flags "missing.log") no_input_world = (Some 0, w') ∧
    fs w' = fs no_input_world ∧ trace w' = trace no_input_world ∧
    stderr w' = stderr no_input_world +:+ usage (filepath.Base (argv0 no_input_world)).
Proof.
  assert (H1 : help (help_flags "missing.log") = true) by reflexivity.
  split; [exact H1|].
  exact (help_only_prints_usage (help_flags "missing.log") no_input_world H1).
Defined.

(** X4: when [-input] names a path that does not exist, the run stops with
    status 2 at the open: the only call made is that open, no file is
    created or changed, and stderr gets the line
    [error: cannot open input file: open <path>: <cause>], the cause being
    [no such file or directory] unless the environment fails the call
    otherwise. *)
Theorem missing_input_creates_nothing flags w :
  help flags = false →
  inputFile flags ≠ "" →
  fs w !! inputFile flags = None →
  ∃ e w', run flags w = (Some 2, w') ∧
    fs w' = fs w ∧
    trace w' = trace w ++ [(Open (inputFile flags), Some e)] ∧
    stderr w' = stderr w +:+ "error: cannot open input file: open "
                +:+ inputFile flags +:+ ": " +:+ strerror e +:+ nl ∧
    (faults w (length (trace w)) = None → e = ENOENT).
Proof.
  intros Hh Hin Hnone. unfold run, main. rewrite Hh.
  rewrite bool_decide_eq_true_2 by done.
  unfold mbind, proc_bind, bind. unfold os_Open, syscall. rewrite Hnone.
  destruct (faults w (length (trace w))) as [e|] eqn:Hf.
  - exists e. eexists. split; [reflexivity|]. simpl. split_and!; try done.
    unfold Error. simpl. by rewrite !str_app_assoc.
  - exists ENOENT. eexists. split; [reflexivity|]. simpl. split_and!; try done.
    unfold Error. simpl. by rewrite !str_app_assoc.
Qed.

Lemma missing_input_creates_nothing_witness :
  help (file_flags "missing.log" "X") = false ∧
  inputFile (file_flags "missing.log" "X") ≠ "" ∧
  fs no_input_world !! inputFile (file_flags "missing.log" "X") = None ∧
  ∃ e w', run (file_flags "missing.log" "X") no_input_world = (Some 2, w') ∧
    fs w' = fs no_input_world ∧
    trace w' = trace no_input_world
               ++ [(Open (inputFile (file_flags "missing.log" "X")), Some e)] ∧
    stderr w' = stderr no_input_world +:+ "error: cannot open input file: open "
                +:+ inputFile (file_flags "missing.log" "X") +:+ ": "
                +:+ strerror e +:+ nl ∧
    (faults no_input_world (length (trace no_input_world)) = None → e = ENOENT).
Proof.
  assert (H1 : help (file_flags "missing.log" "X") = false) by reflexivity.
  assert (H2 : inputFile (file_flags "missing.log" "X") ≠ "") by discriminate.
  assert (H3 : fs no_input_world !! inputFile (file_flags "missing.log" "X") = None)
    by reflexivity.
  split; [exact H1|]. split; [exact H2|]. split; [exact H3|].
  exact (missing_input_creates_nothing (file_flags "missing.log" "X") no_input_world
           H1 H2 H3).
Defined.

(** X9: on a run that ends with status 0, stderr gets exactly one line when
    the input has no token,
    [No run tokens found in <name>. Wrote all lines to P.run_unknown.log],
    where the name is [stdin] or the base name of the [-input] path, and
    nothing when the input has a token. *)
Theorem message_names_input flags w w' data :
  help flags = false →
  input_apart (derive_outPrefix flags) (input_path flags) →
  fs w !! input_path flags = Some (File data) →
  run flags w = (Some 0, w') →
  stderr w' =
    stderr w +:+
    (if bool_decide (ids (lines_of data) = ∅)
     then "No run tokens found in "
          +:+ (if bool_decide (inputFile flags = "") then "stdin"
               else filepath.Base (inputFile flags))
          +:+ ". Wrote all lines to " +:+ derive_outPrefix flags
          +:+ ".run_unknown.log" +:+ nl
     else "").
Proof.
  intros Hhelp Hapart Hdata Hrun.
  pose proof (run_success_inv _ _ _ _ Hhelp Hapart Hdata Hrun) as [(_ & _ & _ & Hrest) _].
  assert (Hname : input_name flags =
            if bool_decide (inputFile flags = "") then "stdin"
            else filepath.Base (inputFile flags)).
  { unfold input_name. destruct (decide (inputFile flags = "")) as [E|E].
    - rewrite (bool_decide_eq_true_2 _ E). by rewrite bool_decide_eq_false_2 by auto.
    - rewrite (bool_decide_eq_false_2 _ E). by rewrite bool_decide_eq_true_2. }
  destruct (forallb is_global (lines_of data)) eqn:Hg.
  - rewrite bool_decide_eq_true_2 by by apply ids_empty_global.
    destruct Hrest as (-> & _). rewrite Hname. unfold unknownPath.
    by rewrite !str_app_assoc.
  - rewrite bool_decide_eq_false_2.
    + destruct Hrest as (-> & _). by rewrite str_app_nil_r.
    + intros H%ids_empty_global. by rewrite H in Hg.
Qed.

Lemma message_names_input_witness :
  help (stdin_flags "X") = false ∧
  input_apart (derive_outPrefix (stdin_flags "X")) (input_path (stdin_flags "X")) ∧
  fs open_line_world !! input_path (stdin_flags "X") = Some (File "a") ∧
  run (stdin_flags "X") open_line_world
    = (Some 0, (run (stdin_flags "X") open_line_world).2) ∧
  stderr (run (stdin_flags "X") open_line_world).2 =
    stderr open_line_world +:+
    (if bool_decide (ids (lines_of "a") = ∅)
     then "No run tokens found in "
          +:+ (if bool_decide (inputFile (stdin_flags "X") = "") then "stdin"
               else filepath.Base (inputFile (stdin_flags "X")))
          +:+ ". Wrote all lines to " +:+ derive_outPrefix (stdin_flags "X")
          +:+ ".run_unknown.log" +:+ nl
     else "").
Proof.
  assert (H1 : help (stdin_flags "X") = false) by reflexivity.
  assert (H2 : input_apart (derive_outPrefix (stdin_flags "X"))
                 (input_path (stdin_flags "X"))).
  { split; [intros H; vm_compute in H; discriminate H|].
    intros r H. vm_compute in H. discriminate H. }
  assert (H3 : fs open_line_world !! input_path (stdin_flags "X") = Some (File "a"))
    by (vm_compute; reflexivity).
  assert (H4 : run (stdin_flags "X") open_line_world
               = (Some 0, (run (stdin_flags "X") open_line_world).2))
    by (vm_compute; reflexivity).
  split; [exact H1|]. split; [exact H2|]. split; [exact H3|]. split; [exact H4|].
  exact (message_names_input (stdin_flags "X") open_line_world _ "a" H1 H2 H3 H4).
Defined.

(** * The output prefix *)

Lemma ToLower_app a b : Str.ToLower (a +:+ b) = Str.ToLower a +:+ Str.ToLower b.
Proof. induction a as [|c a IH]; [done|]. rewrite ?str_app_cons. simpl. by rewrite IH. Qed.

Lemma ToLower_length s : String.length (Str.ToLower s) = String.length s.
Proof. induction s as [|c s IH]; [done|]. simpl. by rewrite IH. Qed.

Lemma ToLower_drop n s : Str.ToLower (Str.drop n s) = Str.drop n (Str.ToLower s).
Proof. revert s. induction n as [|n IH]; intros [|c s]; simpl; try done. Qed.

Lemma HasSuffix_app s t : Str.HasSuffix (s +:+ t) t = true.
Proof.
  unfold Str.HasSuffix. rewrite str_length_app.
  replace (String.length s + String.length t - String.length t) with (String.length s) by lia.
  rewrite str_drop_app_length. rewrite bool_decide_eq_true_2 by done.
  rewrite andb_true_r. apply Nat.leb_le. lia.
Qed.

Lemma HasSuffix_other s t t' :
  String.length t = String.length t' → t ≠ t' → Str.HasSuffix (s +:+ t) t' = false.
Proof.
  intros Hlen Hne. unfold Str.HasSuffix. rewrite str_length_app, <- Hlen.
  replace (String.length s + String.length t - String.length t) with (String.length s) by lia.
  rewrite str_drop_app_length. rewrite bool_decide_eq_false_2 by done.
  apply andb_false_r.
Qed.

Lemma trim_ext_suffix stem ext :
  Str.ToLower ext = ".log" ∨ Str.ToLower ext = ".txt" →
  trim_ext [".log"; ".txt"] (stem +:+ ext) = stem.
Proof.
  intros H.
  assert (Hlen : String.length ext = 4).
  { rewrite <- ToLower_length. by destruct H as [-> | ->]. }
  assert (Htake : Str.take (String.length (stem +:+ ext) - 4) (stem +:+ ext) = stem).
  { rewrite str_length_app, Hlen.
    replace (String.length stem + 4 - 4) with (String.length stem) by lia.
    apply str_take_app_length. }
  unfold trim_ext. rewrite ToLower_app. destruct H as [-> | ->].
  - rewrite HasSuffix_app. exact Htake.
  - rewrite HasSuffix_other by done. rewrite HasSuffix_app. exact Htake.
Qed.

Lemma trim_ext_other base :
  (∀ stem ext, base = stem +:+ ext →
     Str.ToLower ext ≠ ".log" ∧ Str.ToLower ext ≠ ".txt") →
  trim_ext [".log"; ".txt"] base = base.
Proof.
  intros H. unfold trim_ext.
  assert (Hno : ∀ e, e = ".log" ∨ e = ".txt" → Str.HasSuffix (Str.ToLower base) e = false).
  { intros e He. destruct (Str.HasSuffix (Str.ToLower base) e) eqn:Hs; [|done].
    exfalso. unfold Str.HasSuffix in Hs.
    apply andb_true_iff in Hs as [_ Hs%bool_decide_eq_true].
    rewrite <- ToLower_drop in Hs.
    destruct (H (Str.take (String.length (Str.ToLower base) - String.length e) base)
                (Str.drop (String.length (Str.ToLower base) - String.length e) base))
      as [H1 H2]; [by rewrite str_take_drop|].
    rewrite Hs in H1, H2. destruct He as [-> | ->]; done. }
  rewrite (Hno ".log") by by left. rewrite (Hno ".txt") by by right. done.
Qed.

(** X2: without [-outprefix], the prefix is the base name of the input
    path less one final [.log] or [.txt], in any mix of upper and lower
    case: a base name [stem ++ ext] whose [ext] is such an extension gives
    [stem] as it is written (so only the last extension goes, and the case
    of the stem is kept), and a base name with no such ending is the prefix
    as a whole. *)
Theorem prefix_drops_one_extension flags :
  outPrefix flags = "" →
  inputFile flags ≠ "" →
  (∀ stem ext,
     filepath.Base (inputFile flags) = stem +:+ ext →
     Str.ToLower ext = ".log" ∨ Str.ToLower ext = ".txt" →
     derive_outPrefix flags = stem) ∧
  ((∀ stem ext,
      filepath.Base (inputFile flags) = stem +:+ ext →
      Str.ToLower ext ≠ ".log" ∧ Str.ToLower ext ≠ ".txt") →
   derive_outPrefix flags = filepath.Base (inputFile flags)).
Proof.
  intros Hout Hin. unfold derive_outPrefix.
  rewrite (bool_decide_eq_true_2 _ Hout), (bool_decide_eq_true_2 _ Hin). split.
  - intros stem ext -> Hext. by apply trim_ext_suffix.
  - apply trim_ext_other.
Qed.

Lemma prefix_drops_one_extension_witness :
  outPrefix (input_flags "/var/log/ptp/Daemon.txt.LOG") = "" ∧
  inputFile (input_flags "/var/log/ptp/Daemon.txt.LOG") ≠ "" ∧
  filepath.Base (inputFile (input_flags "/var/log/ptp/Daemon.txt.LOG"))
    = "Daemon.txt" +:+ ".LOG" ∧
  derive_outPrefix (input_flags "/var/log/ptp/Daemon.txt.LOG") = "Daemon.txt" ∧
  (∀ stem ext,
     filepath.Base (inputFile (input_flags "/var/log/ptp/Daemon.txt.LOG"))
       = stem +:+ ext →
     Str.ToLower ext = ".log" ∨ Str.ToLower ext = ".txt" →
     derive_outPrefix (input_flags "/var/log/ptp/Daemon.txt.LOG") = stem) ∧
  ((∀ stem ext,
      filepath.Base (inputFile (input_flags "/var/log/ptp/Daemon.txt.LOG"))
        = stem +:+ ext →
      Str.ToLower ext ≠ ".log" ∧ Str.ToLower ext ≠ ".txt") →
   derive_outPrefix (input_flags "/var/log/ptp/Daemon.txt.LOG")
     = filepath.Base (inputFile (input_flags "/var/log/ptp/Daemon.txt.LOG"))).
Proof.
  assert (H0 : outPrefix (input_flags "/var/log/ptp/Daemon.txt.LOG") = "")
    by reflexivity.
  assert (H1 : inputFile (input_flags "/var/log/ptp/Daemon.txt.LOG") ≠ "")
    by discriminate.
  split; [exact H0|]. split; [exact H1|].
  split; [vm_compute; reflexivity|]. split; [vm_compute; reflexivity|].
  exact (prefix_drops_one_extension (input_flags "/var/log/ptp/Daemon.txt.LOG") H0 H1).
Defined.

(** ** No directory in a derived prefix *)

Lemma has_slash_last_element s : filepath.has_slash (filepath.last_element s) = false.
Proof.
  induction s as [|c s IH]; [done|]. simpl.
  destruct (filepath.has_slash s) eqn:Hs; [done|].
  case_bool_decide as Hc; [done|]. simpl.
  by rewrite bool_decide_eq_false_2, Hs.
Qed.

Lemma has_slash_take n s :
  filepath.has_slash s = false → filepath.has_slash (Str.take n s) = false.
Proof.
  revert s. induction n as [|n IH]; intros [|c s]; simpl; try done.
  intros [H1 H2]%orb_false_iff. rewrite H1. simpl. by apply IH.
Qed.

Lemma has_slash_app a b :
  filepath.has_slash (a +:+ b) = filepath.has_slash a || filepath.has_slash b.
Proof.
  induction a as [|c a IH]; [done|]. rewrite str_app_cons. simpl.
  by rewrite IH, orb_assoc.
Qed.

Lemma has_slash_trim_ext exts base :
  filepath.has_slash base = false → filepath.has_slash (trim_ext exts base) = false.
Proof.
  intros H. induction exts as [|e exts IH]; [done|]. simpl.
  destruct (Str.HasSuffix _ e); [by apply has_slash_take|done].
Qed.

Lemma Base_slash path :
  filepath.Base path = "/" ∨ filepath.has_slash (filepath.Base path) = false.
Proof.
  unfold filepath.Base. destruct path as [|c path]; [by right|].
  pose proof (has_slash_last_element (filepath.strip_trailing (String c path))) as H.
  destruct (filepath.last_element _); [by left|by right].
Qed.

(** X3: a prefix derived from the input path holds no directory: it is
    made from the base name of the path, so it has no [/] (or is [/] alone,
    for an input path made of slashes only), and the output files named
    after it are made in the working directory, not beside the input. *)
Theorem derived_prefix_has_no_directory flags :
  outPrefix flags = "" →
  derive_outPrefix flags = "/" ∨
  (filepath.has_slash (derive_outPrefix flags) = false ∧
   filepath.has_slash (commonTempPath (derive_outPrefix flags)) = false ∧
   filepath.has_slash (unknownPath (derive_outPrefix flags)) = false ∧
   ∀ run, filepath.has_slash run = false →
          filepath.has_slash (runPath (derive_outPrefix flags) run) = false).
Proof.
  intros Hout.
  assert (H : derive_outPrefix flags = "/" ∨
              filepath.has_slash (derive_outPrefix flags) = false).
  { unfold derive_outPrefix. rewrite (bool_decide_eq_true_2 _ Hout).
    case_bool_decide; [|by right].
    destruct (Base_slash (inputFile flags)) as [-> | Hb]; [by left|].
    right. by apply has_slash_trim_ext. }
  destruct H as [H|H]; [by left|right].
  unfold commonTempPath, unknownPath, runPath. split_and!; [done|..].
  - by rewrite has_slash_app, H.
  - by rewrite has_slash_app, H.
  - intros run Hr. by rewrite !has_slash_app, H, Hr.
Qed.

Lemma derived_prefix_has_no_directory_witness :
  outPrefix (input_flags "/var/log/ptp/Daemon.txt.LOG") = "" ∧
  runPath (derive_outPrefix (input_flags "/var/log/ptp/Daemon.txt.LOG")) "3"
    = "Daemon.txt.run_3.log" ∧
  (derive_outPrefix (input_flags "/var/log/ptp/Daemon.txt.LOG") = "/" ∨
   (filepath.has_slash (derive_outPrefix (input_flags "/var/log/ptp/Daemon.txt.LOG"))
      = false ∧
    filepath.has_slash
      (commonTempPath (derive_outPrefix (input_flags "/var/log/ptp/Daemon.txt.LOG")))
      = false ∧
    filepath.has_slash
      (unknownPath (derive_outPrefix (input_flags "/var/log/ptp/Daemon.txt.LOG")))
      = false ∧
    ∀ run, filepath.has_slash run = false →
      filepath.has_slash
        (runPath (derive_outPrefix (input_flags "/var/log/ptp/Daemon.txt.LOG")) run)
        = false)).
Proof.
  assert (H1 : outPrefix (input_flags "/var/log/ptp/Daemon.txt.LOG") = "")
    by reflexivity.
  split; [exact H1|]. split; [vm_compute; reflexivity|].
  exact (derived_prefix_has_no_directory (input_flags "/var/log/ptp/Daemon.txt.LOG") H1).
Defined.

(** * The outputs as a function of the input *)

(** The files left by a run that went through without fault are fixed by
    the files found and the input. *)
Lemma success_files P inp w data name w' p :
  Success P inp w data name w' → fault_free w →
  fs w' !! p =
    if decide (p = commonTempPath P) then None
    else if decide (p ∈ (set_map (runPath P) (ids (lines_of data)) : gset string))
    then Some (File (Str.cat (sink_spec (Str.drop (String.length P + 5)
                                 (Str.take (String.length p - 4) p)) (lines_of data))))
    else if forallb is_global (lines_of data) && bool_decide (p = unknownPath P)
    then Some (File (Str.cat (lines_of data)))
    else fs w !! p.
Proof.
  intros [(_ & _ & Hruns & Hrest) Hscratch] Hff.
  destruct (decide (p = commonTempPath P)) as [->|Hc].
  { destruct Hscratch as [?|(n & e & _ & Hf)]; [done|]. by rewrite Hff in Hf. }
  destruct (decide (p ∈ _)) as [Hin|Hnin].
  { apply elem_of_map in Hin as (R & -> & HR). rewrite (Hruns R HR).
    do 3 f_equal. unfold runPath.
    replace (String.length (P +:+ ".run_" +:+ R +:+ ".log") - 4)
      with (String.length (P +:+ ".run_" +:+ R)).
    2:{ rewrite !str_length_app. simpl. lia. }
    rewrite <- !str_app_assoc. rewrite str_take_app_length.
    replace (String.length P + 5) with (String.length (P +:+ ".run_"))
      by (rewrite str_length_app; simpl; lia).
    by rewrite str_drop_app_length. }
  assert (Hnr : ∀ R, R ∈ ids (lines_of data) → p ≠ runPath P R).
  { intros R HR ->. apply Hnin. apply elem_of_map. eauto. }
  destruct (forallb is_global (lines_of data)); simpl.
  - destruct Hrest as (_ & Hu & Hfr). case_bool_decide as Hp.
    + by rewrite Hp.
    + by apply Hfr.
  - destruct Hrest as (_ & Hfr). by apply Hfr.
Qed.

(** X7: the files a run leaves do not depend on the order in which the
    maps are iterated: two runs without fault on the same files, under any
    two iteration orders, both end with status 0 and leave the same
    files. *)
Theorem outputs_independent_of_order flags w1 w2 data :
  help flags = false →
  input_apart (derive_outPrefix flags) (input_path flags) →
  fs w1 = fs w2 →
  fs w1 !! input_path flags = Some (File data) →
  fault_free w1 → fault_free w2 →
  outputs_clear (derive_outPrefix flags) w1 →
  ∃ w1' w2', run flags w1 = (Some 0, w1') ∧ run flags w2 = (Some 0, w2') ∧
             fs w1' = fs w2'.
Proof.
  intros Hhelp Hapart Hfs Hdata Hff1 Hff2 Hclear.
  assert (Hdata2 : fs w2 !! input_path flags = Some (File data)) by by rewrite <- Hfs.
  assert (Hclear2 : outputs_clear (derive_outPrefix flags) w2).
  { unfold outputs_clear. by rewrite <- Hfs. }
  destruct (run_succeeds _ _ _ Hhelp Hapart Hdata Hff1 Hclear) as (w1' & Hrun1 & Hs1).
  destruct (run_succeeds _ _ _ Hhelp Hapart Hdata2 Hff2 Hclear2) as (w2' & Hrun2 & Hs2).
  exists w1', w2'. split; [done|]. split; [done|].
  apply map_eq. intros p.
  rewrite (success_files _ _ _ _ _ _ p Hs1 Hff1), (success_files _ _ _ _ _ _ p Hs2 Hff2).
  by rewrite Hfs.
Qed.

Lemma outputs_independent_of_order_witness :
  help (stdin_flags "X") = false ∧
  input_apart (derive_outPrefix (stdin_flags "X")) (input_path (stdin_flags "X")) ∧
  fs ex1_world = fs (set_sched ex1_world other_order) ∧
  fs ex1_world !! input_path (stdin_flags "X") = Some (File ex1_input) ∧
  fault_free ex1_world ∧ fault_free (set_sched ex1_world other_order) ∧
  outputs_clear (derive_outPrefix (stdin_flags "X")) ex1_world ∧
  (range_keys {["1"; "2"]} ex1_world).1 = Val ["1"; "2"] ∧
  (range_keys {["1"; "2"]} (set_sched ex1_world other_order)).1 = Val ["2"; "1"] ∧
  ∃ w1' w2', run (stdin_flags "X") ex1_world = (Some 0, w1') ∧
             run (stdin_flags "X") (set_sched ex1_world other_order) = (Some 0, w2') ∧
             fs w1' = fs w2'.
Proof.
  assert (H1 : help (stdin_flags "X") = false) by reflexivity.
  assert (H2 : input_apart (derive_outPrefix (stdin_flags "X"))
                 (input_path (stdin_flags "X"))).
  { split; [intros H; vm_compute in H; discriminate H|].
    intros r H. vm_compute in H. discriminate H. }
  assert (H3 : fs ex1_world = fs (set_sched ex1_world other_order)) by reflexivity.
  assert (H4 : fs ex1_world !! input_path (stdin_flags "X") = Some (File ex1_input))
    by (vm_compute; reflexivity).
  assert (H5 : fault_free ex1_world) by (intros n; reflexivity).
  assert (H6 : fault_free (set_sched ex1_world other_order)) by (intros n; reflexivity).
  assert (H7 : outputs_clear (derive_outPrefix (stdin_flags "X")) ex1_world)
    by apply single_file_clear.
  split; [exact H1|]. split; [exact H2|]. split; [exact H3|]. split; [exact H4|].
  split; [exact H5|]. split; [exact H6|]. split; [exact H7|].
  split; [vm_compute; reflexivity|]. split; [vm_compute; reflexivity|].
  exact (outputs_independent_of_order (stdin_flags "X") ex1_world
           (set_sched ex1_world other_order) ex1_input H1 H2 H3 H4 H5 H6 H7).
Defined.

(** X8: running the program again on the same input reproduces the same
    files: after a run without fault that leaves the input alone, a second
    run with the same flags ends with status 0 and changes no file. *)
Theorem rerun_changes_nothing flags w w' data :
  help flags = false →
  input_apart (derive_outPrefix flags) (input_path flags) →
  input_path flags ≠ unknownPath (derive_outPrefix flags) →
  fs w !! input_path flags = Some (File data) →
  fault_free w → outputs_clear (derive_outPrefix flags) w →
  run flags w = (Some 0, w') →
  ∃ w'', run flags w' = (Some 0, w'') ∧ fs w'' = fs w'.
Proof.
  intros Hhelp Hapart Hunk Hdata Hff Hclear Hrun.
  pose proof (run_success_inv _ _ _ _ Hhelp Hapart Hdata Hrun) as Hs.
  pose proof (λ p, success_files _ _ _ _ _ _ p Hs Hff) as Hfiles.
  assert (Hff' : fault_free w').
  { destruct Hs as [((Hf & _) & _) _]. intros n. rewrite Hf. apply Hff. }
  assert (Hnd : ∀ p, fs w !! p ≠ Some Dir → fs w' !! p ≠ Some Dir).
  { intros p Hp. rewrite Hfiles. repeat case_match; done. }
  assert (Hclear' : outputs_clear (derive_outPrefix flags) w').
  { destruct Hclear as (Hc & Hu & Hr). split_and!; [by apply Hnd..|].
    intros R. apply Hnd, Hr. }
  assert (Hdata' : fs w' !! input_path flags = Some (File data)).
  { rewrite Hfiles. destruct Hapart as [Hic Hir].
    rewrite decide_False by done. rewrite decide_False.
    - rewrite (bool_decide_eq_false_2 _ Hunk), andb_false_r. done.
    - intros (R & HR & _)%elem_of_map. by apply (Hir R). }
  destruct (run_succeeds _ _ _ Hhelp Hapart Hdata' Hff' Hclear') as (w'' & Hrun' & Hs').
  exists w''. split; [done|].
  apply map_eq. intros p.
  rewrite (success_files _ _ _ _ _ _ p Hs' Hff'). rewrite (Hfiles p).
  repeat case_match; done.
Qed.

Lemma rerun_changes_nothing_witness :
  help (stdin_flags "X") = false ∧
  input_apart (derive_outPrefix (stdin_flags "X")) (input_path (stdin_flags "X")) ∧
  input_path (stdin_flags "X") ≠ unknownPath (derive_outPrefix (stdin_flags "X")) ∧
  fs ex1_world !! input_path (stdin_flags "X") = Some (File ex1_input) ∧
  fault_free ex1_world ∧
  outputs_clear (derive_outPrefix (stdin_flags "X")) ex1_world ∧
  run (stdin_flags "X") ex1_world = (Some 0, (run (stdin_flags "X") ex1_world).2) ∧
  ∃ w'', run (stdin_flags "X") (run (stdin_flags "X") ex1_world).2 = (Some 0, w'') ∧
         fs w'' = fs (run (stdin_flags "X") ex1_world).2.
Proof.
  assert (H1 : help (stdin_flags "X") = false) by reflexivity.
  assert (H2 : input_apart (derive_outPrefix (stdin_flags "X"))
                 (input_path (stdin_flags "X"))).
  { split; [intros H; vm_compute in H; discriminate H|].
    intros r H. vm_compute in H. discriminate H. }
  assert (H3 : input_path (stdin_flags "X")
               ≠ unknownPath (derive_outPrefix (stdin_flags "X")))
    by (intros H; vm_compute in H; discriminate H).
  assert (H4 : fs ex1_world !! input_path (stdin_flags "X") = Some (File ex1_input))
    by (vm_compute; reflexivity).
  assert (H5 : fault_free ex1_world) by (intros n; reflexivity).
  assert (H6 : outputs_clear (derive_outPrefix (stdin_flags "X")) ex1_world)
    by apply single_file_clear.
  assert (H7 : run (stdin_flags "X") ex1_world
               = (Some 0, (run (stdin_flags "X") ex1_world).2))
    by (vm_compute; reflexivity).
  split; [exact H1|]. split; [exact H2|]. split; [exact H3|]. split; [exact H4|].
  split; [exact H5|]. split; [exact H6|]. split; [exact H7|].
  exact (rerun_changes_nothing (stdin_flags "X") ex1_world _ ex1_input
           H1 H2 H3 H4 H5 H6 H7).
Defined.

(** ** Global lines reach every run file *)

Lemma filter_ext_in {A} (F G : A → Prop) `{∀ x, Decision (F x)} `{∀ x, Decision (G x)}
    (l : list A) :
  (∀ x, x ∈ l → F x ↔ G x) → filter F l = filter G l.
Proof.
  induction l as [|x l IH]; intros Hl; [done|].
  rewrite !filter_cons. rewrite IH by (intros y Hy; apply Hl; by right).
  destruct (decide (F x)) as [Hf|Hf], (decide (G x)) as [Hg|Hg]; try done;
    exfalso; apply (Hl x (list_elem_of_here _ _)) in Hf || apply (Hl x (list_elem_of_here _ _)) in Hg;
    done.
Qed.

Lemma filter_none {A} (F : A → Prop) `{∀ x, Decision (F x)} (l : list A) :
  (∀ x, x ∈ l → ¬ F x) → filter F l = [].
Proof.
  induction l as [|x l IH]; intros Hl; [done|].
  rewrite filter_cons, decide_False by (apply Hl; by left).
  apply IH. intros y Hy. apply Hl. by right.
Qed.

Lemma global_not_tagged l R : is_global l = true → R ∉ scan l.
Proof. intros H%is_global_scan. rewrite H. apply not_elem_of_empty. Qed.

Lemma sink_spec_global R ls :
  R ∈ ids ls →
  filter (fun l => is_global l) (sink_spec R ls) = filter (fun l => is_global l) ls.
Proof.
  intros HR. destruct (sink_find_Some _ _ HR) as (i & x & Hfind & _).
  unfold sink_spec. rewrite Hfind. rewrite filter_app, !list_filter_filter.
  rewrite <- (take_drop i ls) at 3. rewrite filter_app. f_equal.
  - apply filter_ext_in. intros l _. tauto.
  - apply filter_ext_in. intros l _. tauto.
Qed.

Lemma sink_spec_tagged R ls :
  R ∈ ids ls →
  filter (fun l => R ∈ scan l) (sink_spec R ls) = filter (fun l => R ∈ scan l) ls.
Proof.
  intros HR. destruct (sink_find_Some _ _ HR) as (i & x & Hfind & _).
  unfold sink_spec. rewrite Hfind. rewrite filter_app, !list_filter_filter.
  apply list_find_Some in Hfind as (_ & _ & Hmin).
  rewrite <- (take_drop i ls) at 3. rewrite filter_app. f_equal.
  - rewrite !filter_none; [done|..].
    + intros l Hl. apply list_elem_of_lookup in Hl as [j Hj].
      apply lookup_take_Some in Hj as [Hj Hlt]. by apply (Hmin j).
    + intros l _ [Hr Hg]. apply Is_true_true in Hg. by apply (global_not_tagged l R).
  - apply filter_ext_in. intros l _. tauto.
Qed.

(** X10: lines without a run token are included in all run files: on a run
    that ends with status 0, the file of every run found is made of lines
    of which those without token are all the lines without token of the
    input, in their order, and those tagged with the run are all the lines
    of the input tagged with it, in their order; it holds no other
    line. *)
Theorem run_file_has_all_global_lines flags w data w' R :
  help flags = false →
  input_apart (derive_outPrefix flags) (input_path flags) →
  fs w !! input_path flags = Some (File data) →
  run flags w = (Some 0, w') →
  R ∈ ids (lines_of data) →
  ∃ sl, fs w' !! runPath (derive_outPrefix flags) R = Some (File (Str.cat sl)) ∧
    filter (fun l => is_global l) sl = filter (fun l => is_global l) (lines_of data) ∧
    filter (fun l => R ∈ scan l) sl = filter (fun l => R ∈ scan l) (lines_of data) ∧
    Forall (fun l => is_global l = true ∨ R ∈ scan l) sl.
Proof.
  intros Hhelp Hapart Hdata Hrun HR.
  pose proof (run_success_inv _ _ _ _ Hhelp Hapart Hdata Hrun) as [(_ & _ & Hruns & _) _].
  exists (sink_spec R (lines_of data)). split_and!.
  - by apply Hruns.
  - by apply sink_spec_global.
  - by apply sink_spec_tagged.
  - apply Forall_forall. intros l Hl. by apply sink_spec_sub in Hl as [_ Hl].
Qed.

Lemma run_file_has_all_global_lines_witness :
  help (stdin_flags "X") = false ∧
  input_apart (derive_outPrefix (stdin_flags "X")) (input_path (stdin_flags "X")) ∧
  fs ex3_world !! input_path (stdin_flags "X") = Some (File ex3_input) ∧
  run (stdin_flags "X") ex3_world = (Some 0, (run (stdin_flags "X") ex3_world).2) ∧
  "5" ∈ ids (lines_of ex3_input) ∧
  filter (fun l => is_global l) (lines_of ex3_input) = ["a" +:+ nl; "c" +:+ nl] ∧
  ∃ sl, fs (run (stdin_flags "X") ex3_world).2
          !! runPath (derive_outPrefix (stdin_flags "X")) "5"
        = Some (File (Str.cat sl)) ∧
    filter (fun l => is_global l) sl
      = filter (fun l => is_global l) (lines_of ex3_input) ∧
    filter (fun l => "5" ∈ scan l) sl
      = filter (fun l => "5" ∈ scan l) (lines_of ex3_input) ∧
    Forall (fun l => is_global l = true ∨ "5" ∈ scan l) sl.
Proof.
  assert (H1 : help (stdin_flags "X") = false) by reflexivity.
  assert (H2 : input_apart (derive_outPrefix (stdin_flags "X"))
                 (input_path (stdin_flags "X"))).
  { split; [intros H; vm_compute in H; discriminate H|].
    intros r H. vm_compute in H. discriminate H. }
  assert (H3 : fs ex3_world !! input_path (stdin_flags "X") = Some (File ex3_input))
    by (vm_compute; reflexivity).
  assert (H4 : run (stdin_flags "X") ex3_world
               = (Some 0, (run (stdin_flags "X") ex3_world).2))
    by (vm_compute; reflexivity).
  assert (H5 : "5" ∈ ids (lines_of ex3_input)).
  { apply (bool_decide_unpack _). vm_compute. exact I. }
  split; [exact H1|]. split; [exact H2|]. split; [exact H3|]. split; [exact H4|].
  split; [exact H5|]. split; [vm_compute; reflexivity|].
  exact (run_file_has_all_global_lines (stdin_flags "X") ex3_world ex3_input _ "5"
           H1 H2 H3 H4 H5).
Defined.

(** * The footprint of a run *)

(** ** Rules for [sat] *)

Lemma sat_ret {A} (a : A) w (Q : A → world → Prop) E : Q a w → sat (mret a) w Q E.
Proof. done. Qed.

Lemma sat_bind {A B} (m : M A) (k : A → M B) w (Q : B → world → Prop) E :
  sat m w (fun a w' => sat (k a) w' Q E) E → sat (m ≫= k) w Q E.
Proof.
  unfold sat, mbind, proc_bind, bind. by destruct (m w) as [[a|c|] w'].
Qed.

Lemma sat_mono {A} (m : M A) w (Q Q' : A → world → Prop) (E E' : world → Prop) :
  sat m w Q E → (∀ a w', Q a w' → Q' a w') → (∀ w', E w' → E' w') → sat m w Q' E'.
Proof. unfold sat. destruct (m w) as [[a|c|] w']; auto. Qed.

Lemma sat_exit {A} c w (Q : A → world → Prop) (E : world → Prop) :
  E w → sat (os_Exit c) w Q E.
Proof. done. Qed.

Lemma sat_eprint s w (Q : unit → world → Prop) E :
  Q tt (put_stderr w s) → sat (eprint s) w Q E.
Proof. done. Qed.

Lemma sat_syscall c sem w (Q : option error → world → Prop) E :
  (∀ m, sem (fs w) = inr m → Q None (upd w m [(c, None)])) →
  (∀ e, Q (Some {| err_call := c; err_no := e |}) (upd w (fs w) [(c, Some e)])) →
  sat (syscall c sem) w Q E.
Proof.
  intros Hok Hfail. unfold sat, syscall.
  destruct (faults w (length (trace w))) as [e|]; [apply Hfail|].
  destruct (sem (fs w)) as [e|m] eqn:Hs; [apply Hfail|by apply Hok].
Qed.

Lemma sat_for_each {S} (body : string → S → M S) (I : S → world → Prop)
    (E : world → Prop) keys :
  (∀ k s w, I s w → sat (body k s) w I E) →
  ∀ s w, I s w → sat (for_each keys body s) w I E.
Proof.
  intros Hstep. induction keys as [|k keys IH]; intros s w HI; simpl.
  - by apply sat_ret.
  - apply sat_bind. eapply sat_mono; [by apply Hstep| |done].
    intros s' w' HI'. by apply IH.
Qed.

Lemma output_common P : output_path P (commonTempPath P).
Proof. by left. Qed.

Lemma output_unknown P : output_path P (unknownPath P).
Proof. right. by left. Qed.

Lemma output_run P run : output_path P (runPath P run).
Proof. right. right. eauto. Qed.

Section Footprint.

Variable P : string.
Variable inp : string.
Variable opened : bool.
Variable w0 : world.

(** ** Worlds that the run may reach *)

Lemma touched_refl : touched P inp opened w0 w0.
Proof.
  split; [done|]. split; [|done]. exists []. split; [by rewrite app_nil_r|constructor].
Qed.

Lemma kept_refl : kept P inp opened w0 w0.
Proof. split; [apply touched_refl|done]. Qed.

Lemma touched_upd w m evs :
  touched P inp opened w0 w →
  Forall (fun ev : event => own_call P inp opened ev.1) evs →
  (∀ p, ¬ output_path P p → m !! p = fs w !! p) →
  touched P inp opened w0 (upd w m evs).
Proof.
  intros (Henv & (evs0 & Htr & Hown) & Hfr) Hevs Hm. split; [done|]. split.
  - exists (evs0 ++ evs). split; [|by apply Forall_app].
    simpl. by rewrite Htr, (assoc_L (++)).
  - intros p Hp. simpl. rewrite Hm by done. by apply Hfr.
Qed.

Lemma kept_upd w m evs :
  kept P inp opened w0 w →
  Forall (fun ev : event => own_call P inp opened ev.1) evs →
  (∀ p, ¬ output_path P p → m !! p = fs w !! p) →
  (is_file (fs w !! commonTempPath P) → is_file (m !! commonTempPath P)) →
  kept P inp opened w0 (upd w m evs).
Proof.
  intros [Ht Hk] Hevs Hm Hf. split; [by apply touched_upd|].
  intros H0. simpl. auto.
Qed.

Lemma touched_stderr w s :
  touched P inp opened w0 w → touched P inp opened w0 (put_stderr w s).
Proof. done. Qed.

Lemma kept_stderr w s :
  kept P inp opened w0 w → kept P inp opened w0 (put_stderr w s).
Proof. done. Qed.

Lemma kept_touched w : kept P inp opened w0 w → touched P inp opened w0 w.
Proof. by intros [? _]. Qed.

Lemma kept_event w c r :
  kept P inp opened w0 w → own_call P inp opened c →
  kept P inp opened w0 (upd w (fs w) [(c, r)]).
Proof. intros HK Hc. apply kept_upd; try done. by repeat constructor. Qed.

Lemma touched_event w c r :
  touched P inp opened w0 w → own_call P inp opened c →
  touched P inp opened w0 (upd w (fs w) [(c, r)]).
Proof. intros HK Hc. apply touched_upd; try done. by repeat constructor. Qed.

Lemma kept_insert w p d c :
  kept P inp opened w0 w → own_call P inp opened c → output_path P p →
  kept P inp opened w0 (upd w (<[p := File d]> (fs w)) [(c, None)]).
Proof.
  intros HK Hc Hp. apply kept_upd; try done.
  - by repeat constructor.
  - intros q Hq. apply lookup_insert_ne. by intros ->.
  - intros Hf. destruct (decide (p = commonTempPath P)) as [->|Hne].
    + rewrite lookup_insert_eq. by eexists.
    + by rewrite lookup_insert_ne.
Qed.

(** ** System calls *)

Lemma kept_Open p w (Q : option error → world → Prop) E :
  kept P inp opened w0 w → own_call P inp opened (Open p) →
  (∀ r w', kept P inp opened w0 w' → Q r w') →
  sat (os_Open p) w Q E.
Proof.
  intros HK Hc HQ. apply sat_syscall.
  - intros m Hm. destruct (fs w !! p); [|done]. injection Hm as <-.
    by apply HQ, kept_event.
  - intros e. by apply HQ, kept_event.
Qed.

Lemma kept_Create p w (Q : option error → world → Prop) E :
  kept P inp opened w0 w → output_path P p →
  (∀ r w', kept P inp opened w0 w' → Q r w') →
  sat (os_Create p) w Q E.
Proof.
  intros HK Hp HQ. apply sat_syscall.
  - intros m Hm. destruct (fs w !! p) as [[d|]|]; try done;
      injection Hm as <-; by apply HQ, kept_insert.
  - intros e. by apply HQ, kept_event.
Qed.

Lemma kept_Write p data w (Q : option error → world → Prop) E :
  kept P inp opened w0 w → output_path P p →
  (∀ r w', kept P inp opened w0 w' → Q r w') →
  sat (file_Write p data) w Q E.
Proof.
  intros HK Hp HQ. apply sat_syscall.
  - intros m Hm. destruct (fs w !! p) as [[d|]|]; try done.
    injection Hm as <-. by apply HQ, kept_insert.
  - intros e. by apply HQ, kept_event.
Qed.

Lemma kept_Close p w (Q : option error → world → Prop) E :
  kept P inp opened w0 w → own_call P inp opened (Close p) →
  (∀ r w', kept P inp opened w0 w' → Q r w') →
  sat (file_Close p) w Q E.
Proof.
  intros HK Hc HQ. apply sat_syscall.
  - intros m Hm. injection Hm as <-. by apply HQ, kept_event.
  - intros e. by apply HQ, kept_event.
Qed.

Lemma touched_Close p w (Q : option error → world → Prop) E :
  touched P inp opened w0 w → own_call P inp opened (Close p) →
  (∀ r w', touched P inp opened w0 w' → Q r w') →
  sat (file_Close p) w Q E.
Proof.
  intros HK Hc HQ. apply sat_syscall.
  - intros m Hm. injection Hm as <-. by apply HQ, touched_event.
  - intros e. by apply HQ, touched_event.
Qed.

Lemma kept_Read p w (Q : error + string → world → Prop) E :
  kept P inp opened w0 w → own_call P inp opened (Read p) →
  (∀ r w', kept P inp opened w0 w' → Q r w') →
  sat (file_Read p) w Q E.
Proof.
  intros HK Hc HQ. unfold sat, file_Read.
  destruct (faults w (length (trace w))) as [e|].
  { by apply HQ, (kept_event w (Read p) (Some e)). }
  destruct (fs w !! p) as [[d|]|].
  - by apply HQ, (kept_event w (Read p) None).
  - by apply HQ, (kept_event w (Read p) (Some EISDIR)).
  - by apply HQ, (kept_event w (Read p) (Some EBADF)).
Qed.

(** A rename that goes through moves the scratch file away; one that
    fails leaves it. *)
Lemma kept_Rename w (Q : option error → world → Prop) E :
  kept P inp opened w0 w →
  (∀ w', touched P inp opened w0 w' → Q None w') →
  (∀ e w', kept P inp opened w0 w' → Q (Some e) w') →
  sat (os_Rename (commonTempPath P) (unknownPath P)) w Q E.
Proof.
  intros HK Hok Hfail. apply sat_syscall.
  - intros m Hm. apply Hok. apply touched_upd; [by apply kept_touched| |].
    + by repeat constructor.
    + intros q Hq.
      assert (q ≠ commonTempPath P) by (intros ->; apply Hq, output_common).
      assert (q ≠ unknownPath P) by (intros ->; apply Hq, output_unknown).
      destruct (fs w !! commonTempPath P); [|done].
      destruct (fs w !! unknownPath P) as [[d|]|]; try done; injection Hm as <-;
        by rewrite lookup_insert_ne, lookup_delete_ne.
  - intros e. apply Hfail. apply kept_event; [done|]. done.
Qed.

Lemma touched_Remove w (Q : option error → world → Prop) E :
  touched P inp opened w0 w →
  (∀ r w', touched P inp opened w0 w' → Q r w') →
  sat (os_Remove (commonTempPath P)) w Q E.
Proof.
  intros HT HQ. apply sat_syscall.
  - intros m Hm. apply HQ. apply touched_upd; [done| |].
    + by repeat constructor.
    + intros q Hq.
      assert (q ≠ commonTempPath P) by (intros ->; apply Hq, output_common).
      destruct (fs w !! commonTempPath P); [|done]. injection Hm as <-.
      by rewrite lookup_delete_ne.
  - intros e. by apply HQ, touched_event.
Qed.

(** ** Buffered input and output *)

Lemma kept_Flush b w (Q : bufio.Writer * option error → world → Prop) E :
  kept P inp opened w0 w → output_path P (bufio.wr b) →
  (∀ b' r w', kept P inp opened w0 w' → bufio.wr b' = bufio.wr b → Q (b', r) w') →
  sat (bufio.Flush b) w Q E.
Proof.
  intros HK Hb HQ. unfold bufio.Flush. destruct (bufio.buf b).
  { apply sat_ret. by apply HQ. }
  apply sat_bind, kept_Write; [done..|].
  intros [err|] w' HK'; apply sat_ret; by apply HQ.
Qed.

Lemma kept_WriteString b s w (Q : bufio.Writer * option error → world → Prop) E :
  kept P inp opened w0 w → output_path P (bufio.wr b) →
  (∀ b' r w', kept P inp opened w0 w' → bufio.wr b' = bufio.wr b → Q (b', r) w') →
  sat (bufio.WriteString b s) w Q E.
Proof.
  intros HK Hb HQ. unfold bufio.WriteString.
  destruct (_ <=? _). { apply sat_ret. by apply HQ. }
  destruct (_ =? _).
  { apply sat_bind, kept_Write; [done..|]. intros r w' HK'. apply sat_ret. by apply HQ. }
  apply sat_bind, kept_Flush; [done..|].
  intros b1 [err|] w' HK' Hb1; simpl in Hb1.
  { apply sat_ret. by apply HQ. }
  destruct (_ <=? _).
  { apply sat_ret. apply HQ; [done|]. simpl. done. }
  apply sat_bind, kept_Write; [done|by rewrite Hb1|].
  intros r w'' HK''. apply sat_ret. by apply HQ.
Qed.

Lemma kept_ReadString b w
    (Q : bufio.Reader * string * bufio.read_error → world → Prop) E :
  kept P inp opened w0 w → own_call P inp opened (Read (bufio.rd b)) →
  (∀ b' l r w', kept P inp opened w0 w' → bufio.rd b' = bufio.rd b →
                Q (b', l, r) w') →
  sat (bufio.ReadString b Str.newline) w Q E.
Proof.
  intros HK Hb HQ. unfold bufio.ReadString.
  apply sat_bind, kept_Read; [done..|].
  intros [err|data] w' HK'.
  { apply sat_ret. by apply HQ. }
  destruct (bufio.cut _ _) as [[line rest]|]; apply sat_ret; by apply HQ.
Qed.

Lemma kept_io_Copy b src w (Q : bufio.Writer * option error → world → Prop) E :
  kept P inp opened w0 w → output_path P (bufio.wr b) →
  own_call P inp opened (Read src) →
  (∀ b' r w', kept P inp opened w0 w' → bufio.wr b' = bufio.wr b → Q (b', r) w') →
  sat (io_Copy b src) w Q E.
Proof.
  intros HK Hb Hsrc HQ. unfold io_Copy.
  apply sat_bind, kept_Read; [done..|].
  intros [err|data] w' HK'.
  { apply sat_ret. by apply HQ. }
  destruct (_ =? _).
  - apply sat_bind, kept_Write; [done..|]. intros r w'' HK''. apply sat_ret. by apply HQ.
  - by apply kept_WriteString.
Qed.

Lemma kept_io_Copy_file dst src w (Q : option error → world → Prop) E :
  kept P inp opened w0 w → output_path P dst →
  own_call P inp opened (Read src) →
  (∀ r w', kept P inp opened w0 w' → Q r w') →
  sat (io_Copy_file dst src) w Q E.
Proof.
  intros HK Hb Hsrc HQ. unfold io_Copy_file.
  apply sat_bind, kept_Read; [done..|].
  intros [err|data] w' HK'.
  { apply sat_ret. by apply HQ. }
  by apply kept_Write.
Qed.

(** ** The steps of [main] *)

Lemma own_handles_set_run st run ro b :
  own_handles P inp st → runOutputs st !! run = Some ro →
  bufio.wr b = bufio.wr (writer ro) →
  own_handles P inp
    (set_runOutputs st (<[run := {| file := file ro; writer := b |}]> (runOutputs st))).
Proof.
  intros (Hc & Hr & Hruns) Hro Hb. split; [done|]. split; [done|].
  intros k ro' Hk. simpl in Hk.
  destruct (decide (k = run)) as [->|Hne].
  - rewrite lookup_insert_eq in Hk. injection Hk as <-. simpl.
    destruct (Hruns _ _ Hro) as [Hf Hw]. by rewrite Hb.
  - rewrite lookup_insert_ne in Hk by done. by apply Hruns.
Qed.

Lemma kept_openRun run st w
    (Q : locals * (error + runOut) → world → Prop) :
  kept P inp opened w0 w → own_handles P inp st →
  (∀ st' r w', kept P inp opened w0 w' → own_handles P inp st' →
     (∀ ro, r = inr ro → runOutputs st' !! run = Some ro) → Q (st', r) w') →
  sat (openRun P run st) w Q (kept P inp opened w0).
Proof.
  intros HK Hst HQ. pose proof Hst as (Hc & Hr & Hruns). unfold openRun.
  destruct (runOutputs st !! run) as [ro|] eqn:Hro.
  { apply sat_ret. apply HQ; try done. by intros ? [= <-]. }
  assert (Hrun := output_run P run). assert (Hcommon := output_common P).
  apply sat_bind, kept_Create; [done..|].
  intros [err|] w1 HK1.
  { apply sat_ret. by apply HQ. }
  apply sat_bind, kept_Flush; [done|by rewrite Hc|].
  intros cw e w2 HK2 Hcw.
  assert (Hst2 : own_handles P inp (set_commonWriter st cw)).
  { split; [by rewrite <- Hc|done]. }
  destruct e as [err|].
  { apply sat_bind, kept_Close; [done|by right|].
    intros r w3 HK3. apply sat_ret. by apply HQ. }
  apply sat_bind, kept_Open; [done|by right|].
  intros [err|] w3 HK3.
  { apply sat_bind, kept_Close; [done|by right|].
    intros r w4 HK4. apply sat_ret. by apply HQ. }
  apply sat_bind, kept_io_Copy; [done|done|by right|].
  intros b' cErr w4 HK4 Hb'. simpl in Hb'.
  apply sat_bind, kept_Close; [done|by right|].
  intros r5 w5 HK5. destruct cErr as [err|].
  - apply sat_bind, kept_Flush; [done|by rewrite Hb'|].
    intros b6 r6 w6 HK6 _.
    apply sat_bind, kept_Close; [done|by right|].
    intros r7 w7 HK7. apply sat_ret. by apply HQ.
  - apply sat_ret. apply HQ; [done| |].
    + split; [by rewrite <- Hc|]. split; [done|].
      intros k ro' Hk. simpl in Hk.
      destruct (decide (k = run)) as [->|Hne].
      * rewrite lookup_insert_eq in Hk. by injection Hk as <-.
      * rewrite lookup_insert_ne in Hk by done. by apply Hruns.
    + intros ro [= <-]. simpl. apply lookup_insert_eq.
Qed.

Lemma kept_write_open_run line run st w :
  kept P inp opened w0 w → own_handles P inp st →
  sat (write_open_run line run st) w
    (fun st' w' => kept P inp opened w0 w' ∧ own_handles P inp st')
    (kept P inp opened w0).
Proof.
  intros HK Hst. pose proof Hst as (Hc & Hr & Hruns). unfold write_open_run.
  destruct (runOutputs st !! run) as [ro|] eqn:Hro; [|by apply sat_ret].
  destruct (Hruns _ _ Hro) as [Hf Hw].
  apply sat_bind, kept_WriteString; [done|rewrite Hw; apply output_run|].
  intros b' [err|] w' HK' Hb'.
  - apply sat_bind, sat_eprint, sat_exit. by apply kept_stderr.
  - apply sat_ret. split; [done|]. by apply own_handles_set_run.
Qed.

Lemma kept_write_tagged_run line run st w :
  kept P inp opened w0 w → own_handles P inp st →
  sat (write_tagged_run P line run st) w
    (fun st' w' => kept P inp opened w0 w' ∧ own_handles P inp st')
    (kept P inp opened w0).
Proof.
  intros HK Hst. unfold write_tagged_run.
  apply sat_bind, kept_openRun; [done..|].
  intros st1 [oerr|ro] w1 HK1 Hst1 Hro.
  { apply sat_bind, sat_eprint, sat_exit. by apply kept_stderr. }
  specialize (Hro ro eq_refl). destruct Hst1 as (Hc & Hr & Hruns).
  destruct (Hruns _ _ Hro) as [Hf Hw].
  apply sat_bind, kept_WriteString; [done|rewrite Hw; apply output_run|].
  intros b' [err|] w' HK' Hb'.
  - apply sat_bind, sat_eprint, sat_exit. by apply kept_stderr.
  - apply sat_ret. split; [done|]. by apply own_handles_set_run.
Qed.

Lemma kept_route_line line st w :
  kept P inp opened w0 w → own_handles P inp st →
  sat (route_line P line st) w
    (fun st' w' => kept P inp opened w0 w' ∧ own_handles P inp st')
    (kept P inp opened w0).
Proof.
  intros HK Hst. pose proof Hst as (Hc & Hr & Hruns). unfold route_line.
  destruct (_ =? _).
  - apply sat_bind, kept_WriteString; [done|rewrite Hc; apply output_common|].
    intros cw [err|] w1 HK1 Hcw.
    { apply sat_bind, sat_eprint, sat_exit. by apply kept_stderr. }
    apply sat_bind. unfold sat at 1, range_keys.
    apply (sat_for_each (write_open_run line)
             (fun st' w' => kept P inp opened w0 w' ∧ own_handles P inp st')).
    + intros k s w' [HK' Hs']. by apply kept_write_open_run.
    + split; [done|]. split; [simpl; by rewrite Hcw|done].
  - apply sat_bind. unfold sat at 1, range_keys.
    apply (sat_for_each (write_tagged_run P line)
             (fun st' w' => kept P inp opened w0 w' ∧ own_handles P inp st')).
    + intros k s w' [HK' Hs']. by apply kept_write_tagged_run.
    + done.
Qed.

Lemma kept_read_loop fuel : ∀ st w,
  kept P inp opened w0 w → own_handles P inp st →
  sat (read_loop P fuel st) w
    (fun st' w' => kept P inp opened w0 w' ∧ own_handles P inp st')
    (kept P inp opened w0).
Proof.
  induction fuel as [|fuel IH]; intros st w HK Hst; [done|].
  pose proof Hst as (Hc & Hr & Hruns). simpl.
  apply sat_bind, kept_ReadString; [done|left; by rewrite Hr|].
  intros rd line err w1 HK1 Hrd.
  assert (Hst1 : own_handles P inp (set_bufReader st rd)).
  { split; [done|]. split; [by rewrite <- Hr|done]. }
  destruct err as [| |e].
  - apply sat_bind. eapply sat_mono; [by apply kept_route_line| |done].
    intros st2 w2 [HK2 Hst2]. by apply IH.
  - destruct (_ =? _); [by apply sat_ret|]. by apply kept_route_line.
  - apply sat_bind, sat_eprint, sat_exit. by apply kept_stderr.
Qed.

Lemma kept_close_run run st w :
  kept P inp opened w0 w → own_handles P inp st →
  sat (close_run run st) w
    (fun st' w' => kept P inp opened w0 w' ∧ own_handles P inp st')
    (kept P inp opened w0).
Proof.
  intros HK Hst. pose proof Hst as (Hc & Hr & Hruns). unfold close_run.
  destruct (runOutputs st !! run) as [ro|] eqn:Hro; [|by apply sat_ret].
  destruct (Hruns _ _ Hro) as [Hf Hw].
  apply sat_bind, kept_Flush; [done|rewrite Hw; apply output_run|].
  intros b' [err|] w1 HK1 Hb'.
  { apply sat_bind, sat_eprint, sat_exit. by apply kept_stderr. }
  apply sat_bind, kept_Close; [done|right; rewrite Hf; apply output_run|].
  intros [err|] w2 HK2.
  { apply sat_bind, sat_eprint, sat_exit. by apply kept_stderr. }
  apply sat_ret. split; [done|]. by apply own_handles_set_run.
Qed.

(** [finish] returns after the scratch file may have been renamed; when it
    stops the run, the scratch file is still there. *)
Lemma touched_finish inName st w :
  kept P inp opened w0 w → own_handles P inp st →
  sat (finish P inName st) w
    (fun _ w' => touched P inp opened w0 w')
    (kept P inp opened w0).
Proof.
  intros HK Hst. pose proof Hst as (Hc & Hr & Hruns). unfold finish.
  assert (Hcommon := output_common P). assert (Hunknown := output_unknown P).
  apply sat_bind, kept_Flush; [done|by rewrite Hc|].
  intros cw [err|] w1 HK1 Hcw.
  { apply sat_bind, sat_eprint, sat_exit. by apply kept_stderr. }
  apply sat_bind. unfold sat at 1, range_keys.
  apply sat_bind. eapply sat_mono;
    [apply (sat_for_each close_run
              (fun st' w' => kept P inp opened w0 w' ∧ own_handles P inp st'))| |done].
  - intros k s w' [HK' Hs']. by apply kept_close_run.
  - split; [done|]. split; [simpl; by rewrite Hcw|done].
  - intros st2 w2 [HK2 Hst2]. simpl.
    destruct (negb (anyRunFound st2)); [|by apply sat_ret, kept_touched].
    apply sat_bind, kept_Close; [done|by right|].
    intros r3 w3 HK3.
    apply sat_bind, kept_Rename; [done|..].
    { intros w4 HT4. by apply sat_eprint, touched_stderr. }
    intros e w4 HK4.
    apply sat_bind, kept_Open; [done|by right|].
    intros [err|] w5 HK5.
    { apply sat_bind, sat_eprint, sat_exit. by apply kept_stderr. }
    apply sat_bind, kept_Create; [done..|].
    intros [err|] w6 HK6.
    { apply sat_bind, kept_Close; [done|by right|].
      intros r7 w7 HK7. apply sat_bind, sat_eprint, sat_exit. by apply kept_stderr. }
    apply sat_bind, kept_io_Copy_file; [done|done|by right|].
    intros [err|] w7 HK7.
    + apply sat_bind, kept_Close; [done|by right|]. intros r8 w8 HK8.
      apply sat_bind, kept_Close; [done|by right|]. intros r9 w9 HK9.
      apply sat_bind, sat_eprint, sat_exit. by apply kept_stderr.
    + apply sat_bind, kept_Close; [done|by right|]. intros r8 w8 HK8.
      apply sat_bind, kept_Close; [done|by right|]. intros r9 w9 HK9.
      apply sat_eprint, touched_stderr. by apply kept_touched.
Qed.

(** [main] from the point where the scratch file exists. *)
Lemma touched_main_tail inName (b : bool) w :
  kept P inp opened w0 w → (b = true → opened = true) →
  sat (fuel ← input_fuel inp;
       st ← read_loop P fuel (init_locals P inp);
       finish P inName st;;
       file_Close (commonTempPath P);;
       os_Remove (commonTempPath P);;
       if b then file_Close inp;; mret tt else mret tt) w
    (fun _ w' => touched P inp opened w0 w')
    (kept P inp opened w0).
Proof.
  intros HK Hb. apply sat_bind. unfold sat at 1, input_fuel.
  apply sat_bind. eapply sat_mono; [apply kept_read_loop; [done|]| |done].
  { split; [done|]. split; [done|]. intros run ro Hro. simpl in Hro. by rewrite lookup_empty in Hro. }
  intros st w1 [HK1 Hst1]. simpl.
  apply sat_bind. eapply sat_mono; [by apply touched_finish| |done].
  intros [] w2 HT2. simpl.
  apply sat_bind, touched_Close; [done|right; apply output_common|].
  intros r3 w3 HT3.
  apply sat_bind, touched_Remove; [done|].
  intros r4 w4 HT4.
  destruct b; [|by apply sat_ret].
  apply sat_bind, touched_Close; [done|left; auto|].
  intros r5 w5 HT5. by apply sat_ret.
Qed.

End Footprint.

(** * What every run keeps to *)

Lemma input_path_named flags :
  (named flags = true ∧ input_path flags = inputFile flags ∧ inputFile flags ≠ "") ∨
  (named flags = false ∧ input_path flags = os_Stdin ∧ inputFile flags = "").
Proof.
  unfold named, input_path. destruct (decide (inputFile flags ≠ "")) as [H|H].
  - left. by rewrite !(bool_decide_eq_true_2 _ H).
  - right. rewrite !(bool_decide_eq_false_2 _ H). split_and!; try done.
    by destruct (decide (inputFile flags = "")).
Qed.

Lemma main_footprint flags w :
  sat (main flags) w
    (fun _ w' => touched (derive_outPrefix flags) (input_path flags) (named flags) w w')
    (touched (derive_outPrefix flags) (input_path flags) (named flags) w).
Proof.
  unfold main. destruct (help flags).
  { exact (touched_refl _ _ _ w). }
  assert (HK := kept_refl (derive_outPrefix flags) (input_path flags) (named flags) w).
  assert (HE : ∀ w', kept (derive_outPrefix flags) (input_path flags) (named flags) w w' →
                     touched (derive_outPrefix flags) (input_path flags) (named flags) w w').
  { intros w'. apply kept_touched. }
  destruct (input_path_named flags) as [(Hn & Hp & Hin)|(Hn & Hp & Hin)].
  - rewrite (bool_decide_eq_true_2 _ Hin). rewrite <- Hp.
    apply sat_bind, sat_bind.
    eapply kept_Open; [exact HK|left; by rewrite Hn|].
    intros [err|] w1 HK1.
    { apply sat_bind, sat_eprint, sat_exit. by apply HE, kept_stderr. }
    apply sat_ret. simpl.
    apply sat_bind. eapply kept_Create; [exact HK1|apply output_common|].
    intros [err|] w2 HK2.
    { apply sat_bind, sat_eprint, sat_exit. by apply HE, kept_stderr. }
    eapply sat_mono;
      [exact (touched_main_tail (derive_outPrefix flags) (input_path flags)
                (named flags) w (filepath.Base (input_path flags)) true w2 HK2
                (fun _ => Hn))
      |done|done].
  - rewrite bool_decide_eq_false_2 by (by intros ?). rewrite <- Hp.
    apply sat_bind, sat_ret. simpl.
    apply sat_bind. eapply kept_Create; [exact HK|apply output_common|].
    intros [err|] w2 HK2.
    { apply sat_bind, sat_eprint, sat_exit. by apply HE, kept_stderr. }
    eapply sat_mono;
      [exact (touched_main_tail (derive_outPrefix flags) (input_path flags)
                (named flags) w "stdin" false w2 HK2 (fun H => False_ind _ (diff_false_true H)))
      |done|done].
Qed.

(** X5: whatever the files and the failures, a run makes only calls of its
    own and changes only its own files: it opens and closes the input only
    when [-input] names it, reads only the input and the scratch file,
    creates and writes only [P.common.tmp], [P.run_unknown.log] and files
    [P.run_<id>.log], renames only the scratch file to the fallback name,
    removes only the scratch file; and every path that is none of these
    output paths holds at the end, or when the run is stopped, what it held
    at the start. *)
Theorem run_footprint flags w :
  (∃ evs, trace (run flags w).2 = trace w ++ evs ∧
     Forall (fun ev : event =>
               own_call (derive_outPrefix flags) (input_path flags) (named flags) ev.1)
       evs) ∧
  (∀ p, ¬ output_path (derive_outPrefix flags) p →
        fs (run flags w).2 !! p = fs w !! p) ∧
  faults (run flags w).2 = faults w.
Proof.
  pose proof (main_footprint flags w) as H. unfold sat in H. unfold run.
  destruct (main flags w) as [[a|c|] w']; simpl;
    destruct H as ((Hf & _) & Hev & Hfr); done.
Qed.

Lemma main_scratch flags w :
  help flags = false →
  sat (main flags) w (fun _ _ => True)
    (fun w' =>
       (∃ e, last (trace w') = Some (Open (inputFile flags), Some e)) ∨
       (∃ e, last (trace w')
             = Some (Create (commonTempPath (derive_outPrefix flags)), Some e)) ∨
       is_file (fs w' !! commonTempPath (derive_outPrefix flags))).
Proof.
  intros Hh. unfold main. rewrite Hh.
  match goal with |- sat _ _ _ ?E0 => set (E := E0) end.
  assert (Htail : ∀ inName (b : bool) w1,
    (b = true → named flags = true) →
    sat (os_Create (commonTempPath (derive_outPrefix flags)) ≫= λ e,
         match e with
         | Some err =>
             eprint ("error: cannot create common temp file: " +:+ Error err +:+ nl);;
             os_Exit 2
         | None =>
             fuel ← input_fuel (input_path flags);
             st ← read_loop (derive_outPrefix flags) fuel
                    (init_locals (derive_outPrefix flags) (input_path flags));
             finish (derive_outPrefix flags) inName st;;
             file_Close (commonTempPath (derive_outPrefix flags));;
             os_Remove (commonTempPath (derive_outPrefix flags));;
             if b then file_Close (input_path flags);; mret tt else mret tt
         end) w1 (fun _ _ => True) E).
  { intros inName b w1 Hb. apply sat_bind, sat_syscall.
    - intros m Hm.
      assert (Hfile : is_file (m !! commonTempPath (derive_outPrefix flags))).
      { destruct (fs w1 !! _) as [[d|]|]; try done; injection Hm as <-;
          rewrite lookup_insert_eq; by eexists. }
      eapply sat_mono;
        [exact (touched_main_tail (derive_outPrefix flags) (input_path flags)
                  (named flags)
                  (upd w1 m [(Create (commonTempPath (derive_outPrefix flags)), None)])
                  inName b _ (kept_refl _ _ _ _) Hb)
        |done|].
      intros w' [_ Hk]. right. right. by apply Hk.
    - intros e. apply sat_bind, sat_eprint, sat_exit. right. left. exists e.
      simpl. by rewrite last_snoc. }
  destruct (input_path_named flags) as [(Hn & Hp & Hin)|(Hn & Hp & Hin)].
  - rewrite (bool_decide_eq_true_2 _ Hin).
    apply sat_bind, sat_bind, sat_syscall.
    + intros m Hm. apply sat_ret. simpl. rewrite <- Hp.
      exact (Htail (filepath.Base (input_path flags)) true _ (fun _ => Hn)).
    + intros e. apply sat_bind, sat_eprint, sat_exit. left. exists e.
      simpl. by rewrite last_snoc.
  - rewrite bool_decide_eq_false_2 by (by intros ?).
    apply sat_bind, sat_ret. simpl. rewrite <- Hp.
    exact (Htail "stdin" false _ (fun H => False_ind _ (diff_false_true H))).
Qed.

(** X6: a run that fails leaves the scratch file behind: when a run without
    [-h] ends with a status other than 0, either the call that failed is
    the open of the input or the creation of the scratch file, or
    [P.common.tmp] is still a file at the end. *)
Theorem failed_run_keeps_scratch flags w c w' :
  help flags = false →
  run flags w = (Some c, w') →
  c ≠ 0 →
  (∃ e, last (trace w') = Some (Open (inputFile flags), Some e)) ∨
  (∃ e, last (trace w')
        = Some (Create (commonTempPath (derive_outPrefix flags)), Some e)) ∨
  (∃ d, fs w' !! commonTempPath (derive_outPrefix flags) = Some (File d)).
Proof.
  intros Hh Hrun Hc. pose proof (main_scratch flags w Hh) as H.
  unfold sat in H. unfold run in Hrun.
  destruct (main flags w) as [[a|c'|] w'']; simplify_eq; done.
Qed.

Lemma failed_run_keeps_scratch_witness :
  help (file_flags "logs" "X") = false ∧
  run (file_flags "logs" "X") dir_input_world
    = (Some 2, (run (file_flags "logs" "X") dir_input_world).2) ∧
  2 ≠ 0 ∧
  fs (run (file_flags "logs" "X") dir_input_world).2 !! "X.common.tmp"
    = Some (File "") ∧
  ((∃ e, last (trace (run (file_flags "logs" "X") dir_input_world).2)
         = Some (Open (inputFile (file_flags "logs" "X")), Some e)) ∨
   (∃ e, last (trace (run (file_flags "logs" "X") dir_input_world).2)
         = Some (Create (commonTempPath (derive_outPrefix (file_flags "logs" "X"))),
                 Some e)) ∨
   (∃ d, fs (run (file_flags "logs" "X") dir_input_world).2
           !! commonTempPath (derive_outPrefix (file_flags "logs" "X"))
         = Some (File d))).
Proof.
  assert (H1 : help (file_flags "logs" "X") = false) by reflexivity.
  assert (H2 : run (file_flags "logs" "X") dir_input_world
               = (Some 2, (run (file_flags "logs" "X") dir_input_world).2))
    by (vm_compute; reflexivity).
  assert (H3 : 2 ≠ 0) by lia.
  split; [exact H1|]. split; [exact H2|]. split; [exact H3|].
  split; [vm_compute; reflexivity|].
  exact (failed_run_keeps_scratch (file_flags "logs" "X") dir_input_world 2 _ H1 H2 H3).
Defined.
